(** * Matching analysis: the matching engine of [distance_matching.ipynb]

    A shallow embedding of the notebook's [distance_matching] and
    [return_rate] functions, and the properties of the matching engine
    stated over it.

    Modelling conventions.
    - Python floats are only compared and sorted by the engine, never
      combined arithmetically (the cosine itself is computed inside the
      gensim index).  They are modelled as rationals [Q]; [==] on floats
      is [Qeq_bool], [>=] is [Qle_bool] with the operands swapped.  NaN is
      outside the model.  The aggregator divides: its divisions are
      rational divisions behind the zero-divisor check Python makes.
    - The scores the index returns are [numpy.float32] values, and the
      threshold test compares one with a Python float.  What NumPy makes
      of the Python float before it compares depends on its version: it
      is a parameter of the engine, [promote], with the two conversions
      NumPy has had, [as_float64] and [float32], defined next to it.
    - [sorted] is the builtin stable sort, modelled by a stable insertion
      sort.
    - Python exceptions are an [error] value; printed lines are [event]s.
      A computation is a pair of the lines printed so far and either a
      result or the exception that aborted it.
    - [docToPost] and [upvotes] are dictionaries received from the caller:
      [gmap]s, a missing key is [KeyError].
    - [treatmentToPost], [controlToPost] and [similarity_return] are
      dictionaries keyed by a counter that runs 0, 1, 2, ...: they are
      modelled by the list of their values in key order, so that
      [d[k]] is list lookup (a missing key is [KeyError]) and
      [d.values()] is the list itself.
    - [gensim.similarities.SparseMatrixSimilarity] and [random.sample]
      are library calls: they are parameters of the development.
    - The two readers, [get_covariates] and [get_posts_information], are
      in [Module Reader], with the text of the file as their argument and
      the builtin [float] as a parameter. *)

From Stdlib Require Import QArith Qpower Qround Qabs Lqa.
From stdpp Require Import base option list gmap strings sorting.

Local Open Scope string_scope.
Local Open Scope list_scope.

(** ** Exceptions, printed lines, and the monad that threads them *)

Inductive error : Type :=
  | KeyError
  | IndexError
  | UnboundLocalError
  | ZeroDivisionError.

Inductive event : Type :=
  | PrintTreatmentGroup (n : nat)
  | PrintControlGroup (n : nat)
  | PrintUnmatched (n : nat)
  | PrintProbTreatment (p : Q)
  | PrintProbControl (p : Q)
  | PrintRelativeIncrease (p : Q).

Inductive result (A : Type) : Type :=
  | Ok (a : A)
  | Err (e : error).
Arguments Ok {A} a.
Arguments Err {A} e.

Definition M (A : Type) : Type := (list event * result A)%type.

Definition printed {A} (m : M A) : list event := fst m.
Definition outcome {A} (m : M A) : result A := snd m.

Definition raise {A} (e : error) : M A := ([], Err e).
Definition print (ev : event) : M unit := ([ev], Ok tt).

#[global] Instance M_ret : MRet M := fun A a => ([], Ok a).
#[global] Instance M_bind : MBind M := fun A B f m =>
  match m with
  | (l, Ok a) => let '(l', r) := f a in (l ++ l', r)
  | (l, Err e) => (l, Err e)
  end.

(** [d[k]] on a dictionary or list: the value, or the given exception. *)
Definition get {A} (e : error) (o : option A) : M A :=
  match o with
  | Some a => mret a
  | None => raise e
  end.

(** [for x in xs: st = body(st, x)] *)
Fixpoint for_each {S X} (body : S → X → M S) (xs : list X) (st : S) : M S :=
  match xs with
  | [] => mret st
  | x :: xs' => st' ← body st x; for_each body xs' st'
  end.

(** [range(0, n)] *)
Definition range (n : nat) : list nat := seq 0 n.

(** ** Data model *)

(** A covariate vector as [get_covariates] leaves it: a list of
    (dimension, value) pairs. *)
Definition vec : Type := list (nat * Q).

(** The two groups built by the split at the top of [distance_matching]. *)
Record groups : Type := mkGroups {
  treatment : list vec;
  treatmentToPost : list string;
  control : list vec;
  controlToPost : list string;
  countTreatment : nat;
  countControl : nat
}.

Definition no_groups : groups := mkGroups [] [] [] [] 0 0.

(** One iteration of the split loop. *)
Definition split_step (docs : list vec) (docToPost : gmap nat string)
    (upvotes : gmap string Q) (g : groups) (x : nat) : M groups :=
  post ← get KeyError (docToPost !! x);
  f ← get KeyError (upvotes !! post);
  d ← get IndexError (docs !! x);
  if Qeq_bool f 0 then
    mret (mkGroups (treatment g) (treatmentToPost g)
            (control g ++ [d]) (controlToPost g ++ [post])
            (countTreatment g) (S (countControl g)))
  else
    mret (mkGroups (treatment g ++ [d]) (treatmentToPost g ++ [post])
            (control g) (controlToPost g)
            (S (countTreatment g)) (countControl g)).

(** The split loop, with the two lines it prints. *)
Definition split_groups (docs : list vec) (docToPost : gmap nat string)
    (upvotes : gmap string Q) : M groups :=
  g ← for_each (split_step docs docToPost upvotes) (range (length docs)) no_groups;
  _ ← print (PrintTreatmentGroup (countTreatment g));
  _ ← print (PrintControlGroup (countControl g));
  mret g.

(** ** Ranking the candidates *)

(** [list(enumerate(sims))] *)
Fixpoint enumerate_from {A} (k : nat) (l : list A) : list (nat * A) :=
  match l with
  | [] => []
  | a :: l' => (k, a) :: enumerate_from (S k) l'
  end.

Definition enumerate {A} (l : list A) : list (nat * A) := enumerate_from 0 l.

(** [sorted(l, key = itemgetter(1), reverse = True)].  Python's sort is
    stable, and [reverse = True] keeps it so: elements with equal keys stay
    in their original order.  The model is a stable insertion sort into
    descending order: an element is put in front of the first element
    whose score does not exceed its own. *)
Fixpoint insert_desc (x : nat * Q) (l : list (nat * Q)) : list (nat * Q) :=
  match l with
  | [] => [x]
  | y :: l' => if Qle_bool (snd y) (snd x) then x :: y :: l'
               else y :: insert_desc x l'
  end.

Definition sorted_desc (l : list (nat * Q)) : list (nat * Q) :=
  foldr insert_desc [] l.

(** ** The threshold as the comparison takes it *)

(** The test [closer[y][1] >= float(threshold)] has a [numpy.float32] on
    its left, a score of the index, and a Python float on its right.
    Before NumPy 2 the two are compared in double precision: the score is
    widened, which changes nothing, and the threshold is taken as it
    is. *)
Definition as_float64 (threshold : Q) : Q := threshold.

(** From NumPy 2 on the Python float is converted to [float32] first,
    and the comparison is made there.  The conversion rounds to the
    nearest [float32], a tie going to the one whose last bit is 0. *)

(** The nearest integer, a half going to the even one. *)
Definition round_half_even (x : Q) : Z :=
  let f := Qfloor x in
  match (x - inject_Z f ?= 1 # 2)%Q with
  | Lt => f
  | Gt => (f + 1)%Z
  | Eq => if Z.even f then f else (f + 1)%Z
  end.

(** The binary exponent of a positive rational: the [e] with
    [2 ^ e <= x < 2 ^ (e + 1)]. *)
Definition binade (x : Q) : Z :=
  let e := (Z.log2 (Qnum x) - Z.log2 (Z.pos (Qden x)))%Z in
  if Qle_bool (2 ^ e) x then e else (e - 1)%Z.

(** A [float32] has 24 significant bits: in the binade of exponent [e]
    its values are [2 ^ (e - 23)] apart, and below [2 ^ -126] (the
    subnormal range) they are [2 ^ -149] apart.  The exponent of the
    spacing around a magnitude [a]: *)
Definition spacing (a : Q) : Z := (Z.max (binade a) (-126) - 23)%Z.

(** The multiple of the spacing nearest to a magnitude. *)
Definition nearest (a : Q) : Q :=
  (inject_Z (round_half_even (a / 2 ^ spacing a)) * 2 ^ spacing a)%Q.

(** A magnitude that rounds to [2 ^ 128] or more overflows to infinity,
    for which [2 ^ 128] stands here: it is above every finite [float32],
    as infinity is. *)
Definition overflow (r : Q) : Q :=
  if Qle_bool (2 ^ 128) r then (2 ^ 128)%Q else r.

(** [numpy.float32(x)] for a Python float [x]. *)
Definition float32 (x : Q) : Q :=
  let r := overflow (nearest (Qabs x)) in
  Qred (if Qle_bool 0 x then r else - r).

(** ** The matching loop *)

Record match_state : Type := mkState {
  ranking : gmap string Q;
  similarity : gmap string (string * Q);
  matched : gmap string nat;
  similarity_return : list (string * string);
  matchedControl : list string;
  matchedTreament : list string;
  count_pairs : nat;
  countUnmatched : nat
}.

Definition init_state : match_state := mkState ∅ ∅ ∅ [] [] [] 0 0.

(** [while treatmentToPost[closer[y][0]] in matched: y += 1], run on the
    candidates from position [y] on.  The loop has no bound check: once
    [y] reaches [len(closer)], [closer[y]] raises [IndexError]. *)
Fixpoint skip_matched (tToPost : list string) (claimed : gmap string nat)
    (cands : list (nat * Q)) (y : nat) : M nat :=
  match cands with
  | [] => raise IndexError
  | (j, _) :: rest =>
      t ← get KeyError (tToPost !! j);
      if decide (is_Some (claimed !! t)) then skip_matched tToPost claimed rest (S y)
      else mret y
  end.

Section Engine.

(** What NumPy makes of [float(threshold)] before it compares a score
    with it: [as_float64] before NumPy 2, [float32] from NumPy 2 on. *)
Variable promote : Q → Q.

(** [SparseMatrixSimilarity corpus num_features query]: the scores of
    [query] against every vector of [corpus], in corpus order. *)
Variable SparseMatrixSimilarity : list vec → nat → vec → list Q.

(** [sample population k] of the [random] module. *)
Variable sample : list nat → nat → list nat.

(** The candidate list [closer] of one control unit.  When [distance]
    is not ["cosine"] neither [index] nor [closer] is ever assigned, and
    the first use of [closer] raises. *)
Definition candidates (g : groups) (index : option (vec → list Q))
    (lookUpControl : list nat) (distance : option string) (x : nat)
    : M (list (nat * Q)) :=
  if decide (distance = Some "cosine") then
    idx ← get UnboundLocalError index;
    i ← get IndexError (lookUpControl !! x);
    c ← get IndexError (control g !! i);
    mret (sorted_desc (enumerate (idx c)))
  else raise UnboundLocalError.

(** The rank [y] of the selected candidate. *)
Definition select (g : groups) (replacement : bool) (st : match_state)
    (closer : list (nat * Q)) : M nat :=
  if replacement then mret 0%nat
  else skip_matched (treatmentToPost g) (matched st) closer 0.

(** One iteration of the matching loop. *)
Definition match_step (g : groups) (index : option (vec → list Q))
    (lookUpControl : list nat) (threshold : Q) (replacement : bool)
    (distance : option string) (st : match_state) (x : nat) : M match_state :=
  closer ← candidates g index lookUpControl distance x;
  y ← select g replacement st closer;
  c ← get IndexError (closer !! y);
  if Qle_bool (promote threshold) (snd c) then
    i ← get IndexError (lookUpControl !! x);
    cid ← get KeyError (controlToPost g !! i);
    tid ← get KeyError (treatmentToPost g !! fst c);
    mret (mkState (<[cid := snd c]> (ranking st))
            (<[cid := (tid, snd c)]> (similarity st))
            (<[tid := 1%nat]> (matched st))
            (similarity_return st ++ [(cid, tid)])
            (matchedControl st ++ [cid])
            (matchedTreament st ++ [tid])
            (S (count_pairs st))
            (countUnmatched st))
  else
    mret (mkState (ranking st) (similarity st) (matched st)
            (similarity_return st) (matchedControl st) (matchedTreament st)
            (count_pairs st) (S (countUnmatched st))).

(** The [else] branch of [distance_matching], up to the line that
    prints the unmatched count.  The top-5 report that follows only
    reads [ranking] and [similarity] and cannot raise; it is not part
    of the event log. *)
Definition matching (g : groups) (threshold : Q) (replacement : bool)
    (distance : option string) : M match_state :=
  let size := length (control g) in
  let lookUpControl := sample (range size) size in
  index ← (if decide (distance = Some "cosine") then
             t0 ← get IndexError (treatment g !! 0%nat);
             mret (Some (SparseMatrixSimilarity (treatment g) (length t0)))
           else mret None);
  st ← for_each (match_step g index lookUpControl threshold replacement distance)
         (range size) init_state;
  _ ← print (PrintUnmatched (countUnmatched st));
  mret st.

(** [distance_matching]: [distance = None] is Python's [None]. *)
Definition distance_matching (docs : list vec) (docToPost : gmap nat string)
    (upvotes : gmap string Q) (threshold : Q) (replacement : bool)
    (distance : option string) : M (list string * list string) :=
  g ← split_groups docs docToPost upvotes;
  match distance with
  | None => mret (treatmentToPost g, controlToPost g)
  | Some _ =>
      st ← matching g threshold replacement distance;
      mret (matchedTreament st, matchedControl st)
  end.

(** The groups and the final state of the matching loop of a run in
    matching mode: what [distance_matching] holds in its local
    variables when it returns. *)
Definition distance_matching_locals (docs : list vec) (docToPost : gmap nat string)
    (upvotes : gmap string Q) (threshold : Q) (replacement : bool)
    (distance : option string) : M (groups * match_state) :=
  g ← split_groups docs docToPost upvotes;
  st ← matching g threshold replacement distance;
  mret (g, st).

End Engine.

(** ** The outcome aggregator *)

(** [for user in group: if returns[user] == "true": count += 1] *)
Definition count_step (returns : gmap string string) (n : nat) (user : string) : M
    nat :=
  r ← get KeyError (returns !! user);
  if decide (r = "true") then mret (S n) else mret n.

(** Float division: a zero divisor raises. *)
Definition fdiv (a b : Q) : M Q :=
  if Qeq_bool b 0 then raise ZeroDivisionError else mret (a / b)%Q.

Definition Qnat (n : nat) : Q := inject_Z (Z.of_nat n).

Definition return_rate (treatment control : list string)
    (returns : gmap string string) : M unit :=
  controlReturn ← for_each (count_step returns) control 0%nat;
  treatmentReturn ← for_each (count_step returns) treatment 0%nat;
  probTreatmentReturn ← fdiv (Qnat treatmentReturn) (Qnat (length treatment));
  probControlReturn ← fdiv (Qnat controlReturn) (Qnat (length control));
  bothReturn ← fdiv (Qnat (treatmentReturn + controlReturn))
                  (Qnat (length treatment + length control));
  let neitherReturn := (1 - bothReturn)%Q in
  _ ← print (PrintProbTreatment probTreatmentReturn);
  _ ← print (PrintProbControl probControlReturn);
  rel ← fdiv (probTreatmentReturn - probControlReturn) probControlReturn;
  print (PrintRelativeIncrease rel).

(** ** A concrete population: two control and two treatment units *)

Module Scenario.

Definition vC1 : vec := [(0%nat, 1%Q)].
Definition vC2 : vec := [(0%nat, 2%Q)].
Definition vT1 : vec := [(0%nat, 3%Q)].
Definition vT2 : vec := [(0%nat, 4%Q)].

Definition docs : list vec := [vC1; vC2; vT1; vT2].
Definition docToPost : gmap nat string :=
  <[0%nat := "C1"]> (<[1%nat := "C2"]> (<[2%nat := "T1"]> (<[3%nat := "T2"]> ∅))).
Definition upvotes : gmap string Q :=
  <["C1" := 0%Q]> (<["C2" := 0%Q]> (<["T1" := 1%Q]> (<["T2" := 1%Q]> ∅))).

(** An index that answers with the scores of the scenario. *)
Definition index (corpus : list vec) (num_features : nat) (q : vec) : list Q :=
  match q with
  | (_, v) :: _ => if Qeq_bool v 1 then [95 # 100; 10 # 100]%Q
                   else [90 # 100; 5 # 100]%Q
  | [] => []
  end.

(** The processing order that takes the control units as they come. *)
Definition in_order (population : list nat) (k : nat) : list nat := population.

End Scenario.

(** ** Specification vocabulary and concrete data *)

(** The two ways an iteration can return: it emits one record whose
    score reaches [bound], the threshold as the comparison takes it, or
    it counts the control unit as unmatched and emits nothing. *)
Inductive step_result (g : groups) (lookUpControl : list nat) (bound : Q)
    (x : nat) (closer : list (nat * Q)) (y : nat) (st st' : match_state) : Prop :=
  | step_match j s i cid tid :
      closer !! y = Some (j, s) →
      Qle_bool bound s = true →
      lookUpControl !! x = Some i →
      controlToPost g !! i = Some cid →
      treatmentToPost g !! j = Some tid →
      st' = mkState (<[cid := s]> (ranking st))
              (<[cid := (tid, s)]> (similarity st))
              (<[tid := 1%nat]> (matched st))
              (similarity_return st ++ [(cid, tid)])
              (matchedControl st ++ [cid])
              (matchedTreament st ++ [tid])
              (S (count_pairs st))
              (countUnmatched st) →
      step_result g lookUpControl bound x closer y st st'
  | step_unmatched j s :
      closer !! y = Some (j, s) →
      Qle_bool bound s = false →
      st' = mkState (ranking st) (similarity st) (matched st)
              (similarity_return st) (matchedControl st) (matchedTreament st)
              (count_pairs st) (S (countUnmatched st)) →
      step_result g lookUpControl bound x closer y st st'.

(** The invariant of the loop without replacement: the treatment ids
    matched so far are pairwise distinct and all claimed. *)
Record claimed_once (st : match_state) : Prop := {
  once_nodup : NoDup (matchedTreament st);
  once_claimed : ∀ t, t ∈ matchedTreament st → is_Some (matched st !! t);
  once_pairs : (similarity_return st).*2 = matchedTreament st;
  once_similarity : ∀ c t s,
    similarity st !! c = Some (t, s) → is_Some (matched st !! t);
  once_inj : ∀ c1 c2 t s1 s2,
    similarity st !! c1 = Some (t, s1) → similarity st !! c2 = Some (t, s2) →
    c1 = c2
}.

(** The unit at position [x] of the population: its vector, its post id
    and its feedback, when the three lookups of the split succeed. *)
Definition unit_at (docs : list vec) (docToPost : gmap nat string)
    (upvotes : gmap string Q) (x : nat) : option (vec * string * Q) :=
  post ← docToPost !! x;
  f ← upvotes !! post;
  d ← docs !! x;
  Some (d, post, f).

Definition unit_vec (u : vec * string * Q) : vec := fst (fst u).
Definition unit_id (u : vec * string * Q) : string := snd (fst u).
Definition feedback (u : vec * string * Q) : Q := snd u.

(** The test of the split: [upvotes[docToPost[x]] == 0]. *)
Definition is_control (u : vec * string * Q) : Prop := Qeq_bool (feedback u) 0 = true.

#[global] Instance is_control_dec u : Decision (is_control u).
Proof. unfold is_control. apply _. Defined.

(** The groups the split builds from a population given in order. *)
Definition groups_of (units : list (vec * string * Q)) : groups :=
  mkGroups
    (unit_vec <$> filter (λ u, ¬ is_control u) units)
    (unit_id <$> filter (λ u, ¬ is_control u) units)
    (unit_vec <$> filter is_control units)
    (unit_id <$> filter is_control units)
    (length (filter (λ u, ¬ is_control u) units))
    (length (filter is_control units)).

(** Every score recorded so far reaches [bound]. *)
Definition above_threshold (bound : Q) (st : match_state) : Prop :=
  (∀ c t s, similarity st !! c = Some (t, s) → (bound <= s)%Q) ∧
  (∀ c s, ranking st !! c = Some s → (bound <= s)%Q).

(** The post ids of the control units in the order the loop takes them. *)
Definition processed (g : groups) (lookUpControl : list nat) (xs : list nat)
    : list string :=
  omap (λ x, lookUpControl !! x ≫= λ i, controlToPost g !! i) xs.

(** After the iterations [pre]: every one of them either appended a match
    or added one to the unmatched counter. *)
Record accounted (g : groups) (lookUpControl : list nat) (pre : list nat)
    (st : match_state) : Prop := {
  acc_total : (length (matchedControl st) + countUnmatched st = length pre)%nat;
  acc_pairs : count_pairs st = length (matchedControl st);
  acc_treatment : length (matchedTreament st) = length (matchedControl st);
  acc_return : length (similarity_return st) = length (matchedControl st);
  acc_sublist : matchedControl st `sublist_of` processed g lookUpControl pre
}.

(** [a] is ranked before [b]: its score is higher, or the scores are
    equal and its original index is lower. *)
Definition ranks_before (a b : nat * Q) : Prop :=
  (snd b < snd a)%Q ∨ ((snd a == snd b)%Q ∧ (fst a < fst b)%nat).

Module ScenarioRun.
Import Scenario.

(** The split of the scenario's population. *)
Definition the_groups : groups :=
  mkGroups [vT1; vT2] ["T1"; "T2"] [vC1; vC2] ["C1"; "C2"] 2 2.

(** The state after the iteration of C1, and at the end of the loop. *)
Definition after_C1 : match_state :=
  mkState (<["C1" := (95 # 100)%Q]> ∅) (<["C1" := ("T1", (95 # 100)%Q)]> ∅)
    (<["T1" := 1%nat]> ∅) [("C1", "T1")] ["C1"] ["T1"] 1 0.

Definition final : match_state :=
  mkState (<["C1" := (95 # 100)%Q]> ∅) (<["C1" := ("T1", (95 # 100)%Q)]> ∅)
    (<["T1" := 1%nat]> ∅) [("C1", "T1")] ["C1"] ["T1"] 1 1.

End ScenarioRun.

Module Exhausted.

(** Two control units and a single treatment unit. *)
Definition docs : list vec :=
  [[(0%nat, 1%Q)]; [(0%nat, 2%Q)]; [(0%nat, 3%Q)]].
Definition docToPost : gmap nat string :=
  <[0%nat := "C1"]> (<[1%nat := "C2"]> (<[2%nat := "T1"]> ∅)).
Definition upvotes : gmap string Q :=
  <["C1" := 0%Q]> (<["C2" := 0%Q]> (<["T1" := 1%Q]> ∅)).

(** The vectors all point the same way: every cosine is 1. *)
Definition index (corpus : list vec) (num_features : nat) (q : vec) : list Q :=
  (λ _, 1%Q) <$> corpus.

End Exhausted.

Module Rounded.

(** One control unit and one treatment unit whose cosine is 9/10: the
    control vector is (1, 0, 0, 0), the treatment vector (9, 3, 3, 1), of
    length 10. *)
Definition vC1 : vec := [(0%nat, 1%Q); (1%nat, 0%Q); (2%nat, 0%Q); (3%nat, 0%Q)].
Definition vT1 : vec := [(0%nat, 9%Q); (1%nat, 3%Q); (2%nat, 3%Q); (3%nat, 1%Q)].

Definition docs : list vec := [vC1; vT1].
Definition docToPost : gmap nat string := <[0%nat := "C1"]> (<[1%nat := "T1"]> ∅).
Definition upvotes : gmap string Q := <["C1" := 0%Q]> (<["T1" := 1%Q]> ∅).

(** The index holds its scores as [float32]: it answers with the
    [float32] nearest to 9/10, which is 7549747 / 8388608. *)
Definition index (corpus : list vec) (num_features : nat) (q : vec) : list Q :=
  (λ _, (7549747 # 8388608)%Q) <$> corpus.

Definition the_groups : groups := mkGroups [vT1] ["T1"] [vC1] ["C1"] 1 1.

(** The state at the end of the loop when the unit is matched. *)
Definition final : match_state :=
  mkState (<["C1" := (7549747 # 8388608)%Q]> ∅)
    (<["C1" := ("T1", (7549747 # 8388608)%Q)]> ∅)
    (<["T1" := 1%nat]> ∅) [("C1", "T1")] ["C1"] ["T1"] 1 0.

End Rounded.

(** The number of users of a group recorded as having returned. *)
Definition count_true (returns : gmap string string) (group : list string) : nat :=
  length (filter (λ u, returns !! u = Some "true") group).

Definition scenario_units : list (vec * string * Q) :=
  [(Scenario.vC1, "C1", 0%Q); (Scenario.vC2, "C2", 0%Q);
   (Scenario.vT1, "T1", 1%Q); (Scenario.vT2, "T2", 1%Q)].

(** The aggregator on Treatment = {A, B}, Control = {C, D}, of whom only
    A returned: P_t = 1/2 and P_c = 0 are printed, then the division by
    P_c raises. *)
Definition example_returns : gmap string string :=
  <["A" := "true"]> (<["B" := "false"]> (<["C" := "false"]> (<["D" := "false"]> ∅))).

(** ** Vocabulary for the further properties of the engine *)

(** The best candidate of a list of scores: the head of the ranked
    list. *)
Definition top_candidate (sims : list Q) : option (nat * Q) :=
  head (sorted_desc (enumerate sims)).

(** The pair the loop emits for the control unit at position [i] of the
    Control group when matching with replacement, if it emits one: it
    depends on that unit alone. *)
Definition pair_with_replacement (promote : Q → Q) (g : groups)
    (idx : vec → list Q) (threshold : Q) (i : nat) : option (string * string) :=
  c ← control g !! i;
  top ← top_candidate (idx c);
  if Qle_bool (promote threshold) (snd top) then
    cid ← controlToPost g !! i;
    tid ← treatmentToPost g !! fst top;
    Some (cid, tid)
  else None.

(** After the iterations [pre] of a loop with replacement. *)
Record replaced (promote : Q → Q) (g : groups) (idx : vec → list Q)
    (lookUpControl : list nat) (threshold : Q) (pre : list nat)
    (st : match_state) : Prop := {
  rep_pairs : similarity_return st =
    omap (λ x, lookUpControl !! x ≫= pair_with_replacement promote g idx threshold)
      pre;
  rep_control : matchedControl st = (similarity_return st).*1;
  rep_treatment : matchedTreament st = (similarity_return st).*2;
  rep_count : (countUnmatched st + length (similarity_return st) = length pre)%nat
}.

(** After the iterations [pre] of any matching loop: every claimed
    treatment id is among the matched ones, and there is at most one match
    per iteration. *)
Record claims_bounded (pre : list nat) (st : match_state) : Prop := {
  cb_claimed : ∀ t, is_Some (matched st !! t) → t ∈ matchedTreament st;
  cb_length : (length (matchedTreament st) ≤ length pre)%nat
}.

(** What the engine needs of its data to run: as many post ids as
    vectors in each group, an order that is a permutation of the control
    indices, and an index that answers the query of every control vector
    with one score per treatment vector. *)
Record engine_ready (g : groups) (idx : vec → list Q) (lookUpControl : list nat)
    : Prop := {
  ready_control : length (controlToPost g) = length (control g);
  ready_treatment : length (treatmentToPost g) = length (treatment g);
  ready_order : lookUpControl ≡ₚ range (length (control g));
  ready_index : ∀ c, c ∈ control g → length (idx c) = length (treatment g)
}.

(** The matched ids recorded so far are ids of the two groups. *)
Definition within_groups (g : groups) (st : match_state) : Prop :=
  matchedControl st ⊆ controlToPost g ∧ matchedTreament st ⊆ treatmentToPost g.

(** After the iterations [pre] of a loop without replacement: the
    control ids matched so far are among those a loop with replacement
    matches over the same iterations. *)
Definition dominated (promote : Q → Q) (g : groups) (idx : vec → list Q)
    (lookUpControl : list nat) (threshold : Q) (pre : list nat)
    (st : match_state) : Prop :=
  matchedControl st `sublist_of`
    (omap (λ x, lookUpControl !! x ≫= pair_with_replacement promote g idx threshold)
       pre).*1.

(** ** Reading the two input files *)

(** [get_covariates] and [get_posts_information].  The text of the file
    is an argument: [None] stands for a file that cannot be opened or
    read, in which case the reader prints "Wrong similarity file" and
    calls [sys.exit(0)].  The builtin [float] is a parameter; it answers
    [None] where Python raises [ValueError]. *)
Module Reader.

Inductive error : Type :=
  | SystemExit
  | IndexError
  | ValueError.

Inductive result (A : Type) : Type :=
  | Loaded (a : A)
  | Raised (e : error).
Arguments Loaded {A} a.
Arguments Raised {A} e.

#[global] Instance result_ret : MRet result := fun A a => Loaded a.
#[global] Instance result_bind : MBind result := fun A B f m =>
  match m with
  | Loaded a => f a
  | Raised e => Raised e
  end.

Definition get {A} (e : error) (o : option A) : result A :=
  match o with
  | Some a => Loaded a
  | None => Raised e
  end.

Fixpoint for_each {S X} (body : S → X → result S) (xs : list X) (st : S)
    : result S :=
  match xs with
  | [] => Loaded st
  | x :: xs' => st' ← body st x; for_each body xs' st'
  end.

(** [s.split(sep)] for a separator of one character: the pieces between
    the occurrences of [sep], empty pieces included; never an empty
    list. *)
Fixpoint split (sep : Ascii.ascii) (s : string) : list string :=
  match s with
  | EmptyString => [EmptyString]
  | String c s' =>
      if Ascii.eqb c sep then EmptyString :: split sep s'
      else match split sep s' with
           | w :: ws => String c w :: ws
           | [] => [String c EmptyString]
           end
  end.

Definition newline : Ascii.ascii := Ascii.ascii_of_nat 10.
Definition comma : Ascii.ascii := Ascii.ascii_of_nat 44.

(** [data.pop(0)] and [data.pop(len(data)-1)], keeping the list that is
    left: both raise [IndexError] on an empty list. *)
Definition pop_first {A} (data : list A) : result (list A) :=
  match data with
  | [] => Raised IndexError
  | _ :: rest => Loaded rest
  end.

Definition pop_last {A} (data : list A) : result (list A) :=
  match data with
  | [] => Raised IndexError
  | _ :: _ => Loaded (removelast data)
  end.

(** A cell of a row of [docs]: a float as parsed, or the pair
    [(i, old value)] the last loop of [get_covariates] puts in its
    place. *)
Inductive cell : Type :=
  | Raw (v : Q)
  | Tagged (i : nat) (c : cell).

(** [docs[j][i] = i, docs[j][i]] *)
Definition tag_step (row : list cell) (i : nat) : result (list cell) :=
  c ← get IndexError (row !! i);
  mret (<[i := Tagged i c]> row).

(** [for i in range(0, num_features): docs[j][i] = i, docs[j][i]] *)
Definition tag_row (num_features : nat) (row : list cell) : result (list cell) :=
  for_each tag_step (range num_features) row.

(** The row as a covariate vector, when every cell is a pair of an index
    and a float. *)
Definition cell_pair (c : cell) : option (nat * Q) :=
  match c with
  | Tagged i (Raw v) => Some (i, v)
  | _ => None
  end.

Definition row_vec (row : list cell) : option vec := mapM cell_pair row.

Section Readers.

Variable float : string → option Q.

(** The state of the loop of [get_covariates]: [docs], [docToPost],
    [postToDoc] and [count]. *)
Record covariates : Type := mkCovariates {
  cov_docs : list (list cell);
  cov_docToPost : gmap nat string;
  cov_postToDoc : gmap string nat;
  cov_count : nat
}.

Definition covariates_step (st : covariates) (line : string) : result covariates :=
  let x := split comma line in
  post ← get IndexError (last x);
  let x := removelast x in
  row ← get ValueError (mapM float x);
  mret (mkCovariates (cov_docs st ++ [Raw <$> row])
          (<[cov_count st := post]> (cov_docToPost st))
          (<[post := cov_count st]> (cov_postToDoc st))
          (S (cov_count st))).

(** [get_covariates]: returns [docs, docToPost, num_features,
    postToDoc]. *)
Definition get_covariates (featuresFile : option string)
    : result (list (list cell) * gmap nat string * nat * gmap string nat) :=
  data ← get SystemExit featuresFile;
  data ← pop_last (split newline data);
  st ← for_each covariates_step data (mkCovariates [] ∅ ∅ 0);
  first ← get IndexError (cov_docs st !! 0%nat);
  let num_features := length first in
  docs ← for_each (λ docs j,
            row ← get IndexError (docs !! j);
            row' ← tag_row num_features row;
            mret (<[j := row']> docs))
          (range (length (cov_docs st))) (cov_docs st);
  mret (docs, cov_docToPost st, num_features, cov_postToDoc st).

Definition posts_step (st : gmap string Q * gmap string string) (line : string)
    : result (gmap string Q * gmap string string) :=
  let x := split comma line in
  field1 ← get IndexError (x !! 1%nat);
  votes ← get ValueError (float field1);
  post ← get IndexError (x !! 0%nat);
  field2 ← get IndexError (x !! 2%nat);
  mret (<[post := votes]> (fst st), <[post := field2]> (snd st)).

(** [get_posts_information]: returns [upvotes, postsReturn]. *)
Definition get_posts_information (postsFile : option string)
    : result (gmap string Q * gmap string string) :=
  data ← get SystemExit postsFile;
  data ← pop_first (split newline data);
  data ← pop_last data;
  for_each posts_step data (∅, ∅).

End Readers.

End Reader.

(** A stand-in for [float] on the strings of decimal digits, for
    concrete runs of the readers. *)
Fixpoint digits_value (acc : nat) (s : string) : option nat :=
  match s with
  | EmptyString => Some acc
  | String c s' =>
      let n := Ascii.nat_of_ascii c in
      if (48 <=? n)%nat && (n <=? 57)%nat
      then digits_value (10 * acc + (n - 48)) s'
      else None
  end.

Definition digits_float (s : string) : option Q :=
  match s with
  | EmptyString => None
  | _ => Qnat <$> digits_value 0 s
  end.

(** ** The text of a posts file *)

(** The character [c] does not occur in [s]. *)
Fixpoint free_of (c : Ascii.ascii) (s : string) : Prop :=
  match s with
  | EmptyString => True
  | String a s' => a ≠ c ∧ free_of c s'
  end.

(** A record of the posts file: post id, feedback, outcome flag, with
    commas between them. *)
Definition record_line (r : string * string * string) : string :=
  fst (fst r) +:+ String Reader.comma (snd (fst r) +:+ String Reader.comma (snd r)).

(** A header line, the records each ended by a newline, and whatever
    follows the last newline. *)
Definition posts_text (header : string) (rows : list (string * string * string))
    (rest : string) : string :=
  header +:+ String Reader.newline
    (foldr (λ r text, record_line r +:+ String Reader.newline text) rest rows).

(** The dictionaries the records stand for: a later record of a post id
    replaces an earlier one. *)
Definition posts_of (float : string → option Q) (rows : list (string * string * string))
    : gmap string Q * gmap string string :=
  foldl (λ st r,
           (match float (snd (fst r)) with
            | Some votes => <[fst (fst r) := votes]> (fst st)
            | None => fst st
            end,
            <[fst (fst r) := snd r]> (snd st)))
        (∅, ∅) rows.

(** The fields of a record hold neither a comma nor a newline, and the
    feedback field is a float. *)
Definition well_formed_record (float : string → option Q)
    (r : string * string * string) : Prop :=
  free_of Reader.comma (fst (fst r)) ∧ free_of Reader.newline (fst (fst r)) ∧
  free_of Reader.comma (snd (fst r)) ∧ free_of Reader.newline (snd (fst r)) ∧
  free_of Reader.comma (snd r) ∧ free_of Reader.newline (snd r) ∧
  is_Some (float (snd (fst r))).

(** ** What [get_covariates] builds *)

(** The post id of a line of the covariates file: its last field. *)
Definition line_post (line : string) : option string :=
  last (Reader.split Reader.comma line).

(** The values of a line: the floats of all its fields but the last. *)
Definition line_values (float : string → option Q) (line : string)
    : option (list Q) :=
  mapM float (removelast (Reader.split Reader.comma line)).

(** After the lines [read] of the reading loop. *)
Record covariates_read (float : string → option Q) (read : list string)
    (st : Reader.covariates) : Prop := {
  cr_count : Reader.cov_count st = length read;
  cr_docs : ∃ raws : list (list Q),
    Reader.cov_docs st = (fmap (M := list) Reader.Raw <$> raws) ∧
    Forall2 (λ line vals, line_values float line = Some vals) read raws;
  cr_docToPost : ∀ i : nat,
    Reader.cov_docToPost st !! i = (read !! i) ≫= line_post;
  cr_postToDoc : ∀ p i,
    Reader.cov_postToDoc st !! p = Some i → Reader.cov_docToPost st !! i = Some p;
  cr_latest : ∀ i p,
    Reader.cov_docToPost st !! i = Some p →
    ∃ i', Reader.cov_postToDoc st !! p = Some i' ∧ (i ≤ i')%nat
}.

(** The row [row] is the row of floats [vals] with its first
    [num_features] cells paired with their index. *)
Record tagged_row (num_features : nat) (vals : list Q) (row : list Reader.cell)
    : Prop := {
  tr_length : length row = length vals;
  tr_enough : (num_features ≤ length vals)%nat;
  tr_cells : ∀ i v, vals !! i = Some v →
    row !! i = Some (if decide (i < num_features)%nat
                     then Reader.Tagged i (Reader.Raw v) else Reader.Raw v)
}.

(** The dictionaries the report at the end of [distance_matching] reads
    agree: [ranking] and [similarity] have the matched control ids as
    keys, with the same scores. *)
Record report_ready (st : match_state) : Prop := {
  rr_scores : ∀ c s,
    ranking st !! c = Some s ↔ ∃ t, similarity st !! c = Some (t, s);
  rr_keys : ∀ c, is_Some (ranking st !! c) ↔ c ∈ matchedControl st;
  rr_treatment : ∀ c t s,
    similarity st !! c = Some (t, s) → t ∈ matchedTreament st
}.

(** Every iteration so far emitted a match. *)
Definition all_matched (st : match_state) : Prop := countUnmatched st = 0%nat.

(** ** Concrete data for the further properties *)

(** The processing order that takes the control units last to first. *)
Definition in_reverse (population : list nat) (k : nat) : list nat :=
  reverse population.

(** The groups and the final state of a run that returned. *)
Definition run_groups (m : M (groups * match_state)) : groups :=
  match outcome m with
  | Ok (g, _) => g
  | Err _ => no_groups
  end.

Definition run_state (m : M (groups * match_state)) : match_state :=
  match outcome m with
  | Ok (_, st) => st
  | Err _ => init_state
  end.

(** The scenario as the text of its two files. *)
Definition scenario_rows : list (string * string * string) :=
  [("C1", "0", "false"); ("C2", "0", "true"); ("T1", "1", "true"); ("T2", "1",
      "false")].

Definition scenario_posts_text : string :=
  posts_text "post,upvotes,returned" scenario_rows "".

Definition scenario_returns : gmap string string :=
  <["C1" := "false"]> (<["C2" := "true"]> (<["T1" := "true"]> (<["T2" := "false"]> ∅))).

Definition scenario_covariates_text : string :=
  "1,2,C1" +:+ String Reader.newline
  ("3,4,C2" +:+ String Reader.newline
  ("5,6,T1" +:+ String Reader.newline
  ("7,8,T2" +:+ String Reader.newline ""))).

Definition scenario_cells : list (list Reader.cell) :=
  [[Reader.Tagged 0 (Reader.Raw 1); Reader.Tagged 1 (Reader.Raw 2)];
   [Reader.Tagged 0 (Reader.Raw 3); Reader.Tagged 1 (Reader.Raw 4)];
   [Reader.Tagged 0 (Reader.Raw 5); Reader.Tagged 1 (Reader.Raw 6)];
   [Reader.Tagged 0 (Reader.Raw 7); Reader.Tagged 1 (Reader.Raw 8)]].

Definition scenario_postToDoc : gmap string nat :=
  <["C1" := 0%nat]> (<["C2" := 1%nat]> (<["T1" := 2%nat]> (<["T2" := 3%nat]> ∅))).

Definition scenario_vectors : list vec :=
  [[(0%nat, 1%Q); (1%nat, 2%Q)]; [(0%nat, 3%Q); (1%nat, 4%Q)];
   [(0%nat, 5%Q); (1%nat, 6%Q)]; [(0%nat, 7%Q); (1%nat, 8%Q)]].

Definition exhausted_units : list (vec * string * Q) :=
  [([(0%nat, 1%Q)], "C1", 0%Q); ([(0%nat, 2%Q)], "C2", 0%Q);
   ([(0%nat, 3%Q)], "T1", 1%Q)].

(** ** The text of a covariates file *)

(** A record of the covariates file: the values, then the post id, with
    commas between them. *)
Definition covariates_line (r : list string * string) : string :=
  foldr (λ v line, v +:+ String Reader.comma line) (snd r) (fst r).

(** The records each ended by a newline, and whatever follows the last
    newline. *)
Definition covariates_text (rows : list (list string * string)) (rest : string)
    : string :=
  foldr (λ r text, covariates_line r +:+ String Reader.newline text) rest rows.

(** A record with [num_features] values, each a float, whose fields hold
    neither a comma nor a newline. *)
Definition well_formed_row (float : string → option Q) (num_features : nat)
    (r : list string * string) : Prop :=
  length (fst r) = num_features ∧
  Forall (λ v, free_of Reader.comma v ∧ free_of Reader.newline v ∧
               is_Some (float v)) (fst r) ∧
  free_of Reader.comma (snd r) ∧ free_of Reader.newline (snd r).

(** The covariate vector a record stands for. *)
Definition row_vector (float : string → option Q) (r : list string * string) : vec :=
  enumerate (omap float (fst r)).

Definition scenario_covariate_rows : list (list string * string) :=
  [(["1"; "2"], "C1"); (["3"; "4"], "C2"); (["5"; "6"], "T1"); (["7"; "8"], "T2")].

(** ** Reasoning about computations *)

Lemma outcome_bind_Ok {A B} (m : M A) (f : A → M B) (b : B) :
  outcome (m ≫= f) = Ok b → ∃ a, outcome m = Ok a ∧ outcome (f a) = Ok b.
Proof.
  destruct m as [l [a|e]]; unfold outcome; simpl.
  - destruct (f a) as [l' r] eqn:Hf. simpl. intros ->. exists a. by rewrite Hf.
  - discriminate.
Qed.

Lemma bind_Ok {A B} (m : M A) (f : A → M B) l a :
  m = (l, Ok a) → m ≫= f = (l ++ printed (f a), outcome (f a)).
Proof. intros ->. unfold mbind, M_bind. by destruct (f a). Qed.

Lemma bind_Err {A B} (m : M A) (f : A → M B) l e :
  m = (l, Err e) → m ≫= f = (l, Err e).
Proof. by intros ->. Qed.

Lemma outcome_bind {A B} (m : M A) (f : A → M B) :
  outcome (m ≫= f) =
  match outcome m with Ok a => outcome (f a) | Err e => Err e end.
Proof.
  destruct m as [l [a|e]]; unfold outcome; simpl; [|done].
  by destruct (f a).
Qed.

Lemma outcome_get_Ok {A} e (o : option A) a :
  outcome (get e o) = Ok a → o = Some a.
Proof. destruct o; unfold outcome; simpl; congruence. Qed.

(** A loop invariant: what holds at entry and is kept by every iteration
    that returns holds of the state a returning loop ends in. *)
Lemma for_each_invariant {S X} (P : S → Prop) (body : S → X → M S) xs :
  (∀ st x st', x ∈ xs → P st → outcome (body st x) = Ok st' → P st') →
  ∀ st st', P st → outcome (for_each body xs st) = Ok st' → P st'.
Proof.
  induction xs as [|x xs IH]; intros Hstep st st' HP H; simpl in H.
  - unfold outcome in H. simpl in H. congruence.
  - apply outcome_bind_Ok in H as (st1 & H1 & H).
    eapply IH; [| |exact H].
    + intros ? ? ? ? ?. eapply Hstep; [by right|done].
    + eapply Hstep; [by left| |]; done.
Qed.

(** The same with the iterations already done in view: the invariant may
    speak of the prefix of the range processed so far. *)
Lemma for_each_prefix_invariant {S X} (P : list X → S → Prop) (body : S → X → M S) :
  (∀ pre st x st', P pre st → outcome (body st x) = Ok st' → P (pre ++ [x]) st') →
  ∀ xs pre st st',
    P pre st → outcome (for_each body xs st) = Ok st' → P (pre ++ xs) st'.
Proof.
  intros Hstep. induction xs as [|x xs IH]; intros pre st st' HP H; simpl in H.
  - injection H as <-. by rewrite app_nil_r.
  - apply outcome_bind_Ok in H as (st1 & H1 & H).
    rewrite cons_middle, app_assoc. eapply IH; [|exact H]. by eapply Hstep.
Qed.

(** ** The conversion to [float32] *)

Lemma round_half_even_bounds x :
  (inject_Z (Qfloor x) <= inject_Z (round_half_even x))%Q ∧
  (inject_Z (round_half_even x) <= inject_Z (Qfloor x) + 1)%Q.
Proof.
  unfold round_half_even.
  destruct (x - inject_Z (Qfloor x) ?= 1 # 2)%Q; [destruct (Z.even (Qfloor x))|..];
    rewrite ?inject_Z_plus; change (inject_Z 1) with 1%Q; split; lra.
Qed.

Lemma round_half_even_Z (n : Z) : round_half_even (inject_Z n) = n.
Proof.
  unfold round_half_even. rewrite Qfloor_Z.
  destruct (inject_Z n - inject_Z n ?= 1 # 2)%Q eqn:E; [| done |].
  - apply Qeq_alt in E. lra.
  - apply Qgt_alt in E. lra.
Qed.

Lemma round_half_even_mono a b :
  (a <= b)%Q → (round_half_even a <= round_half_even b)%Z.
Proof.
  intros Hle. pose proof (Qfloor_resp_le _ _ Hle) as Hfl.
  destruct (round_half_even_bounds a) as [_ Ha].
  destruct (round_half_even_bounds b) as [Hb _].
  destruct (decide (Qfloor a = Qfloor b)) as [Heq|Hne].
  - unfold round_half_even. rewrite Heq.
    destruct (a - inject_Z (Qfloor b) ?= 1 # 2)%Q eqn:Ea;
      destruct (b - inject_Z (Qfloor b) ?= 1 # 2)%Q eqn:Eb;
      try (destruct (Z.even (Qfloor b))); try lia; exfalso;
      first [apply Qeq_alt in Ea|apply Qlt_alt in Ea|apply Qgt_alt in Ea];
      first [apply Qeq_alt in Eb|apply Qlt_alt in Eb|apply Qgt_alt in Eb]; lra.
  - assert (Qfloor a + 1 <= Qfloor b)%Z as Hstep by lia.
    rewrite Zle_Qle in Hstep. rewrite inject_Z_plus in Hstep.
    change (inject_Z 1) with 1%Q in *.
    rewrite Zle_Qle. lra.
Qed.

(** Powers of two. *)
Lemma pow2_pos (e : Z) : (0 < 2 ^ e)%Q.
Proof. by apply Qpower_0_lt. Qed.

Lemma pow2_le (n m : Z) : (n <= m)%Z → (2 ^ n <= 2 ^ m)%Q.
Proof. intros. apply Qpower_le_compat_l; [done|]. unfold Qle. simpl. lia. Qed.

Lemma pow2_lt_inv (n m : Z) : (2 ^ n < 2 ^ m)%Q → (n < m)%Z.
Proof. intros. eapply Qpower_lt_compat_l_inv; [done|reflexivity]. Qed.

Lemma pow2_split (n m : Z) : (2 ^ (n + m) == 2 ^ n * 2 ^ m)%Q.
Proof. apply Qpower_plus. discriminate. Qed.

Lemma pow2_Z (n : Z) : (0 <= n)%Z → (inject_Z (2 ^ n) == 2 ^ n)%Q.
Proof. intros. by apply (Zpower_Qpower 2 n). Qed.

Lemma binade_spec x :
  (0 < x)%Q → (2 ^ binade x <= x)%Q ∧ (x < 2 ^ (binade x + 1))%Q.
Proof.
  intros Hx. destruct x as [n d]. unfold binade. cbn [Qnum Qden].
  assert (0 < n)%Z as Hn by (unfold Qlt in Hx; simpl in Hx; lia).
  set (ln := Z.log2 n). set (ld := Z.log2 (Z.pos d)).
  destruct (Z.log2_spec n Hn) as [Hn1 Hn2]. fold ln in Hn1, Hn2.
  destruct (Z.log2_spec (Z.pos d) ltac:(lia)) as [Hd1 Hd2]. fold ld in Hd1, Hd2.
  assert (0 <= ln)%Z as Hln by apply Z.log2_nonneg.
  assert (0 <= ld)%Z as Hld by apply Z.log2_nonneg.
  assert (n # d == inject_Z n / inject_Z (Z.pos d))%Q as Hnd by apply Qmake_Qdiv.
  assert (0 < inject_Z (Z.pos d))%Q as Hdpos by (unfold Qlt; simpl; lia).
  rewrite Zle_Qle in Hn1, Hd1. rewrite Zlt_Qlt in Hn2, Hd2.
  rewrite pow2_Z in Hn1, Hd1, Hn2, Hd2 by lia.
  set (N := inject_Z n) in *. set (D := inject_Z (Z.pos d)) in *.
  assert (2 ^ (ln - ld - 1) <= n # d)%Q as Hlow.
  { rewrite Hnd. apply Qle_shift_div_l; [done|].
    pose proof (pow2_pos (ln - ld - 1)) as Hp.
    pose proof (pow2_split (ln - ld - 1) (ld + 1)) as Hs.
    replace (ln - ld - 1 + (ld + 1))%Z with ln in Hs by lia.
    set (P1 := (2 ^ ln)%Q) in *. set (P2 := (2 ^ (ld + 1))%Q) in *.
    set (P3 := (2 ^ (ln - ld - 1))%Q) in *.
    apply Qle_trans with (P3 * P2)%Q.
    - apply Qmult_le_l; [done|]. by apply Qlt_le_weak.
    - by rewrite <- Hs. }
  assert (n # d < 2 ^ (ln - ld + 1))%Q as Hhigh.
  { rewrite Hnd. apply Qlt_shift_div_r; [done|].
    pose proof (pow2_pos (ln - ld + 1)) as Hp.
    pose proof (pow2_split (ln - ld + 1) ld) as Hs.
    replace (ln - ld + 1 + ld)%Z with (ln + 1)%Z in Hs by lia.
    set (P1 := (2 ^ (ln + 1))%Q) in *. set (P2 := (2 ^ ld)%Q) in *.
    set (P3 := (2 ^ (ln - ld + 1))%Q) in *.
    apply Qlt_le_trans with (P3 * P2)%Q.
    - by rewrite <- Hs.
    - by apply Qmult_le_l. }
  destruct (Qle_bool (2 ^ (ln - ld)) (n # d)) eqn:E.
  - apply Qle_bool_iff in E. done.
  - split; [done|].
    replace (ln - ld - 1 + 1)%Z with (ln - ld)%Z by lia.
    apply Qnot_le_lt. intros Hle%Qle_bool_iff. congruence.
Qed.

Lemma binade_mono x y : (0 < x)%Q → (x <= y)%Q → (binade x <= binade y)%Z.
Proof.
  intros Hx Hle.
  destruct (binade_spec x Hx) as [Hx1 _].
  destruct (binade_spec y ltac:(lra)) as [_ Hy2].
  assert (2 ^ binade x < 2 ^ (binade y + 1))%Q as Hlt by lra.
  apply pow2_lt_inv in Hlt. lia.
Qed.

Lemma nearest_nonneg a : (0 <= a)%Q → (0 <= nearest a)%Q.
Proof.
  intros Ha. unfold nearest. pose proof (pow2_pos (spacing a)) as Hp.
  apply Qmult_le_0_compat; [|lra].
  assert (0 <= a / 2 ^ spacing a)%Q as Hq by (by apply Qle_shift_div_l; [|lra]).
  apply round_half_even_mono in Hq.
  change 0%Q with (inject_Z 0) in Hq |- *. rewrite round_half_even_Z in Hq.
  by rewrite <- Zle_Qle.
Qed.

Lemma nearest_upper a :
  (0 < a)%Q → (nearest a <= 2 ^ (Z.max (binade a) (-126) + 1))%Q.
Proof.
  intros Ha. unfold nearest, spacing. set (k := Z.max (binade a) (-126)).
  pose proof (pow2_pos (k - 23)) as Hp.
  destruct (binade_spec a Ha) as [_ Hup].
  assert (2 ^ (binade a + 1) <= 2 ^ (k + 1))%Q as Hk by (apply pow2_le; lia).
  pose proof (pow2_split 24 (k - 23)) as Hs.
  replace (24 + (k - 23))%Z with (k + 1)%Z in Hs by lia.
  assert (a / 2 ^ (k - 23) <= inject_Z (2 ^ 24))%Q as Hq.
  { apply Qle_shift_div_r; [done|]. rewrite pow2_Z by lia. rewrite <- Hs. lra. }
  apply round_half_even_mono in Hq. rewrite round_half_even_Z in Hq.
  rewrite Zle_Qle, pow2_Z in Hq by lia.
  rewrite Hs. apply Qmult_le_r; done.
Qed.

Lemma nearest_lower a :
  (0 < a)%Q → (-126 <= binade a)%Z → (2 ^ binade a <= nearest a)%Q.
Proof.
  intros Ha Hk. unfold nearest, spacing.
  rewrite Z.max_l by lia. set (k := binade a).
  pose proof (pow2_pos (k - 23)) as Hp.
  destruct (binade_spec a Ha) as [Hlow _]. fold k in Hlow.
  pose proof (pow2_split 23 (k - 23)) as Hs.
  replace (23 + (k - 23))%Z with k in Hs by lia.
  assert (inject_Z (2 ^ 23) <= a / 2 ^ (k - 23))%Q as Hq.
  { apply Qle_shift_div_l; [done|]. rewrite pow2_Z by lia. by rewrite <- Hs. }
  apply round_half_even_mono in Hq. rewrite round_half_even_Z in Hq.
  rewrite Zle_Qle, pow2_Z in Hq by lia.
  rewrite Hs. apply Qmult_le_r; done.
Qed.

Lemma nearest_mono a b : (0 <= a)%Q → (a <= b)%Q → (nearest a <= nearest b)%Q.
Proof.
  intros Ha Hle.
  destruct (Qle_lt_or_eq _ _ Ha) as [Hpos|Hzero].
  2:{ apply Qle_trans with 0%Q; [|apply nearest_nonneg; lra].
      unfold nearest. pose proof (pow2_pos (spacing a)) as Hp.
      assert (a / 2 ^ spacing a <= inject_Z 0)%Q as Hq.
      { apply Qle_shift_div_r; [done|]. change (inject_Z 0) with 0%Q. lra. }
      apply round_half_even_mono in Hq. rewrite round_half_even_Z in Hq.
      rewrite Zle_Qle in Hq. change (inject_Z 0) with 0%Q in Hq.
      rewrite <- (Qmult_0_l (2 ^ spacing a)). apply Qmult_le_r; done. }
  pose proof (binade_mono a b Hpos Hle) as Hb.
  destruct (decide (Z.max (binade a) (-126) = Z.max (binade b) (-126))) as [Heq|Hne].
  - unfold nearest, spacing. rewrite Heq.
    set (e := (Z.max (binade b) (-126) - 23)%Z).
    pose proof (pow2_pos e) as Hp.
    apply Qmult_le_r; [done|]. rewrite <- Zle_Qle.
    apply round_half_even_mono. apply Qmult_le_r; [by apply Qinv_lt_0_compat|done].
  - apply Qle_trans with (2 ^ (Z.max (binade a) (-126) + 1))%Q; [by apply
      nearest_upper|].
    apply Qle_trans with (2 ^ binade b)%Q; [apply pow2_le; lia|].
    apply nearest_lower; [lra|lia].
Qed.

Lemma overflow_mono r r' : (r <= r')%Q → (overflow r <= overflow r')%Q.
Proof.
  intros Hle. unfold overflow.
  destruct (Qle_bool (2 ^ 128) r) eqn:E, (Qle_bool (2 ^ 128) r') eqn:E'.
  - lra.
  - apply Qle_bool_iff in E.
    assert (¬ (2 ^ 128 <= r')%Q) as Hn by (intros H%Qle_bool_iff; congruence). lra.
  - assert (¬ (2 ^ 128 <= r)%Q) as Hn by (intros H%Qle_bool_iff; congruence). lra.
  - done.
Qed.

Lemma overflow_nonneg r : (0 <= r)%Q → (0 <= overflow r)%Q.
Proof.
  intros Hr. unfold overflow. destruct (Qle_bool (2 ^ 128) r); [|done].
  apply Qlt_le_weak, pow2_pos.
Qed.

(** The conversion is monotone. *)
Lemma float32_monotone a b : (a <= b)%Q → (float32 a <= float32 b)%Q.
Proof.
  intros Hle. unfold float32. rewrite !Qred_correct.
  destruct (Qle_bool 0 a) eqn:Ea, (Qle_bool 0 b) eqn:Eb.
  - apply Qle_bool_iff in Ea, Eb.
    apply overflow_mono, nearest_mono; [apply Qabs_nonneg|].
    rewrite !Qabs_pos by done. done.
  - apply Qle_bool_iff in Ea.
    assert (¬ (0 <= b)%Q) as Hn by (intros H%Qle_bool_iff; congruence). lra.
  - pose proof (overflow_nonneg _ (nearest_nonneg _ (Qabs_nonneg a))).
    pose proof (overflow_nonneg _ (nearest_nonneg _ (Qabs_nonneg b))). lra.
  - assert (¬ (0 <= a)%Q) as Hna by (intros H%Qle_bool_iff; congruence).
    assert (¬ (0 <= b)%Q) as Hnb by (intros H%Qle_bool_iff; congruence).
    apply Qopp_le_compat, overflow_mono, nearest_mono; [apply Qabs_nonneg|].
    rewrite !Qabs_neg by lra. lra.
Qed.

Lemma round_half_even_error x :
  (x - (1 # 2) <= inject_Z (round_half_even x))%Q ∧
  (inject_Z (round_half_even x) <= x + (1 # 2))%Q.
Proof.
  unfold round_half_even.
  pose proof (Qfloor_le x) as Hlo. pose proof (Qlt_floor x) as Hhi.
  rewrite inject_Z_plus in Hhi. change (inject_Z 1) with 1%Q in Hhi.
  destruct (x - inject_Z (Qfloor x) ?= 1 # 2)%Q eqn:E;
    [destruct (Z.even (Qfloor x))|..];
    rewrite ?inject_Z_plus; change (inject_Z 1) with 1%Q;
    first [apply Qeq_alt in E|apply Qlt_alt in E|apply Qgt_alt in E];
    split; lra.
Qed.

(** The nearest multiple is within half a spacing. *)
Lemma nearest_error a :
  (a - 2 ^ spacing a * (1 # 2) <= nearest a)%Q ∧
  (nearest a <= a + 2 ^ spacing a * (1 # 2))%Q.
Proof.
  unfold nearest. set (q := (2 ^ spacing a)%Q).
  assert (0 < q)%Q as Hq by apply pow2_pos.
  destruct (round_half_even_error (a / q)) as [Hlo Hhi].
  set (m := inject_Z (round_half_even (a / q))) in *.
  assert (a == a / q * q)%Q as Ha by (field; lra).
  apply (Qmult_le_r _ _ q) in Hlo, Hhi; [|done..].
  split; lra.
Qed.

(** A threshold that does not overflow is converted to a value within
    half a spacing of it. *)
Lemma float32_error x :
  (nearest (Qabs x) < 2 ^ 128)%Q →
  (x - 2 ^ spacing (Qabs x) * (1 # 2) <= float32 x)%Q ∧
  (float32 x <= x + 2 ^ spacing (Qabs x) * (1 # 2))%Q.
Proof.
  intros Hfin. unfold float32, overflow. rewrite !Qred_correct.
  destruct (nearest_error (Qabs x)) as [Hlo Hhi].
  destruct (Qle_bool (2 ^ 128) (nearest (Qabs x))) eqn:E.
  { apply Qle_bool_iff in E. lra. }
  set (q := (2 ^ spacing (Qabs x))%Q) in *. set (r := nearest (Qabs x)) in *.
  destruct (Qle_bool 0 x) eqn:Ex.
  - apply Qle_bool_iff in Ex. pose proof (Qabs_pos x Ex) as Hax. split; lra.
  - assert (¬ (0 <= x)%Q) as Hn by (intros H%Qle_bool_iff; congruence).
    pose proof (Qabs_neg x ltac:(lra)) as Hax. split; lra.
Qed.

(** ** The candidate scan *)

(** A returning scan stops at the first candidate whose treatment id is
    unclaimed; every candidate before it is claimed. *)
Lemma skip_matched_Ok tToPost claimed cands y0 y :
  outcome (skip_matched tToPost claimed cands y0) = Ok y →
  ∃ k j s t, y = (y0 + k)%nat ∧ cands !! k = Some (j, s) ∧
    tToPost !! j = Some t ∧ claimed !! t = None ∧
    ∀ k', (k' < k)%nat → ∃ j' s' t', cands !! k' = Some (j', s') ∧
      tToPost !! j' = Some t' ∧ is_Some (claimed !! t').
Proof.
  revert y0. induction cands as [|[j s] rest IH]; intros y0 H; simpl in H.
  - discriminate.
  - apply outcome_bind_Ok in H as (t & Ht & H). apply outcome_get_Ok in Ht.
    destruct (decide (is_Some (claimed !! t))) as [Hc|Hc].
    + destruct (IH _ H) as (k & j' & s' & t' & -> & Hk & Hj & Hn & Hbefore).
      exists (S k), j', s', t'. repeat split; [lia|done..|].
      intros [|k'] Hlt; [by exists j, s, t|]. apply Hbefore. lia.
    + exists 0%nat, j, s, t. injection H as <-.
      repeat split; [lia|done..| |lia].
      by apply eq_None_not_Some.
Qed.

(** A scan over candidates that are all claimed runs off the end of the
    list. *)
Lemma skip_matched_exhausted tToPost claimed cands y0 :
  (∀ j s, (j, s) ∈ cands → ∃ t, tToPost !! j = Some t ∧ is_Some (claimed !! t)) →
  skip_matched tToPost claimed cands y0 = ([], Err IndexError).
Proof.
  revert y0. induction cands as [|[j s] rest IH]; intros y0 Hall; simpl; [done|].
  destruct (Hall j s) as (t & -> & Hc); [by left|]. simpl.
  rewrite decide_True by done.
  rewrite IH; [done|]. intros j' s' Hin. apply (Hall j' s'). by right.
Qed.

(** ** One iteration of the matching loop *)

Lemma match_step_Ok promote g index lookUpControl threshold replacement distance st
    x st' :
  outcome (match_step promote g index lookUpControl threshold replacement distance st x)
    = Ok st' →
  ∃ closer y,
    outcome (candidates g index lookUpControl distance x) = Ok closer ∧
    outcome (select g replacement st closer) = Ok y ∧
    step_result g lookUpControl (promote threshold) x closer y st st'.
Proof.
  unfold match_step. intros H.
  apply outcome_bind_Ok in H as (closer & Hc & H).
  apply outcome_bind_Ok in H as (y & Hy & H).
  apply outcome_bind_Ok in H as ([j s] & Hcy & H).
  apply outcome_get_Ok in Hcy. simpl in H.
  exists closer, y. split; [done|]. split; [done|].
  destruct (Qle_bool (promote threshold) s) eqn:Hthr.
  - apply outcome_bind_Ok in H as (i & Hi & H).
    apply outcome_bind_Ok in H as (cid & Hcid & H).
    apply outcome_bind_Ok in H as (tid & Htid & H).
    apply outcome_get_Ok in Hi, Hcid, Htid.
    injection H as <-. eapply step_match; eauto.
  - injection H as <-. eapply step_unmatched; eauto.
Qed.

(** ** Runs that return *)

Lemma matching_Ok promote SparseMatrixSimilarity sample g threshold replacement
    distance st :
  outcome (matching promote SparseMatrixSimilarity sample g threshold replacement
      distance)
    = Ok st →
  ∃ index,
    outcome (for_each
      (match_step promote g index (sample (range (length (control g))) (length
          (control g)))
         threshold replacement distance)
      (range (length (control g))) init_state) = Ok st.
Proof.
  unfold matching. intros H.
  apply outcome_bind_Ok in H as (index & _ & H).
  apply outcome_bind_Ok in H as (st1 & Hloop & H).
  apply outcome_bind_Ok in H as ([] & _ & H).
  injection H as <-. by exists index.
Qed.

Lemma locals_Ok promote SparseMatrixSimilarity sample docs docToPost upvotes threshold
    replacement distance g st :
  outcome (distance_matching_locals promote SparseMatrixSimilarity sample docs docToPost
             upvotes threshold replacement distance) = Ok (g, st) →
  outcome (split_groups docs docToPost upvotes) = Ok g ∧
  outcome (matching promote SparseMatrixSimilarity sample g threshold replacement
      distance)
    = Ok st.
Proof.
  unfold distance_matching_locals. intros H.
  apply outcome_bind_Ok in H as (g1 & Hg & H).
  apply outcome_bind_Ok in H as (st1 & Hst & H).
  injection H as <- <-. done.
Qed.

(** What [distance_matching] returns in matching mode is read off the
    final state of the loop. *)
Lemma distance_matching_locals_result promote SparseMatrixSimilarity sample docs
    docToPost
    upvotes threshold replacement d :
  outcome (distance_matching promote SparseMatrixSimilarity sample docs docToPost
      upvotes
             threshold replacement (Some d)) =
  match outcome (distance_matching_locals promote SparseMatrixSimilarity sample docs
                   docToPost upvotes threshold replacement (Some d)) with
  | Ok (g, st) => Ok (matchedTreament st, matchedControl st)
  | Err e => Err e
  end.
Proof.
  unfold distance_matching, distance_matching_locals.
  rewrite !outcome_bind.
  destruct (outcome (split_groups docs docToPost upvotes)) as [g|e]; [|done].
  rewrite !outcome_bind.
  by destruct (outcome (matching promote _ _ g threshold replacement (Some d))).
Qed.

(** ** The claimed set *)

Lemma claimed_once_init : claimed_once init_state.
Proof.
  split; simpl; try done.
  - constructor.
  - intros t Ht. by apply elem_of_nil in Ht.
Qed.

Lemma claimed_once_step promote g index lookUpControl threshold distance st x st' :
  claimed_once st →
  outcome (match_step promote g index lookUpControl threshold false distance st x)
      = Ok st' →
  claimed_once st'.
Proof.
  intros Hinv H.
  apply match_step_Ok in H as (closer & y & _ & Hsel & Hres).
  simpl in Hsel. apply skip_matched_Ok in Hsel
    as (k & j0 & s0 & t0 & -> & Hk & Ht0 & Hfree & _).
  simpl in *.
  destruct Hres as [j s i cid tid Hy Hthr Hi Hcid Htid ->|j s Hy Hthr ->];
    [|by destruct Hinv].
  assert (tid = t0) as -> by congruence.
  destruct Hinv as [Hnd Hcl Hpairs Hsim Hinj].
  split; simpl.
  - apply NoDup_app. split; [done|]. split; [|apply NoDup_singleton].
    intros t Ht ->%list_elem_of_singleton.
    apply Hcl in Ht. rewrite Hfree in Ht. by destruct Ht.
  - intros t [Ht| ->%list_elem_of_singleton]%elem_of_app.
    + destruct (decide (t0 = t)) as [->|Hne].
      * by rewrite lookup_insert_eq.
      * rewrite lookup_insert_ne by done. by apply Hcl.
    + by rewrite lookup_insert_eq.
  - by rewrite fmap_app, Hpairs.
  - intros c t s'. destruct (decide (cid = c)) as [->|Hne].
    + rewrite lookup_insert_eq. intros [= <- <-]. by rewrite lookup_insert_eq.
    + rewrite lookup_insert_ne by done. intros Hc%Hsim.
      destruct (decide (t0 = t)) as [->|Hne'].
      * by rewrite lookup_insert_eq.
      * by rewrite lookup_insert_ne.
  - intros c1 c2 t s1 s2.
    destruct (decide (cid = c1)) as [E1|Hne1], (decide (cid = c2)) as [E2|Hne2];
      [congruence|subst c1|subst c2|].
    + rewrite lookup_insert_eq, lookup_insert_ne by done.
      intros [= <- <-] Hc%Hsim. rewrite Hfree in Hc. by destruct Hc.
    + rewrite lookup_insert_eq, lookup_insert_ne by done.
      intros Hc%Hsim [= <- <-]. rewrite Hfree in Hc. by destruct Hc.
    + rewrite !lookup_insert_ne by done. apply Hinj.
Qed.

(** C1.  Without-replacement invariant.  In every run of the engine in
    matching mode with [replacement = False] that returns, a treatment id
    is matched at most once: the list of matched treatment ids the run
    returns has no duplicate, neither have the treatment components of
    the emitted pairs, and two control ids recorded with the same
    treatment id are the same.  This comes from the candidate scan: the
    candidate it stops at is never a claimed one, and every treatment id
    matched so far is claimed. *)
Theorem without_replacement_claims_once promote SparseMatrixSimilarity sample docs
    docToPost
    upvotes threshold distance g st :
  outcome (distance_matching_locals promote SparseMatrixSimilarity sample docs docToPost
             upvotes threshold false distance) = Ok (g, st) →
  NoDup (matchedTreament st) ∧
  NoDup (similarity_return st).*2 ∧
  (∀ c1 c2 t s1 s2,
     similarity st !! c1 = Some (t, s1) → similarity st !! c2 = Some (t, s2) →
     c1 = c2) ∧
  (∀ t, t ∈ matchedTreament st → is_Some (matched st !! t)) ∧
  (∀ st0 closer y,
     outcome (select g false st0 closer) = Ok y →
     ∃ j s t, closer !! y = Some (j, s) ∧ treatmentToPost g !! j = Some t ∧
              matched st0 !! t = None).
Proof.
  intros H. apply locals_Ok in H as [_ H].
  apply matching_Ok in H as (index & H).
  assert (claimed_once st) as [Hnd Hcl Hpairs _ Hinj].
  { eapply for_each_invariant; [|apply claimed_once_init|exact H].
    intros st1 x st2 _. apply claimed_once_step. }
  repeat split; try done.
  - by rewrite Hpairs.
  - intros st0 closer y Hy. simpl in Hy.
    apply skip_matched_Ok in Hy as (k & j & s & t & -> & Hk & Ht & Hfree & _).
    by exists j, s, t.
Qed.

(** ** The group split *)

Lemma groups_of_snoc units u :
  groups_of (units ++ [u]) =
  let g := groups_of units in
  if Qeq_bool (feedback u) 0 then
    mkGroups (treatment g) (treatmentToPost g)
      (control g ++ [unit_vec u]) (controlToPost g ++ [unit_id u])
      (countTreatment g) (S (countControl g))
  else
    mkGroups (treatment g ++ [unit_vec u]) (treatmentToPost g ++ [unit_id u])
      (control g) (controlToPost g)
      (S (countTreatment g)) (countControl g).
Proof.
  unfold groups_of. rewrite !filter_app, !fmap_app, !length_app. simpl.
  destruct (Qeq_bool (feedback u) 0) eqn:E.
  - rewrite (filter_cons_True is_control) by done.
    rewrite (filter_cons_False (λ u, ¬ is_control u)) by (unfold is_control;
        naive_solver).
    rewrite !filter_nil. simpl. rewrite !app_nil_r. f_equal; lia.
  - rewrite (filter_cons_False is_control) by (unfold is_control; congruence).
    rewrite (filter_cons_True (λ u, ¬ is_control u)) by (unfold is_control; congruence).
    rewrite !filter_nil. simpl. rewrite !app_nil_r. f_equal; lia.
Qed.

Lemma split_step_Ok docs docToPost upvotes g x g' :
  outcome (split_step docs docToPost upvotes g x) = Ok g' →
  ∃ u, unit_at docs docToPost upvotes x = Some u ∧
    g' = if Qeq_bool (feedback u) 0 then
           mkGroups (treatment g) (treatmentToPost g)
             (control g ++ [unit_vec u]) (controlToPost g ++ [unit_id u])
             (countTreatment g) (S (countControl g))
         else
           mkGroups (treatment g ++ [unit_vec u]) (treatmentToPost g ++ [unit_id u])
             (control g) (controlToPost g)
             (S (countTreatment g)) (countControl g).
Proof.
  unfold split_step, unit_at. intros H.
  apply outcome_bind_Ok in H as (post & Hp & H).
  apply outcome_bind_Ok in H as (f & Hf & H).
  apply outcome_bind_Ok in H as (d & Hd & H).
  apply outcome_get_Ok in Hp, Hf, Hd. rewrite Hp. simpl. rewrite Hf. simpl.
  rewrite Hd. simpl. exists (d, post, f). split; [done|].
  unfold feedback, unit_vec, unit_id. simpl.
  destruct (Qeq_bool f 0); by injection H as <-.
Qed.

Lemma split_step_run docs docToPost upvotes units x u :
  unit_at docs docToPost upvotes x = Some u →
  split_step docs docToPost upvotes (groups_of units) x
  = ([], Ok (groups_of (units ++ [u]))).
Proof.
  unfold split_step, unit_at. intros H.
  destruct (docToPost !! x) as [post|]; [|done]. simpl in *.
  destruct (upvotes !! post) as [f|]; [|done]. simpl in *.
  destruct (docs !! x) as [d|]; [|done]. simpl in *.
  injection H as <-. rewrite groups_of_snoc.
  unfold feedback, unit_vec, unit_id. simpl.
  by destruct (Qeq_bool f 0).
Qed.

Lemma split_loop_run docs docToPost upvotes xs units pre :
  Forall2 (λ x u, unit_at docs docToPost upvotes x = Some u) xs units →
  for_each (split_step docs docToPost upvotes) xs (groups_of pre)
  = ([], Ok (groups_of (pre ++ units))).
Proof.
  intros H. revert pre. induction H as [|x u xs units Hu _ IH]; intros pre; simpl.
  - by rewrite app_nil_r.
  - rewrite (split_step_run _ _ _ _ _ _ Hu). simpl.
    rewrite IH, <- app_assoc. done.
Qed.

(** A population all of whose units have a post id and a feedback is
    split without an exception, and the run prints the two group sizes. *)
Lemma split_groups_run docs docToPost upvotes units :
  mapM (unit_at docs docToPost upvotes) (range (length docs)) = Some units →
  split_groups docs docToPost upvotes
  = ([PrintTreatmentGroup (countTreatment (groups_of units));
      PrintControlGroup (countControl (groups_of units))],
     Ok (groups_of units)).
Proof.
  intros H%mapM_Some. unfold split_groups.
  change no_groups with (groups_of []).
  by rewrite (split_loop_run _ _ _ _ _ [] H).
Qed.

(** Conversely a split that returns has found every unit. *)
Lemma split_groups_Ok docs docToPost upvotes g :
  outcome (split_groups docs docToPost upvotes) = Ok g →
  ∃ units,
    mapM (unit_at docs docToPost upvotes) (range (length docs)) = Some units ∧
    g = groups_of units.
Proof.
  unfold split_groups. intros H.
  apply outcome_bind_Ok in H as (g1 & Hloop & H).
  apply outcome_bind_Ok in H as ([] & _ & H).
  apply outcome_bind_Ok in H as ([] & _ & H).
  injection H as <-.
  apply (for_each_prefix_invariant
           (λ pre g, ∃ units,
              Forall2 (λ x u, unit_at docs docToPost upvotes x = Some u) pre units ∧
              g = groups_of units)) with (pre := []) in Hloop.
  - destruct Hloop as (units & HF & ->). exists units. by rewrite mapM_Some.
  - intros pre g0 x g' (units & HF & ->) Hstep.
    apply split_step_Ok in Hstep as (u & Hu & ->).
    exists (units ++ [u]). split.
    + apply Forall2_app; [done|]. by constructor.
    + by rewrite groups_of_snoc.
  - by exists [].
Qed.

Lemma groups_of_lengths units :
  length (controlToPost (groups_of units)) = length (control (groups_of units)) ∧
  length (treatmentToPost (groups_of units)) = length (treatment (groups_of units)) ∧
  countControl (groups_of units) = length (control (groups_of units)) ∧
  countTreatment (groups_of units) = length (treatment (groups_of units)).
Proof. unfold groups_of. simpl. by rewrite !length_fmap. Qed.

(** The two groups together are the population. *)
Lemma groups_of_cover units :
  controlToPost (groups_of units) ++ treatmentToPost (groups_of units)
    ≡ₚ unit_id <$> units ∧
  control (groups_of units) ++ treatment (groups_of units) ≡ₚ unit_vec <$> units ∧
  (length (control (groups_of units)) + length (treatment (groups_of units))
   = length units)%nat.
Proof.
  simpl. split; [|split].
  - by rewrite <- fmap_app, filter_app_complement.
  - by rewrite <- fmap_app, filter_app_complement.
  - by rewrite !length_fmap, <- length_app, filter_app_complement.
Qed.

(** Every unit of a population that was split carries the feedback the
    store has for its post id. *)
Lemma units_feedback docs docToPost upvotes xs units u :
  mapM (unit_at docs docToPost upvotes) xs = Some units →
  u ∈ units → upvotes !! unit_id u = Some (feedback u).
Proof.
  intros HF%mapM_Some [i Hi]%list_elem_of_lookup.
  destruct (Forall2_lookup_r _ _ _ _ _ HF Hi) as (x & _ & Hx).
  unfold unit_at in Hx.
  destruct (docToPost !! x) as [post|]; [|done]. simpl in Hx.
  destruct (upvotes !! post) as [f|] eqn:Hf; [|done]. simpl in Hx.
  destruct (docs !! x) as [d|]; [|done]. simpl in Hx.
  by injection Hx as <-.
Qed.



(** The precondition matters: the [else] branch takes every feedback
    other than 0, so a unit with a negative feedback, which is not a
    feedback as the comment above the split describes it, would be
    placed in Treatment. *)
Example split_groups_negative_feedback :
  outcome (split_groups [[(0%nat, 1%Q)]] (<[0%nat := "a"]> ∅) (<["a" := (-1)%Q]> ∅))
  = Ok (mkGroups [[(0%nat, 1%Q)]] ["a"] [] [] 1 0).
Proof. vm_compute. reflexivity. Qed.

(** ** Baseline mode *)

(** C5.  Baseline pass-through.  With [distance = None] the engine
    returns the post ids of the Treatment and Control groups exactly as
    the split built them, whatever the similarity index and the sampler
    are (neither is consulted: the log holds the two lines of the split
    and nothing else).  No unit is dropped: the two returned lists
    together are the post ids of the whole population. *)
Theorem baseline_pass_through promote SparseMatrixSimilarity sample docs docToPost
    upvotes
    threshold replacement units :
  mapM (unit_at docs docToPost upvotes) (range (length docs)) = Some units →
  ∃ g log,
    split_groups docs docToPost upvotes = (log, Ok g) ∧
    log = [PrintTreatmentGroup (length (treatment g));
           PrintControlGroup (length (control g))] ∧
    distance_matching promote SparseMatrixSimilarity sample docs docToPost upvotes
      threshold replacement None
    = (log, Ok (treatmentToPost g, controlToPost g)) ∧
    treatmentToPost g ++ controlToPost g ≡ₚ unit_id <$> units ∧
    (length (treatmentToPost g) + length (controlToPost g) = length docs)%nat.
Proof.
  intros Hunits. pose proof (split_groups_run _ _ _ _ Hunits) as Hrun.
  destruct (groups_of_lengths units) as (Hlc & Hlt & Hcc & Hct).
  exists (groups_of units), [PrintTreatmentGroup (countTreatment (groups_of units));
                             PrintControlGroup (countControl (groups_of units))].
  split; [done|]. split; [by rewrite Hcc, Hct|]. split.
  - unfold distance_matching. by rewrite Hrun.
  - destruct (groups_of_cover units) as (Hperm & _ & Hlen). split.
    + by rewrite <- Hperm, (comm (++)).
    + rewrite Hlc, Hlt. apply length_mapM in Hunits.
      unfold range in Hunits. rewrite length_seq in Hunits. lia.
Qed.

(** ** A distance that is neither [None] nor ["cosine"] *)

(** C4 (as amended).  The distance mode is not validated.  With a
    distance other than [None] and ["cosine"] the split runs first, and
    its two lines are printed; the similarity index is never built or
    queried.  If the Control group is empty the run returns two empty
    lists; otherwise it aborts at the first control unit, on the first
    use of the unassigned variable [closer]. *)
Theorem unsupported_distance_not_validated promote SparseMatrixSimilarity sample docs
    docToPost upvotes threshold replacement d :
  d ≠ "cosine" →
  distance_matching promote SparseMatrixSimilarity sample docs docToPost upvotes
    threshold replacement (Some d) =
  match split_groups docs docToPost upvotes with
  | (log, Err e) => (log, Err e)
  | (log, Ok g) =>
      match control g with
      | [] => (log ++ [PrintUnmatched 0], Ok ([], []))
      | _ :: _ => (log, Err UnboundLocalError)
      end
  end.
Proof.
  intros Hd. unfold distance_matching.
  destruct (split_groups docs docToPost upvotes) as [log [g|e]]; [|done].
  unfold matching, mbind at 1, M_bind.
  rewrite (decide_False (P := Some d = Some "cosine")) by congruence.
  destruct (control g) as [|c cs]; simpl; [done|].
  unfold match_step, candidates.
  rewrite (decide_False (P := Some d = Some "cosine")) by congruence.
  simpl. by rewrite app_nil_r.
Qed.

(** C4 (as stated) fails: a run with an unsupported distance on a
    population without control units performs the split, prints its
    lines, and returns normally, under either conversion of the
    threshold. *)
Lemma unsupported_distance_returns :
  distance_matching as_float64 Scenario.index Scenario.in_order
    [[(0%nat, 1%Q)]] (<[0%nat := "a"]> ∅) (<["a" := 1%Q]> ∅)
    (9 # 10) false (Some "mahalanobis")
  = ([PrintTreatmentGroup 1; PrintControlGroup 0; PrintUnmatched 0], Ok ([], [])) ∧
  distance_matching float32 Scenario.index Scenario.in_order
    [[(0%nat, 1%Q)]] (<[0%nat := "a"]> ∅) (<["a" := 1%Q]> ∅)
    (9 # 10) false (Some "mahalanobis")
  = ([PrintTreatmentGroup 1; PrintControlGroup 0; PrintUnmatched 0], Ok ([], [])).
Proof. split; vm_compute; reflexivity. Qed.

(** ** The threshold *)

Lemma above_threshold_step promote g index lookUpControl threshold replacement distance
    st x st' :
  above_threshold (promote threshold) st →
  outcome (match_step promote g index lookUpControl threshold replacement distance st x)
    = Ok st' →
  above_threshold (promote threshold) st'.
Proof.
  intros [Hsim Hrank] H.
  apply match_step_Ok in H as (closer & y & _ & _ & Hres).
  destruct Hres as [j s i cid tid Hy Hthr%Qle_bool_iff Hi Hcid Htid ->|j s Hy Hthr ->];
    [|done].
  split; simpl.
  - intros c t s'. destruct (decide (cid = c)) as [->|Hne].
    + rewrite lookup_insert_eq. by intros [= <- <-].
    + rewrite lookup_insert_ne by done. apply Hsim.
  - intros c s'. destruct (decide (cid = c)) as [->|Hne].
    + rewrite lookup_insert_eq. by intros [= <-].
    + rewrite lookup_insert_ne by done. apply Hrank.
Qed.

(** X24.  The threshold test as the code makes it.  In every run of the
    engine in matching mode that returns, every recorded match (an entry
    of [similarity], and of [ranking]) has a score greater than or equal
    to the threshold as the comparison takes it, [promote threshold]: the
    threshold itself when NumPy compares in double precision, the
    [float32] nearest to it when NumPy converts it first.  An iteration
    whose selected candidate reaches that value emits one record and
    leaves the unmatched counter alone; an iteration whose selected
    candidate scores below it emits no record and adds one to the
    unmatched counter.  A recorded score therefore reaches every value
    the converted threshold reaches: the threshold itself where the
    conversion does not lower it, and under [float32] the threshold less
    half the spacing of [float32] around it (lemma [float32_error]). *)
Theorem threshold_invariant promote SparseMatrixSimilarity sample docs docToPost upvotes
    threshold replacement distance g st :
  outcome (distance_matching_locals promote SparseMatrixSimilarity sample docs docToPost
             upvotes threshold replacement distance) = Ok (g, st) →
  (∀ c t s, similarity st !! c = Some (t, s) → (promote threshold <= s)%Q) ∧
  (∀ c s, ranking st !! c = Some s → (promote threshold <= s)%Q) ∧
  (∀ index lookUpControl st0 x st1,
     outcome (match_step promote g index lookUpControl threshold replacement distance
                st0 x) = Ok st1 →
     ∃ closer y j s,
       outcome (candidates g index lookUpControl distance x) = Ok closer ∧
       outcome (select g replacement st0 closer) = Ok y ∧
       closer !! y = Some (j, s) ∧
       (((promote threshold <= s)%Q ∧
         countUnmatched st1 = countUnmatched st0 ∧
         ∃ cid tid,
           similarity st1 = <[cid := (tid, s)]> (similarity st0) ∧
           similarity_return st1 = similarity_return st0 ++ [(cid, tid)] ∧
           matchedControl st1 = matchedControl st0 ++ [cid] ∧
           matchedTreament st1 = matchedTreament st0 ++ [tid]) ∨
        ((s < promote threshold)%Q ∧
         countUnmatched st1 = S (countUnmatched st0) ∧
         similarity st1 = similarity st0 ∧
         ranking st1 = ranking st0 ∧
         similarity_return st1 = similarity_return st0 ∧
         matchedControl st1 = matchedControl st0 ∧
         matchedTreament st1 = matchedTreament st0))) ∧
  (∀ bound, (bound <= promote threshold)%Q →
     (∀ c t s, similarity st !! c = Some (t, s) → (bound <= s)%Q) ∧
     (∀ c s, ranking st !! c = Some s → (bound <= s)%Q)).
Proof.
  intros H. apply locals_Ok in H as [_ H].
  apply matching_Ok in H as (index & H).
  assert (above_threshold (promote threshold) st) as [Hsim Hrank].
  { eapply for_each_invariant; [| |exact H].
    - intros st1 x st2 _. apply above_threshold_step.
    - split; simpl; intros *; by rewrite lookup_empty. }
  split; [done|]. split; [done|]. split.
  - intros index' luc st0 x st1 Hstep.
    apply match_step_Ok in Hstep as (closer & y & Hc & Hy & Hres).
    destruct Hres as [j s i cid tid Hcy Hthr Hi Hcid Htid ->|j s Hcy Hthr ->];
      exists closer, y, j, s; (split; [done|]); (split; [done|]); (split; [done|]).
    + left. split; [by apply Qle_bool_iff|]. split; [done|]. by exists cid, tid.
    + right. split; [|done]. apply Qnot_le_lt. intros Hle%Qle_bool_iff. congruence.
  - intros bound Hbound. split.
    + intros c t s Hc. eapply Qle_trans; [exact Hbound|]. by eapply Hsim.
    + intros c s Hc. eapply Qle_trans; [exact Hbound|]. by eapply Hrank.
Qed.


(** ** Counting the control units *)

Lemma accounted_step promote g index lookUpControl threshold replacement distance
    pre st x st' :
  accounted g lookUpControl pre st →
  outcome (match_step promote g index lookUpControl threshold replacement distance st x)
    = Ok st' →
  accounted g lookUpControl (pre ++ [x]) st'.
Proof.
  intros [Htot Hpairs Htr Hret Hsub] H.
  apply match_step_Ok in H as (closer & y & _ & _ & Hres).
  destruct Hres as [j s i cid tid Hy Hthr Hi Hcid Htid ->|j s Hy Hthr ->];
    split; simpl; rewrite ?length_app; simpl; try lia.
  - unfold processed. rewrite omap_app. simpl. rewrite Hi. simpl. rewrite Hcid.
    by apply sublist_app.
  - unfold processed. rewrite omap_app. by apply sublist_inserts_r.
Qed.

Lemma omap_lookup_seq {A} (pre l : list A) :
  omap (λ x, (pre ++ l) !! x) (seq (length pre) (length l)) = l.
Proof.
  revert pre. induction l as [|a l IH]; intros pre; simpl; [done|].
  rewrite list_lookup_middle by done. f_equal.
  specialize (IH (pre ++ [a])).
  rewrite length_app, <- app_assoc in IH. simpl in IH.
  by rewrite Nat.add_1_r in IH.
Qed.

Lemma omap_lookup_range {A} (l : list A) :
  omap (λ x, l !! x) (range (length l)) = l.
Proof. apply (omap_lookup_seq [] l). Qed.

Lemma omap_bind_lookup {A B} (l : list A) (f : A → option B) (xs : list nat) :
  omap (λ x, l !! x ≫= f) xs = omap f (omap (λ x, l !! x) xs).
Proof.
  induction xs as [|x xs IH]; simpl; [done|].
  fold (omap (λ x, l !! x ≫= f) xs). fold (omap (λ x, l !! x) xs).
  rewrite IH. destruct (l !! x) as [a|]; simpl; [|done].
  by fold (omap f (omap (λ x, l !! x) xs)).
Qed.

(** C10.  In matching mode, when [sample] returns a permutation of the
    control indices (which is what [random.sample(range(0, size), size)]
    does), the post ids taken by the loop are a permutation of the Control
    group: every control unit is processed exactly once.  In a run that
    returns, each iteration either appended one match or added one to
    the unmatched counter, so the matched control ids are a sublist of the
    processed ones, and the number of matches plus the unmatched count is
    the size of the Control group. *)
Theorem every_control_accounted promote SparseMatrixSimilarity sample docs
    docToPost upvotes
    threshold replacement distance g st :
  (∀ n, sample (range n) n ≡ₚ range n) →
  outcome (distance_matching_locals promote SparseMatrixSimilarity sample docs docToPost
             upvotes threshold replacement distance) = Ok (g, st) →
  let size := length (control g) in
  let lookUpControl := sample (range size) size in
  omap (λ x, lookUpControl !! x) (range size) ≡ₚ range size ∧
  processed g lookUpControl (range size) ≡ₚ controlToPost g ∧
  matchedControl st `sublist_of` processed g lookUpControl (range size) ∧
  (length (matchedControl st) + countUnmatched st = size)%nat ∧
  length (similarity_return st) = length (matchedControl st) ∧
  length (matchedTreament st) = length (matchedControl st) ∧
  count_pairs st = length (matchedControl st).
Proof.
  intros Hsample H size luc. apply locals_Ok in H as [Hg H].
  apply matching_Ok in H as (index & H). fold size luc in H.
  apply split_groups_Ok in Hg as (units & _ & Hg).
  assert (length (controlToPost g) = size) as Hlen.
  { subst g size. apply groups_of_lengths. }
  assert (length luc = size) as Hluc.
  { unfold luc. rewrite (Hsample size). apply length_seq. }
  assert (omap (λ x, luc !! x) (range size) = luc) as Horder.
  { rewrite <- Hluc. apply omap_lookup_range. }
  apply (for_each_prefix_invariant (accounted g luc)) with (pre := []) in H.
  - destruct H as [Htot Hpairs Htr Hret Hsub]. simpl in *.
    unfold range in Htot. rewrite length_seq in Htot.
    repeat split; try done.
    + rewrite Horder. apply Hsample.
    + unfold processed. rewrite omap_bind_lookup, Horder.
      unfold luc. rewrite (Hsample size), <- Hlen. by rewrite omap_lookup_range.
  - intros pre st0 x st1. apply accounted_step.
  - split; simpl; try done; apply sublist_nil_l.
Qed.

(** ** The order of the candidate list *)

Lemma insert_desc_perm x l : insert_desc x l ≡ₚ x :: l.
Proof.
  induction l as [|y l IH]; simpl; [done|].
  destruct (Qle_bool (snd y) (snd x)); [done|].
  by rewrite IH, Permutation_swap.
Qed.

Lemma sorted_desc_perm l : sorted_desc l ≡ₚ l.
Proof.
  induction l as [|x l IH]; simpl; [done|].
  by rewrite insert_desc_perm, IH.
Qed.

(** An element that came earlier than everything in a ranked list, and
    whose score does not fall below theirs from some point on, goes in
    front of that point. *)
Lemma ranks_before_le x z :
  (snd z <= snd x)%Q → (fst x < fst z)%nat → ranks_before x z.
Proof.
  intros [Hlt|Heq]%Qle_lt_or_eq Hidx; [by left|right].
  split; [by symmetry|done].
Qed.

Lemma ranks_before_score a b : ranks_before a b → (snd b <= snd a)%Q.
Proof.
  intros [Hlt|[Heq _]]; [by apply Qlt_le_weak|].
  rewrite Heq. apply Qle_refl.
Qed.

Lemma insert_desc_sorted x l :
  StronglySorted ranks_before l →
  Forall (λ y, (fst x < fst y)%nat) l →
  StronglySorted ranks_before (insert_desc x l).
Proof.
  induction l as [|y l IH]; intros Hs Hidx; simpl.
  - repeat constructor.
  - apply StronglySorted_inv in Hs as [Hs Hy].
    apply Forall_cons in Hidx as [Hxy Hidx].
    destruct (Qle_bool (snd y) (snd x)) eqn:E.
    + apply Qle_bool_iff in E. constructor; [by constructor|].
      constructor; [by apply ranks_before_le|].
      rewrite Forall_forall in Hy, Hidx |- *. intros z Hz.
      apply ranks_before_le; [|by apply Hidx].
      eapply Qle_trans; [|exact E]. by apply ranks_before_score, Hy.
    + constructor; [by apply IH|].
      rewrite insert_desc_perm. constructor; [|done].
      left. apply Qnot_le_lt. intros Hle%Qle_bool_iff. congruence.
Qed.

Lemma enumerate_from_indices {A} k (l : list A) :
  Forall (λ y, (k ≤ fst y)%nat) (enumerate_from k l).
Proof.
  revert k. induction l as [|a l IH]; intros k; simpl; constructor; [done|].
  eapply Forall_impl; [apply IH|]. simpl. intros; lia.
Qed.

Lemma enumerate_from_fst {A} k (l : list A) :
  (enumerate_from k l).*1 = seq k (length l) ∧ (enumerate_from k l).*2 = l.
Proof.
  revert k. induction l as [|a l IH]; intros k; [done|].
  destruct (IH (S k)) as [IH1 IH2].
  split; cbn [enumerate_from length seq]; rewrite fmap_cons; simpl;
    by rewrite ?IH1, ?IH2.
Qed.

Lemma sorted_desc_enumerate_from k (sims : list Q) :
  StronglySorted ranks_before (sorted_desc (enumerate_from k sims)).
Proof.
  revert k. induction sims as [|a sims IH]; intros k; simpl; [constructor|].
  apply insert_desc_sorted; [apply IH|].
  rewrite sorted_desc_perm.
  eapply Forall_impl; [apply (enumerate_from_indices (S k))|]. simpl. intros; lia.
Qed.

Lemma StronglySorted_lookup {A} (R : relation A) l i j a b :
  StronglySorted R l → (i < j)%nat → l !! i = Some a → l !! j = Some b → R a b.
Proof.
  intros Hs. revert i j. induction Hs as [|x l Hs IH Hx]; intros i j Hij Hi Hj.
  - done.
  - destruct j as [|j]; [lia|]. simpl in Hj. destruct i as [|i]; simpl in Hi.
    + injection Hi as <-. rewrite Forall_forall in Hx.
      by eapply Hx, list_elem_of_lookup_2.
    + eapply IH; [|done..]. lia.
Qed.

(** C7.  The candidate list of a control unit holds every score of the
    similarity index with its original treatment index, sorted by score
    descending; of two candidates with equal scores the one with the
    lower original index comes first. *)
Theorem candidates_ranked g index lookUpControl distance x closer :
  outcome (candidates g index lookUpControl distance x) = Ok closer →
  ∃ idx i c,
    index = Some idx ∧ lookUpControl !! x = Some i ∧ control g !! i = Some c ∧
    closer ≡ₚ enumerate (idx c) ∧
    (enumerate (idx c)).*1 = range (length (idx c)) ∧
    (enumerate (idx c)).*2 = idx c ∧
    ∀ r1 r2 a b, (r1 < r2)%nat → closer !! r1 = Some a → closer !! r2 = Some b →
      (snd b <= snd a)%Q ∧ ((snd a == snd b)%Q → (fst a < fst b)%nat).
Proof.
  unfold candidates. intros H.
  destruct (decide (distance = Some "cosine")); [|done].
  apply outcome_bind_Ok in H as (idx & Hidx & H).
  apply outcome_bind_Ok in H as (i & Hi & H).
  apply outcome_bind_Ok in H as (c & Hc & H).
  apply outcome_get_Ok in Hidx, Hi, Hc. injection H as <-.
  exists idx, i, c. repeat split; try done.
  - apply sorted_desc_perm.
  - apply (enumerate_from_fst 0).
  - apply (enumerate_from_fst 0).
  - by eapply ranks_before_score, StronglySorted_lookup;
      [apply (sorted_desc_enumerate_from 0)|..].
  - intros Heq.
    destruct (StronglySorted_lookup ranks_before _ r1 r2 a b
                (sorted_desc_enumerate_from 0 (idx c))) as [Hlt|[_ Hlt]];
      [done..| |done].
    rewrite Heq in Hlt. by apply Qlt_irrefl in Hlt.
Qed.

(** ** The engine and its library parameters *)

Lemma candidates_Ok g index lookUpControl distance x closer :
  outcome (candidates g index lookUpControl distance x) = Ok closer →
  ∃ idx i c,
    distance = Some "cosine" ∧ index = Some idx ∧ lookUpControl !! x = Some i ∧
    control g !! i = Some c ∧ closer = sorted_desc (enumerate (idx c)).
Proof.
  unfold candidates. intros H.
  destruct (decide (distance = Some "cosine")) as [Hd|]; [|done].
  apply outcome_bind_Ok in H as (idx & Hidx & H).
  apply outcome_bind_Ok in H as (i & Hi & H).
  apply outcome_bind_Ok in H as (c & Hc & H).
  apply outcome_get_Ok in Hidx, Hi, Hc. injection H as <-.
  by exists idx, i, c.
Qed.

Lemma for_each_ext {S X} (body body' : S → X → M S) xs st :
  (∀ st x, x ∈ xs → body st x = body' st x) →
  for_each body xs st = for_each body' xs st.
Proof.
  revert st. induction xs as [|x xs IH]; intros st Hext; simpl; [done|].
  rewrite Hext by (by left).
  destruct (body' st x) as [l [st1|e]]; [|done].
  unfold mbind, M_bind. rewrite IH; [done|].
  intros. apply Hext. by right.
Qed.

Lemma candidates_ext g (idx idx' : vec → list Q) lookUpControl distance x :
  (∀ c, c ∈ control g → idx c = idx' c) →
  candidates g (Some idx) lookUpControl distance x
  = candidates g (Some idx') lookUpControl distance x.
Proof.
  intros Hidx. unfold candidates.
  destruct (decide (distance = Some "cosine")); [|done]. simpl.
  destruct (lookUpControl !! x) as [i|]; [|done]. simpl.
  destruct (control g !! i) as [c|] eqn:Hc; [|done]. simpl.
  rewrite (Hidx c); [done|]. by eapply list_elem_of_lookup_2.
Qed.

(** A run sees the index only through its answers to the queries of the
    control vectors, and the sampler only through the one order it
    draws. *)
Lemma matching_ext promote SparseMatrixSimilarity SparseMatrixSimilarity' sample sample'
    g threshold replacement distance :
  sample (range (length (control g))) (length (control g))
  = sample' (range (length (control g))) (length (control g)) →
  (∀ t0 c, treatment g !! 0%nat = Some t0 → c ∈ control g →
     SparseMatrixSimilarity (treatment g) (length t0) c
     = SparseMatrixSimilarity' (treatment g) (length t0) c) →
  matching promote SparseMatrixSimilarity sample g threshold replacement distance
  = matching promote SparseMatrixSimilarity' sample' g threshold replacement distance.
Proof.
  intros Hsample Hindex. unfold matching. rewrite Hsample.
  destruct (decide (distance = Some "cosine")) as [Hd|Hd]; [|done].
  destruct (treatment g !! 0%nat) as [t0|] eqn:Ht0; [|done]. simpl.
  set (luc := sample' _ _).
  rewrite (for_each_ext
    (match_step promote g (Some (SparseMatrixSimilarity (treatment g) (length t0)))
       luc threshold replacement distance)
    (match_step promote g (Some (SparseMatrixSimilarity' (treatment g) (length t0)))
       luc threshold replacement distance));
    [done|].
  intros st x _. unfold match_step.
  by rewrite (candidates_ext g _ (SparseMatrixSimilarity' (treatment g) (length t0)))
    by (intros; by apply Hindex).
Qed.

(** The score of a ranked candidate is one of the scores ranked. *)
Lemma ranked_score_occurs (sims : list Q) y j s :
  sorted_desc (enumerate sims) !! y = Some (j, s) → s ∈ sims.
Proof.
  intros H.
  assert (s ∈ (sorted_desc (enumerate sims)).*2) as Hin.
  { apply list_elem_of_fmap. exists (j, s). split; [done|].
    by eapply list_elem_of_lookup_2. }
  rewrite sorted_desc_perm in Hin. unfold enumerate in Hin.
  by rewrite (proj2 (enumerate_from_fst 0 sims)) in Hin.
Qed.

Lemma bind_ext {A B} (m : M A) (f f' : A → M B) :
  (∀ a, outcome m = Ok a → f a = f' a) → m ≫= f = m ≫= f'.
Proof.
  destruct m as [l [a|e]]; intros H; [|done].
  unfold mbind, M_bind. by rewrite (H a).
Qed.

(** An iteration sees the threshold only through the one comparison it
    makes. *)
Lemma match_step_promote_ext promote promote' g index lookUpControl threshold
    threshold' replacement distance st x :
  (∀ closer y j s,
     outcome (candidates g index lookUpControl distance x) = Ok closer →
     closer !! y = Some (j, s) →
     Qle_bool (promote threshold) s = Qle_bool (promote' threshold') s) →
  match_step promote g index lookUpControl threshold replacement distance st x
  = match_step promote' g index lookUpControl threshold' replacement distance st x.
Proof.
  intros Hagree. unfold match_step.
  apply bind_ext. intros closer Hc.
  apply bind_ext. intros y Hy.
  apply bind_ext. intros [j s] Hcy%outcome_get_Ok. simpl.
  by rewrite (Hagree closer y j s Hc Hcy).
Qed.

(** A run sees the threshold and its conversion only through the
    comparisons with the scores the index gives. *)
Lemma matching_promote_ext promote promote' SparseMatrixSimilarity sample g
    threshold threshold' replacement distance :
  (∀ t0 c s, treatment g !! 0%nat = Some t0 → c ∈ control g →
     s ∈ SparseMatrixSimilarity (treatment g) (length t0) c →
     Qle_bool (promote threshold) s = Qle_bool (promote' threshold') s) →
  matching promote SparseMatrixSimilarity sample g threshold replacement distance
  = matching promote' SparseMatrixSimilarity sample g threshold' replacement distance.
Proof.
  intros Hagree. unfold matching.
  apply bind_ext. intros index Hindex.
  set (luc := sample _ _).
  rewrite (for_each_ext
    (match_step promote g index luc threshold replacement distance)
    (match_step promote' g index luc threshold' replacement distance));
    [done|].
  intros st x _. apply match_step_promote_ext.
  intros closer y j s Hc Hcy.
  apply candidates_Ok in Hc as (idx & i & c & Hd & -> & Hi & Hcv & ->).
  rewrite (decide_True (P := distance = Some "cosine")) in Hindex by done.
  apply outcome_bind_Ok in Hindex as (t0 & Ht0%outcome_get_Ok & Hindex).
  injection Hindex as <-.
  apply (Hagree t0 c s Ht0).
  - by eapply list_elem_of_lookup_2.
  - by eapply ranked_score_occurs.
Qed.

Lemma Qle_bool_true p s : (p <= s)%Q → Qle_bool p s = true.
Proof. apply Qle_bool_iff. Qed.

Lemma Qle_bool_false p s : (s < p)%Q → Qle_bool p s = false.
Proof.
  intros Hlt. destruct (Qle_bool p s) eqn:E; [|done].
  apply Qle_bool_iff in E. lra.
Qed.

Lemma ret_bind {A B} (a : A) (f : A → M B) : ([], Ok a) ≫= f = f a.
Proof. unfold mbind, M_bind. by destruct (f a). Qed.

(** One returning iteration in closed form. *)
Lemma match_step_run promote g idx lookUpControl threshold replacement st x i c y j s
    cid tid :
  lookUpControl !! x = Some i → control g !! i = Some c →
  select g replacement st (sorted_desc (enumerate (idx c))) = ([], Ok y) →
  sorted_desc (enumerate (idx c)) !! y = Some (j, s) →
  controlToPost g !! i = Some cid → treatmentToPost g !! j = Some tid →
  match_step promote g (Some idx) lookUpControl threshold replacement (Some
      "cosine") st x
  = ([], Ok (if Qle_bool (promote threshold) s then
               mkState (<[cid := s]> (ranking st))
                 (<[cid := (tid, s)]> (similarity st))
                 (<[tid := 1%nat]> (matched st))
                 (similarity_return st ++ [(cid, tid)])
                 (matchedControl st ++ [cid])
                 (matchedTreament st ++ [tid])
                 (S (count_pairs st))
                 (countUnmatched st)
             else
               mkState (ranking st) (similarity st) (matched st)
                 (similarity_return st) (matchedControl st) (matchedTreament st)
                 (count_pairs st) (S (countUnmatched st)))).
Proof.
  intros Hi Hc Hy Hcy Hcid Htid. unfold match_step, candidates.
  rewrite (decide_True (P := Some "cosine" = Some "cosine")) by done.
  simpl. rewrite Hi. simpl. rewrite Hc. simpl. rewrite Hy. simpl.
  rewrite Hcy. simpl. destruct (Qle_bool (promote threshold) s); [|done].
  rewrite Hcid. simpl. by rewrite Htid.
Qed.

(** With a first treatment vector to take the number of features from,
    a run with [distance = "cosine"] is its loop and the line printed
    after it. *)
Lemma matching_cosine_run promote SparseMatrixSimilarity sample g t0 threshold
    replacement :
  treatment g !! 0%nat = Some t0 →
  matching promote SparseMatrixSimilarity sample g threshold replacement (Some "cosine")
  = (st ← for_each
            (match_step promote g
               (Some (SparseMatrixSimilarity (treatment g) (length t0)))
               (sample (range (length (control g))) (length (control g)))
               threshold replacement (Some "cosine"))
            (range (length (control g))) init_state;
     _ ← print (PrintUnmatched (countUnmatched st));
     mret st).
Proof.
  intros Ht0. unfold matching.
  rewrite (decide_True (P := Some "cosine" = Some "cosine")) by done.
  rewrite Ht0.
  change (get IndexError (Some t0)
          ≫= (λ t1, mret (Some (SparseMatrixSimilarity (treatment g) (length t1)))))
    with (([], Ok (Some (SparseMatrixSimilarity (treatment g) (length t0))))
          : M (option (vec → list Q))).
  by rewrite ret_bind.
Qed.

(** The loop of the scenario, for a conversion that leaves the threshold
    above 0.05 and at most 0.95. *)
Lemma scenario_loop promote :
  (5 # 100 < promote (9 # 10))%Q →
  (promote (9 # 10) <= 95 # 100)%Q →
  for_each (match_step promote ScenarioRun.the_groups
              (Some (Scenario.index [Scenario.vT1; Scenario.vT2] 1))
              [0; 1]%nat (9 # 10) false (Some "cosine"))
    [0; 1]%nat init_state
  = ([], Ok ScenarioRun.final).
Proof.
  intros Hlow Hhigh. cbn [for_each].
  rewrite (match_step_run promote ScenarioRun.the_groups _ [0; 1]%nat (9 # 10) false
             _ 0 0 Scenario.vC1 0 0 (95 # 100) "C1" "T1")
    by (vm_compute; reflexivity).
  rewrite (Qle_bool_true _ _ Hhigh), ret_bind.
  rewrite (match_step_run promote ScenarioRun.the_groups _ [0; 1]%nat (9 # 10) false
             _ 1 1 Scenario.vC2 1 1 (5 # 100) "C2" "T2")
    by (vm_compute; reflexivity).
  rewrite (Qle_bool_false _ _ Hlow). reflexivity.
Qed.

(** C8.  The scenario with two control and two treatment units, scores
    cos(C1,T1) = 0.95, cos(C1,T2) = 0.10, cos(C2,T1) = 0.90,
    cos(C2,T2) = 0.05, threshold 0.9, without replacement, C1 processed
    first.  The run emits the single match (C1, T1, 0.95) and counts one
    unmatched control unit: for C2 the scan skips the claimed T1 and
    stops at T2, whose score 0.05 is below the threshold.  This holds
    for every conversion of the threshold that leaves it above 0.05 and
    at most 0.95, as both of NumPy's do. *)
Theorem scenario_without_replacement promote SparseMatrixSimilarity sample :
  sample (range 2) 2%nat = [0; 1]%nat →
  SparseMatrixSimilarity [Scenario.vT1; Scenario.vT2] 1%nat Scenario.vC1
    = [95 # 100; 10 # 100]%Q →
  SparseMatrixSimilarity [Scenario.vT1; Scenario.vT2] 1%nat Scenario.vC2
    = [90 # 100; 5 # 100]%Q →
  (5 # 100 < promote (9 # 10))%Q →
  (promote (9 # 10) <= 95 # 100)%Q →
  distance_matching_locals promote SparseMatrixSimilarity sample Scenario.docs
    Scenario.docToPost Scenario.upvotes (9 # 10) false (Some "cosine")
  = ([PrintTreatmentGroup 2; PrintControlGroup 2; PrintUnmatched 1],
     Ok (ScenarioRun.the_groups, ScenarioRun.final)) ∧
  distance_matching promote SparseMatrixSimilarity sample Scenario.docs
    Scenario.docToPost Scenario.upvotes (9 # 10) false (Some "cosine")
  = ([PrintTreatmentGroup 2; PrintControlGroup 2; PrintUnmatched 1],
     Ok (["T1"], ["C1"])) ∧
  map_to_list (similarity ScenarioRun.final) = [("C1", ("T1", (95 # 100)%Q))] ∧
  select ScenarioRun.the_groups false ScenarioRun.after_C1
    (sorted_desc (enumerate [90 # 100; 5 # 100]%Q))
  = ([], Ok 1%nat) ∧
  sorted_desc (enumerate [90 # 100; 5 # 100]%Q) !! 1%nat = Some (1%nat, (5 # 100)%Q) ∧
  Qle_bool (promote (9 # 10)) (5 # 100) = false.
Proof.
  intros Hsample H1 H2 Hlow Hhigh.
  assert (split_groups Scenario.docs Scenario.docToPost Scenario.upvotes
          = ([PrintTreatmentGroup 2; PrintControlGroup 2], Ok ScenarioRun.the_groups))
    as Hsplit by (vm_compute; reflexivity).
  assert (matching promote SparseMatrixSimilarity sample ScenarioRun.the_groups (9 # 10)
            false (Some "cosine")
          = ([PrintUnmatched 1], Ok ScenarioRun.final)) as Hrun.
  { rewrite (matching_ext promote _ Scenario.index _ Scenario.in_order).
    - rewrite (matching_cosine_run _ _ _ _ Scenario.vT1) by reflexivity.
      change (length (control ScenarioRun.the_groups)) with 2%nat.
      change (treatment ScenarioRun.the_groups) with [Scenario.vT1; Scenario.vT2].
      change (length Scenario.vT1) with 1%nat.
      change (Scenario.in_order (range 2) 2) with [0; 1]%nat.
      change (range 2) with [0; 1]%nat.
      rewrite (scenario_loop promote Hlow Hhigh). reflexivity.
    - exact Hsample.
    - intros t0 c [= <-] [->|[->|[]%elem_of_nil]%elem_of_cons]%elem_of_cons.
      + exact H1.
      + exact H2. }
  split; [|split].
  - unfold distance_matching_locals. rewrite Hsplit.
    unfold mbind at 1, M_bind. by rewrite Hrun.
  - unfold distance_matching. rewrite Hsplit.
    unfold mbind at 1, M_bind. by rewrite Hrun.
  - split; [vm_compute; reflexivity|]. split; [vm_compute; reflexivity|].
    split; [vm_compute; reflexivity|]. by apply Qle_bool_false.
Qed.

(** ** Running out of candidates *)

(** C2.  The code does not treat exhausted candidates as an unmatched
    control unit.  Without replacement, with two control units and one
    treatment unit and threshold 0.9, the first control unit claims the
    treatment unit; the scan of the second one then finds every candidate
    claimed, runs past the end of [closer], and the run aborts with
    [IndexError]: no unmatched count is printed and nothing is returned.
    It is so under both conversions of the threshold. *)
Theorem exhausted_candidates_raise :
  distance_matching as_float64 Exhausted.index Scenario.in_order Exhausted.docs
    Exhausted.docToPost Exhausted.upvotes (9 # 10) false (Some "cosine")
  = ([PrintTreatmentGroup 1; PrintControlGroup 2], Err IndexError) ∧
  distance_matching float32 Exhausted.index Scenario.in_order Exhausted.docs
    Exhausted.docToPost Exhausted.upvotes (9 # 10) false (Some "cosine")
  = ([PrintTreatmentGroup 1; PrintControlGroup 2], Err IndexError).
Proof. split; vm_compute; reflexivity. Qed.

(** ** The outcome aggregator *)

Lemma count_step_run returns n u r :
  returns !! u = Some r →
  count_step returns n u = ([], Ok (if decide (r = "true") then S n else n)).
Proof. unfold count_step. intros ->. simpl. by destruct (decide (r = "true")). Qed.

Lemma Qnat_S_nonzero n : Qeq_bool (Qnat (S n)) 0 = false.
Proof.
  destruct (Qeq_bool (Qnat (S n)) 0) eqn:E; [|done].
  apply Qeq_bool_iff in E. unfold Qnat, Qeq, inject_Z in E. simpl in E. lia.
Qed.

Lemma Qdiv_0_zero b : Qeq_bool (Qnat 0 / b) 0 = true.
Proof. apply Qeq_bool_iff. unfold Qnat, Qdiv. simpl. apply Qmult_0_l. Qed.

Lemma fdiv_zero a b : Qeq_bool b 0 = true → fdiv a b = ([], Err ZeroDivisionError).
Proof. unfold fdiv. by intros ->. Qed.

Lemma fdiv_nonzero a b : Qeq_bool b 0 = false → fdiv a b = ([], Ok (a / b)%Q).
Proof. unfold fdiv. by intros ->. Qed.

Lemma count_loop_cases returns group n :
  for_each (count_step returns) group n = ([], Ok (n + count_true returns group)%nat) ∨
  (for_each (count_step returns) group n = ([], Err KeyError) ∧
   ∃ u, u ∈ group ∧ returns !! u = None).
Proof.
  revert n. induction group as [|u group IH]; intros n; cbn [for_each].
  - left. unfold count_true. simpl. by rewrite Nat.add_0_r.
  - destruct (returns !! u) as [r|] eqn:Hr.
    + rewrite (count_step_run _ _ _ _ Hr). unfold mbind, M_bind.
      destruct (IH (if decide (r = "true") then S n else n)) as [->|[-> (u' & Hu' &
          Hnone)]].
      * left. unfold count_true. destruct (decide (r = "true")) as [->|Hne].
        -- rewrite filter_cons_True by done. simpl. repeat f_equal. lia.
        -- rewrite filter_cons_False by congruence. done.
      * right. split; [done|]. exists u'. split; [by right|done].
    + right. split.
      * unfold count_step. by rewrite Hr.
      * exists u. split; [by left|done].
Qed.

(** C9.  The aggregator never returns normally, and never prints a
    relative increase, when the treatment group is empty, when the
    control group is empty, or when no control user returned (the control
    return probability is 0).  It raises [ZeroDivisionError]; the one
    other way out is the [KeyError] of a listed user without an outcome
    in the store, raised by the counting loops before any division.  So
    with a store that has an outcome for every listed user the exception
    is [ZeroDivisionError]. *)
Theorem return_rate_division_by_zero treatment control returns :
  treatment = [] ∨ control = [] ∨ count_true returns control = 0%nat →
  (outcome (return_rate treatment control returns) = Err ZeroDivisionError ∨
   (outcome (return_rate treatment control returns) = Err KeyError ∧
    ∃ u, u ∈ control ++ treatment ∧ returns !! u = None)) ∧
  ((∀ u, u ∈ control ++ treatment → is_Some (returns !! u)) →
   outcome (return_rate treatment control returns) = Err ZeroDivisionError) ∧
  ∀ p, PrintRelativeIncrease p ∉ printed (return_rate treatment control returns).
Proof.
  intros Hcase.
  assert ((outcome (return_rate treatment control returns) = Err ZeroDivisionError ∨
           (outcome (return_rate treatment control returns) = Err KeyError ∧
            ∃ u, u ∈ control ++ treatment ∧ returns !! u = None)) ∧
          ∀ p, PrintRelativeIncrease p
                 ∉ printed (return_rate treatment control returns)) as [Hout Hlog].
  { unfold return_rate.
    destruct (count_loop_cases returns control 0) as [Hc|[Hc (u & Hu & Hnone)]].
    2:{ rewrite (bind_Err _ _ _ _ Hc). split; [|intros p; apply not_elem_of_nil].
        right. split; [done|]. exists u. split; [|done]. apply elem_of_app. by left. }
    rewrite (bind_Ok _ _ _ _ Hc).
    destruct (count_loop_cases returns treatment 0) as [Ht|[Ht (u & Hu & Hnone)]].
    2:{ rewrite (bind_Err _ _ _ _ Ht). split; [|intros p; apply not_elem_of_nil].
        right. split; [done|]. exists u. split; [|done]. apply elem_of_app. by right. }
    rewrite (bind_Ok _ _ _ _ Ht).
    destruct treatment as [|t treatment].
    { rewrite (bind_Err _ _ _ _ (fdiv_zero _ (Qnat (length (@nil string))) eq_refl)).
      split; [by left|]. intros p. apply not_elem_of_nil. }
    rewrite (bind_Ok _ _ _ _ (fdiv_nonzero _ _ (Qnat_S_nonzero (length treatment)))).
    destruct control as [|c control].
    { rewrite (bind_Err _ _ _ _ (fdiv_zero _ (Qnat (length (@nil string))) eq_refl)).
      split; [by left|]. intros p. apply not_elem_of_nil. }
    destruct Hcase as [?|[?|Hzero]]; [done..|].
    rewrite Hzero.
    rewrite (bind_Ok _ _ _ _ (fdiv_nonzero _ _ (Qnat_S_nonzero (length control)))).
    rewrite (bind_Ok _ _ _ _ (fdiv_nonzero _ _
      (Qnat_S_nonzero (length treatment + length (c :: control))))).
    rewrite (bind_Ok (print _) _ _ _ eq_refl), (bind_Ok (print _) _ _ _ eq_refl).
    rewrite (bind_Err _ _ _ _ (fdiv_zero _ _ (Qdiv_0_zero _))).
    split; [by left|].
    intros p [?|[?|[]%elem_of_nil]%elem_of_cons]%elem_of_cons; done. }
  split; [done|]. split; [|done].
  intros Hall. destruct Hout as [?|[_ (u & Hu & Hnone)]]; [done|].
  apply Hall in Hu. rewrite Hnone in Hu. by destruct Hu.
Qed.

(** ** The theorems at work on concrete runs *)

(** The run of the scenario with the scenario's own index and order. *)
Lemma scenario_locals :
  outcome (distance_matching_locals float32 Scenario.index Scenario.in_order
      Scenario.docs
             Scenario.docToPost Scenario.upvotes (9 # 10) false (Some "cosine"))
  = Ok (ScenarioRun.the_groups, ScenarioRun.final).
Proof. vm_compute. reflexivity. Defined.

Lemma scenario_split :
  outcome (split_groups Scenario.docs Scenario.docToPost Scenario.upvotes)
  = Ok ScenarioRun.the_groups.
Proof. vm_compute. reflexivity. Defined.

Lemma scenario_population :
  mapM (unit_at Scenario.docs Scenario.docToPost Scenario.upvotes)
    (range (length Scenario.docs)) = Some scenario_units.
Proof. vm_compute. reflexivity. Defined.

Lemma without_replacement_claims_once_witness :
  outcome (distance_matching_locals float32 Scenario.index Scenario.in_order
      Scenario.docs
             Scenario.docToPost Scenario.upvotes (9 # 10) false (Some "cosine"))
  = Ok (ScenarioRun.the_groups, ScenarioRun.final) ∧
  NoDup (matchedTreament ScenarioRun.final) ∧
  NoDup (similarity_return ScenarioRun.final).*2.
Proof.
  split; [exact scenario_locals|].
  pose proof (without_replacement_claims_once float32 Scenario.index Scenario.in_order
                Scenario.docs Scenario.docToPost Scenario.upvotes (9 # 10)
                (Some "cosine") ScenarioRun.the_groups ScenarioRun.final
                scenario_locals) as (H1 & H2 & _).
  exact (conj H1 H2).
Defined.

(** The run on a score that is the [float32] nearest to the
    threshold. *)
Lemma rounded_locals :
  outcome (distance_matching_locals float32 Rounded.index Scenario.in_order
             Rounded.docs Rounded.docToPost Rounded.upvotes (9 # 10) true
             (Some "cosine"))
  = Ok (Rounded.the_groups, Rounded.final).
Proof. vm_compute. reflexivity. Defined.

Lemma threshold_invariant_witness :
  outcome (distance_matching_locals float32 Rounded.index Scenario.in_order
             Rounded.docs Rounded.docToPost Rounded.upvotes (9 # 10) true
             (Some "cosine"))
  = Ok (Rounded.the_groups, Rounded.final) ∧
  (∀ c t s, similarity Rounded.final !! c = Some (t, s) →
     (float32 (9 # 10) <= s)%Q) ∧
  ((9 # 10) - 2 ^ spacing (9 # 10) * (1 # 2) <= float32 (9 # 10))%Q ∧
  (∀ c t s, similarity Rounded.final !! c = Some (t, s) →
     ((9 # 10) - 2 ^ spacing (9 # 10) * (1 # 2) <= s)%Q).
Proof.
  pose proof (threshold_invariant float32 Rounded.index Scenario.in_order
                Rounded.docs Rounded.docToPost Rounded.upvotes (9 # 10)
                true (Some "cosine") Rounded.the_groups Rounded.final
                rounded_locals) as (Hsim & _ & _ & Hbound).
  assert ((9 # 10) - 2 ^ spacing (9 # 10) * (1 # 2) <= float32 (9 # 10))%Q as Herr
    by (vm_compute; discriminate).
  split; [exact rounded_locals|]. split; [exact Hsim|]. split; [exact Herr|].
  exact (proj1 (Hbound _ Herr)).
Defined.

Lemma every_control_accounted_witness :
  (∀ n, Scenario.in_order (range n) n ≡ₚ range n) ∧
  (length (matchedControl ScenarioRun.final) + countUnmatched ScenarioRun.final
   = length (control ScenarioRun.the_groups))%nat.
Proof.
  assert (∀ n, Scenario.in_order (range n) n ≡ₚ range n) as Hperm
    by (intros n; reflexivity).
  split; [exact Hperm|].
  pose proof (every_control_accounted float32 Scenario.index Scenario.in_order
                Scenario.docs Scenario.docToPost Scenario.upvotes (9 # 10)
                false (Some "cosine") ScenarioRun.the_groups ScenarioRun.final
                Hperm scenario_locals) as (_ & _ & _ & H & _).
  exact H.
Defined.



Lemma baseline_pass_through_witness :
  mapM (unit_at Scenario.docs Scenario.docToPost Scenario.upvotes)
    (range (length Scenario.docs)) = Some scenario_units ∧
  ∃ g log,
    split_groups Scenario.docs Scenario.docToPost Scenario.upvotes = (log, Ok g) ∧
    log = [PrintTreatmentGroup (length (treatment g));
           PrintControlGroup (length (control g))] ∧
    distance_matching float32 Scenario.index Scenario.in_order Scenario.docs
      Scenario.docToPost Scenario.upvotes (9 # 10) false None
    = (log, Ok (treatmentToPost g, controlToPost g)) ∧
    treatmentToPost g ++ controlToPost g ≡ₚ unit_id <$> scenario_units ∧
    (length (treatmentToPost g) + length (controlToPost g)
     = length Scenario.docs)%nat.
Proof.
  split; [exact scenario_population|].
  exact (baseline_pass_through float32 Scenario.index Scenario.in_order Scenario.docs
           Scenario.docToPost Scenario.upvotes (9 # 10) false scenario_units
           scenario_population).
Defined.

Lemma unsupported_distance_not_validated_witness :
  "mahalanobis" ≠ "cosine" ∧
  distance_matching float32 Scenario.index Scenario.in_order Scenario.docs
    Scenario.docToPost Scenario.upvotes (9 # 10) false (Some "mahalanobis")
  = ([PrintTreatmentGroup 2; PrintControlGroup 2], Err UnboundLocalError).
Proof.
  assert ("mahalanobis" ≠ "cosine") as Hd by discriminate.
  split; [exact Hd|].
  rewrite (unsupported_distance_not_validated float32 Scenario.index Scenario.in_order
             Scenario.docs Scenario.docToPost Scenario.upvotes (9 # 10) false
             "mahalanobis" Hd).
  vm_compute. reflexivity.
Defined.

Lemma candidates_ranked_witness :
  outcome (candidates ScenarioRun.the_groups
             (Some (Scenario.index [Scenario.vT1; Scenario.vT2] 1))
             [0; 1]%nat (Some "cosine") 1)
  = Ok [(0%nat, (90 # 100)%Q); (1%nat, (5 # 100)%Q)] ∧
  ∀ r1 r2 a b, (r1 < r2)%nat →
    [(0%nat, (90 # 100)%Q); (1%nat, (5 # 100)%Q)] !! r1 = Some a →
    [(0%nat, (90 # 100)%Q); (1%nat, (5 # 100)%Q)] !! r2 = Some b →
    (snd b <= snd a)%Q ∧ ((snd a == snd b)%Q → (fst a < fst b)%nat).
Proof.
  assert (outcome (candidates ScenarioRun.the_groups
             (Some (Scenario.index [Scenario.vT1; Scenario.vT2] 1))
             [0; 1]%nat (Some "cosine") 1)
          = Ok [(0%nat, (90 # 100)%Q); (1%nat, (5 # 100)%Q)]) as Hrun
    by (vm_compute; reflexivity).
  split; [exact Hrun|].
  destruct (candidates_ranked _ _ _ _ _ _ Hrun) as (idx & i & c & _ & _ & _ & _ & _
      & _ & H).
  exact H.
Defined.

Lemma scenario_without_replacement_witness :
  (5 # 100 < float32 (9 # 10))%Q ∧
  (float32 (9 # 10) <= 95 # 100)%Q ∧
  distance_matching float32 Scenario.index Scenario.in_order Scenario.docs
    Scenario.docToPost Scenario.upvotes (9 # 10) false (Some "cosine")
  = ([PrintTreatmentGroup 2; PrintControlGroup 2; PrintUnmatched 1],
     Ok (["T1"], ["C1"])).
Proof.
  assert (5 # 100 < float32 (9 # 10))%Q as Hlow by (vm_compute; reflexivity).
  assert (float32 (9 # 10) <= 95 # 100)%Q as Hhigh by (vm_compute; discriminate).
  split; [exact Hlow|]. split; [exact Hhigh|].
  exact (proj1 (proj2 (scenario_without_replacement float32 Scenario.index
                         Scenario.in_order eq_refl eq_refl eq_refl Hlow Hhigh))).
Defined.

Lemma return_rate_division_by_zero_witness :
  (∀ u, u ∈ ["C"; "D"] ++ ["A"; "B"] → is_Some (example_returns !! u)) ∧
  count_true example_returns ["C"; "D"] = 0%nat ∧
  outcome (return_rate ["A"; "B"] ["C"; "D"] example_returns) = Err ZeroDivisionError.
Proof.
  assert (∀ u, u ∈ ["C"; "D"] ++ ["A"; "B"] → is_Some (example_returns !! u)) as Hall.
  { intros u Hu. simpl in Hu.
    repeat (apply elem_of_cons in Hu as [->|Hu]; [by eexists|]).
    by apply elem_of_nil in Hu. }
  assert (count_true example_returns ["C"; "D"] = 0%nat) as Hzero
    by (vm_compute; reflexivity).
  split; [exact Hall|]. split; [exact Hzero|].
  exact (proj1 (proj2 (return_rate_division_by_zero ["A"; "B"] ["C"; "D"]
                         example_returns (or_intror (or_intror Hzero)))) Hall).
Defined.

Example return_rate_example :
  return_rate ["A"; "B"] ["C"; "D"] example_returns
  = ([PrintProbTreatment (1 # 2); PrintProbControl (0 # 2)], Err ZeroDivisionError).
Proof. vm_compute. reflexivity. Qed.

(** The scenario where NumPy compares in double precision: the threshold
    is taken as it is. *)
Example scenario_without_replacement_float64 :
  distance_matching_locals as_float64 Scenario.index Scenario.in_order Scenario.docs
    Scenario.docToPost Scenario.upvotes (9 # 10) false (Some "cosine")
  = ([PrintTreatmentGroup 2; PrintControlGroup 2; PrintUnmatched 1],
     Ok (ScenarioRun.the_groups, ScenarioRun.final)).
Proof. vm_compute. reflexivity. Qed.

(** The scenario with replacement: both control units match T1. *)
Example scenario_with_replacement :
  distance_matching float32 Scenario.index Scenario.in_order Scenario.docs
    Scenario.docToPost Scenario.upvotes (9 # 10) true (Some "cosine")
  = ([PrintTreatmentGroup 2; PrintControlGroup 2; PrintUnmatched 0],
     Ok (["T1"; "T1"], ["C1"; "C2"])).
Proof. vm_compute. reflexivity. Qed.

(** Ties keep their original order: indices 1 and 3 share the top score,
    indices 0 and 2 the lower one. *)
Example sorted_desc_ties :
  sorted_desc (enumerate [1 # 2; 9 # 10; 1 # 2; 9 # 10]%Q)
  = [(1%nat, (9 # 10)%Q); (3%nat, (9 # 10)%Q); (0%nat, (1 # 2)%Q); (2%nat, (1 # 2)%Q)].
Proof. reflexivity. Qed.

(** * Further properties of the code *)

(** ** The selected candidate *)

Lemma ranks_before_tie a b :
  ranks_before a b → (snd b == snd a)%Q → (fst a < fst b)%nat.
Proof.
  intros [Hlt|[_ Hidx]] Heq; [|done].
  rewrite Heq in Hlt. by apply Qlt_irrefl in Hlt.
Qed.

(** The original indices in a ranked list are pairwise distinct. *)
Lemma sorted_desc_enumerate_NoDup (sims : list Q) :
  NoDup (sorted_desc (enumerate sims)).*1.
Proof.
  rewrite sorted_desc_perm. unfold enumerate.
  rewrite (proj1 (enumerate_from_fst 0 sims)). apply NoDup_seq.
Qed.

(** X1.  The candidate an iteration selects is the best one still
    available.  With replacement no other candidate scores higher;
    without replacement no unclaimed candidate scores higher.  Among the
    available candidates with the selected score, the selected one has the
    lowest original treatment index. *)
Theorem selected_is_best_available g index lookUpControl distance x closer
    replacement st y j s :
  outcome (candidates g index lookUpControl distance x) = Ok closer →
  outcome (select g replacement st closer) = Ok y →
  closer !! y = Some (j, s) →
  ∀ j' s', (j', s') ∈ closer →
    (replacement = true ∨
     ∃ t, treatmentToPost g !! j' = Some t ∧ matched st !! t = None) →
    (s' <= s)%Q ∧ ((s' == s)%Q → (j ≤ j')%nat).
Proof.
  intros Hc Hy Hcy j' s' [r Hr]%list_elem_of_lookup Havail.
  apply candidates_Ok in Hc as (idx & i & c & _ & _ & _ & _ & ->).
  pose proof (sorted_desc_enumerate_from 0 (idx c)) as Hsorted.
  fold (enumerate (idx c)) in Hsorted.
  assert (y ≤ r)%nat as Hle.
  { destruct replacement; simpl in Hy.
    - injection Hy as <-. lia.
    - apply skip_matched_Ok in Hy as (k & j0 & s0 & t0 & -> & _ & _ & _ & Hbefore).
      destruct Havail as [?|(t & Ht & Hfree)]; [done|].
      destruct (decide (r < k)%nat) as [Hlt|]; [|simpl; lia].
      destruct (Hbefore r Hlt) as (j1 & s1 & t1 & Hr1 & Ht1 & Hcl).
      assert (j1 = j') as -> by congruence.
      assert (t1 = t) as -> by congruence.
      rewrite Hfree in Hcl. by destruct Hcl. }
  destruct (decide (y = r)) as [->|Hne].
  - assert (j' = j ∧ s' = s) as [-> ->] by (split; congruence).
    split; [apply Qle_refl|lia].
  - assert (ranks_before (j, s) (j', s')) as Hrank.
    { eapply (StronglySorted_lookup _ _ y r); [done| |done..]. lia. }
    split; [by apply (ranks_before_score _ _ Hrank)|].
    intros Heq. apply (ranks_before_tie _ _ Hrank) in Heq. simpl in Heq. lia.
Qed.

(** ** Matching with replacement, unit by unit *)

Lemma matching_cosine_Ok promote SparseMatrixSimilarity sample g threshold
    replacement st :
  outcome (matching promote SparseMatrixSimilarity sample g threshold replacement
             (Some "cosine")) = Ok st →
  ∃ t0, treatment g !! 0%nat = Some t0 ∧
    outcome (for_each
      (match_step promote g (Some (SparseMatrixSimilarity (treatment g) (length t0)))
         (sample (range (length (control g))) (length (control g)))
         threshold replacement (Some "cosine"))
      (range (length (control g))) init_state) = Ok st.
Proof.
  unfold matching. intros H.
  rewrite (decide_True (P := Some "cosine" = Some "cosine")) in H by done.
  apply outcome_bind_Ok in H as (index & Hindex & H).
  apply outcome_bind_Ok in Hindex as (t0 & Ht0 & Hindex).
  apply outcome_get_Ok in Ht0. injection Hindex as <-.
  apply outcome_bind_Ok in H as (st1 & Hloop & H).
  apply outcome_bind_Ok in H as ([] & _ & H).
  injection H as <-. by exists t0.
Qed.

(** What one iteration with replacement does is read off the control
    unit it processes. *)
Lemma with_replacement_step promote g idx lookUpControl threshold st x st' :
  outcome (match_step promote g (Some idx) lookUpControl threshold true (Some
      "cosine") st x)
    = Ok st' →
  ∃ i, lookUpControl !! x = Some i ∧
    match pair_with_replacement promote g idx threshold i with
    | Some p =>
        similarity_return st' = similarity_return st ++ [p] ∧
        matchedControl st' = matchedControl st ++ [fst p] ∧
        matchedTreament st' = matchedTreament st ++ [snd p] ∧
        countUnmatched st' = countUnmatched st
    | None =>
        similarity_return st' = similarity_return st ∧
        matchedControl st' = matchedControl st ∧
        matchedTreament st' = matchedTreament st ∧
        countUnmatched st' = S (countUnmatched st)
    end.
Proof.
  intros H. apply match_step_Ok in H as (closer & y & Hc & Hy & Hres).
  apply candidates_Ok in Hc as (idx' & i & c & _ & [= <-] & Hi & Hc & ->).
  simpl in Hy. injection Hy as <-.
  exists i. split; [done|]. unfold pair_with_replacement, top_candidate.
  rewrite Hc. simpl. rewrite head_lookup.
  destruct Hres as [j s i' cid tid Hcy Hthr Hi' Hcid Htid ->|j s Hcy Hthr ->];
    rewrite Hcy; simpl; rewrite Hthr; [|done].
  assert (i' = i) as -> by congruence.
  rewrite Hcid. simpl. by rewrite Htid.
Qed.

Lemma with_replacement_loop promote SparseMatrixSimilarity sample g threshold st :
  outcome (matching promote SparseMatrixSimilarity sample g threshold true (Some
      "cosine"))
    = Ok st →
  ∃ t0, treatment g !! 0%nat = Some t0 ∧
    replaced promote g (SparseMatrixSimilarity (treatment g) (length t0))
      (sample (range (length (control g))) (length (control g))) threshold
      (range (length (control g))) st.
Proof.
  intros H. apply matching_cosine_Ok in H as (t0 & Ht0 & H).
  exists t0. split; [done|].
  apply (for_each_prefix_invariant
           (replaced promote g (SparseMatrixSimilarity (treatment g) (length t0))
              (sample (range (length (control g))) (length (control g)))
              threshold)) with (pre := []) in H; [done| |done].
  intros pre st0 x st1 [Hp Hc Ht Hn] Hstep.
  apply with_replacement_step in Hstep as (i & Hi & Hstep).
  destruct (pair_with_replacement promote _ _ _ i) as [p|] eqn:Hpair;
    destruct Hstep as (Hp1 & Hc1 & Ht1 & Hn1); split;
    rewrite ?Hp1, ?Hc1, ?Ht1, ?Hn1, ?omap_app, ?fmap_app, ?length_app; simpl;
    rewrite ?Hi; simpl; rewrite ?Hpair; simpl;
    rewrite ?Hp, ?app_nil_r; try done; try congruence; try lia;
    rewrite <- Hp; lia.
Qed.

Lemma omap_via_order {A} (lookUpControl : list nat) (f : nat → option A) :
  omap (λ x, lookUpControl !! x ≫= f) (range (length lookUpControl))
  = omap f lookUpControl.
Proof. by rewrite omap_bind_lookup, omap_lookup_range. Qed.

Lemma omap_sublist {A B} (f1 f2 : A → option B) (l : list A) :
  (∀ x y, f2 x = Some y → f1 x = Some y) →
  omap f2 l `sublist_of` omap f1 l.
Proof.
  intros Himp. induction l as [|x l IH]; simpl; [constructor|].
  fold (omap f1 l). fold (omap f2 l).
  destruct (f2 x) as [y|] eqn:E2.
  - rewrite (Himp _ _ E2). by constructor.
  - destruct (f1 x); [by constructor|done].
Qed.

Lemma pair_with_replacement_mono promote g idx threshold1 threshold2 i p :
  (promote threshold1 <= promote threshold2)%Q →
  pair_with_replacement promote g idx threshold2 i = Some p →
  pair_with_replacement promote g idx threshold1 i = Some p.
Proof.
  unfold pair_with_replacement. intros Hle H.
  destruct (control g !! i) as [c|]; [|done]. simpl in *.
  destruct (top_candidate (idx c)) as [[j s]|]; [|done]. simpl in *.
  destruct (Qle_bool (promote threshold2) s) eqn:E2; [|done].
  apply Qle_bool_iff in E2.
  assert (Qle_bool (promote threshold1) s = true) as ->; [|done].
  apply Qle_bool_iff. by eapply Qle_trans.
Qed.

(** X2.  With replacement the result does not depend on the processing
    order: two runs on the same data whose samplers draw two permutations
    of the control indices emit the same pairs up to order, hence return
    the same matched control ids and the same matched treatment ids up to
    order, and count the same number of unmatched control units. *)
Theorem with_replacement_order_independent promote SparseMatrixSimilarity sample1
    sample2
    docs docToPost upvotes threshold g1 st1 g2 st2 :
  (∀ n, sample1 (range n) n ≡ₚ range n) →
  (∀ n, sample2 (range n) n ≡ₚ range n) →
  outcome (distance_matching_locals promote SparseMatrixSimilarity sample1 docs
      docToPost
             upvotes threshold true (Some "cosine")) = Ok (g1, st1) →
  outcome (distance_matching_locals promote SparseMatrixSimilarity sample2 docs
      docToPost
             upvotes threshold true (Some "cosine")) = Ok (g2, st2) →
  g1 = g2 ∧
  similarity_return st1 ≡ₚ similarity_return st2 ∧
  matchedControl st1 ≡ₚ matchedControl st2 ∧
  matchedTreament st1 ≡ₚ matchedTreament st2 ∧
  countUnmatched st1 = countUnmatched st2.
Proof.
  intros Hs1 Hs2 [Hg1 H1]%locals_Ok [Hg2 H2]%locals_Ok.
  assert (g2 = g1) as -> by congruence. split; [done|].
  apply with_replacement_loop in H1 as (t0 & Ht0 & [Hp1 Hc1 Ht1 Hn1]).
  apply with_replacement_loop in H2 as (t0' & Ht0' & [Hp2 Hc2 Ht2 Hn2]).
  assert (t0' = t0) as -> by congruence.
  set (size := length (control g1)) in *.
  assert (∀ sample : list nat → nat → list nat, sample (range size) size ≡ₚ range size →
            length (sample (range size) size) = size) as Hlen.
  { intros sample ->. apply length_seq. }
  rewrite <- (Hlen sample1 (Hs1 size)), omap_via_order in Hp1 at 1.
  rewrite <- (Hlen sample2 (Hs2 size)), omap_via_order in Hp2 at 1.
  assert (similarity_return st1 ≡ₚ similarity_return st2) as Hperm.
  { rewrite Hp1, Hp2. by rewrite (Hs1 size), (Hs2 size). }
  split; [done|]. split; [by rewrite Hc1, Hc2, Hperm|].
  split; [by rewrite Ht1, Ht2, Hperm|].
  apply Permutation_length in Hperm. lia.
Qed.

(** X3.  With replacement, raising the threshold can only lose matches:
    for the same data and sampler, the pairs emitted under the higher
    threshold are a sublist of those emitted under the lower one, and the
    unmatched count does not decrease.  The conversion of the threshold
    is monotone, as both of NumPy's are. *)
Theorem with_replacement_threshold_monotone promote SparseMatrixSimilarity sample
    docs docToPost upvotes threshold1 threshold2 g1 st1 g2 st2 :
  (∀ a b, (a <= b)%Q → (promote a <= promote b)%Q) →
  (threshold1 <= threshold2)%Q →
  outcome (distance_matching_locals promote SparseMatrixSimilarity sample docs docToPost
             upvotes threshold1 true (Some "cosine")) = Ok (g1, st1) →
  outcome (distance_matching_locals promote SparseMatrixSimilarity sample docs docToPost
             upvotes threshold2 true (Some "cosine")) = Ok (g2, st2) →
  similarity_return st2 `sublist_of` similarity_return st1 ∧
  matchedControl st2 `sublist_of` matchedControl st1 ∧
  matchedTreament st2 `sublist_of` matchedTreament st1 ∧
  (countUnmatched st1 ≤ countUnmatched st2)%nat.
Proof.
  intros Hmono Hle%Hmono [Hg1 H1]%locals_Ok [Hg2 H2]%locals_Ok.
  assert (g2 = g1) as -> by congruence.
  apply with_replacement_loop in H1 as (t0 & Ht0 & [Hp1 Hc1 Ht1 Hn1]).
  apply with_replacement_loop in H2 as (t0' & Ht0' & [Hp2 Hc2 Ht2 Hn2]).
  assert (t0' = t0) as -> by congruence.
  assert (similarity_return st2 `sublist_of` similarity_return st1) as Hsub.
  { rewrite Hp1, Hp2. apply omap_sublist. intros x p Hx.
    destruct (sample _ _ !! x) as [i|]; [|done]. simpl in *.
    by eapply pair_with_replacement_mono. }
  split; [done|]. split; [by rewrite Hc1, Hc2, Hsub|].
  split; [by rewrite Ht1, Ht2, Hsub|].
  apply sublist_length in Hsub. lia.
Qed.

(** ** Runs that cannot raise *)

(** A loop whose every iteration returns, given an invariant that may
    speak of the iterations already done, returns. *)
Lemma for_each_prefix_total {S X} (P : list X → S → Prop) (body : S → X → M S) xs :
  (∀ pre x post st, xs = pre ++ x :: post → P pre st →
     ∃ st', outcome (body st x) = Ok st' ∧ P (pre ++ [x]) st') →
  ∀ st, P [] st → ∃ st', outcome (for_each body xs st) = Ok st' ∧ P xs st'.
Proof.
  intros Hstep.
  assert (∀ rest pre st, xs = pre ++ rest → P pre st →
            ∃ st', outcome (for_each body rest st) = Ok st' ∧ P xs st') as Hgen.
  { induction rest as [|x rest IH]; intros pre st Hxs HP; simpl.
    - exists st. rewrite app_nil_r in Hxs. by subst.
    - destruct (Hstep pre x rest st Hxs HP) as (st1 & H1 & HP1).
      destruct (IH (pre ++ [x]) st1) as (st' & H' & HP'); [|done|].
      { by rewrite <- app_assoc. }
      exists st'. by rewrite outcome_bind, H1. }
  intros st HP. by apply (Hgen xs [] st).
Qed.

Lemma range_split n pre x post :
  range n = pre ++ x :: post → x = length pre ∧ (x < n)%nat.
Proof.
  intros H. assert (range n !! length pre = Some x) as Hx.
  { rewrite H. by apply list_lookup_middle. }
  apply lookup_seq in Hx as [-> ?]. done.
Qed.

Lemma candidates_run g idx lookUpControl x i c :
  lookUpControl !! x = Some i → control g !! i = Some c →
  candidates g (Some idx) lookUpControl (Some "cosine") x
  = ([], Ok (sorted_desc (enumerate (idx c)))).
Proof.
  intros Hi Hc. unfold candidates.
  rewrite (decide_True (P := Some "cosine" = Some "cosine")) by done.
  simpl. rewrite Hi. simpl. by rewrite Hc.
Qed.

(** Every original index in a ranked list is a position of the score
    list, and every position occurs. *)
Lemma ranked_index_bound (sims : list Q) j s :
  (j, s) ∈ sorted_desc (enumerate sims) → (j < length sims)%nat.
Proof.
  intros Hin.
  assert (j ∈ (sorted_desc (enumerate sims)).*1) as Hj.
  { apply list_elem_of_fmap. by exists (j, s). }
  rewrite sorted_desc_perm in Hj. unfold enumerate in Hj.
  rewrite (proj1 (enumerate_from_fst 0 sims)) in Hj.
  apply elem_of_seq in Hj. lia.
Qed.

Lemma ranked_index_occurs (sims : list Q) j :
  (j < length sims)%nat → ∃ s, (j, s) ∈ sorted_desc (enumerate sims).
Proof.
  intros Hj.
  assert (j ∈ (sorted_desc (enumerate sims)).*1) as Hin.
  { rewrite sorted_desc_perm. unfold enumerate.
    rewrite (proj1 (enumerate_from_fst 0 sims)). apply elem_of_seq. lia. }
  apply list_elem_of_fmap in Hin as ([j' s] & -> & Hin). by exists s.
Qed.

(** A scan over candidates with valid treatment indices, one of which is
    unclaimed, returns. *)
Lemma skip_matched_total tToPost claimed cands y0 :
  (∀ j s, (j, s) ∈ cands → is_Some (tToPost !! j)) →
  (∃ j s t, (j, s) ∈ cands ∧ tToPost !! j = Some t ∧ claimed !! t = None) →
  ∃ y, outcome (skip_matched tToPost claimed cands y0) = Ok y.
Proof.
  revert y0. induction cands as [|[j s] rest IH]; intros y0 Hvalid Hfree.
  - destruct Hfree as (? & ? & ? & []%elem_of_nil & _).
  - simpl. destruct (Hvalid j s) as [t Ht]; [by left|]. rewrite Ht. simpl.
    destruct (decide (is_Some (claimed !! t))) as [Hc|Hc].
    + destruct (IH (S y0)) as [y Hy].
      * intros j' s' Hin. apply (Hvalid j' s'). by right.
      * destruct Hfree as (j' & s' & t' & [[= -> ->]|Hin]%elem_of_cons & Ht' & Hn).
        -- rewrite Ht in Ht'. injection Ht' as ->. rewrite Hn in Hc. by destruct Hc.
        -- by exists j', s', t'.
      * exists y. destruct (skip_matched tToPost claimed rest (S y0)) as [l r].
        done.
    + by exists y0.
Qed.

(** With distinct treatment ids of which fewer are claimed than there
    are, one is unclaimed. *)
Lemma unclaimed_exists (tToPost : list string) pre st :
  NoDup tToPost → claims_bounded pre st → (length pre < length tToPost)%nat →
  ∃ j t, tToPost !! j = Some t ∧ matched st !! t = None.
Proof.
  intros Hnd [Hcl Hlen] Hlt.
  destruct (decide (Forall (λ t, is_Some (matched st !! t)) tToPost)) as [Hall|Hex].
  - assert (tToPost ⊆+ matchedTreament st) as Hsub.
    { apply NoDup_submseteq; [done|]. intros t Ht. apply Hcl.
      by eapply Forall_forall in Hall. }
    apply submseteq_length in Hsub. lia.
  - apply not_Forall_Exists in Hex; [|apply _].
    apply Exists_exists in Hex as (t & [j Hj]%list_elem_of_lookup & Hn).
    exists j, t. split; [done|]. by apply eq_None_not_Some.
Qed.

(** An iteration on ready data returns when matching is with
    replacement and there is a treatment unit, or without replacement
    while distinct treatment ids outnumber the iterations done. *)
Lemma match_step_total promote g idx lookUpControl threshold replacement pre st x :
  engine_ready g idx lookUpControl →
  (x < length (control g))%nat →
  (0 < length (treatment g))%nat →
  claims_bounded pre st →
  replacement = true ∨
    (NoDup (treatmentToPost g) ∧ (length pre < length (treatmentToPost g))%nat) →
  ∃ st',
    outcome (match_step promote g (Some idx) lookUpControl threshold replacement
               (Some "cosine") st x) = Ok st' ∧
    claims_bounded (pre ++ [x]) st'.
Proof.
  intros [Hlc Hlt Hord Hidx] Hx Hne Hcb Hmode.
  assert (length lookUpControl = length (control g)) as Hlen.
  { rewrite Hord. apply length_seq. }
  destruct (lookup_lt_is_Some_2 lookUpControl x) as [i Hi]; [lia|].
  assert (i < length (control g))%nat as Hi_lt.
  { assert (i ∈ range (length (control g))) as Hin.
    { rewrite <- Hord. by eapply list_elem_of_lookup_2. }
    apply elem_of_seq in Hin. lia. }
  destruct (lookup_lt_is_Some_2 (control g) i) as [c Hc]; [lia|].
  destruct (lookup_lt_is_Some_2 (controlToPost g) i) as [cid Hcid]; [lia|].
  specialize (Hidx c (list_elem_of_lookup_2 _ _ _ Hc)).
  set (closer := sorted_desc (enumerate (idx c))).
  assert (∀ j s, (j, s) ∈ closer → is_Some (treatmentToPost g !! j)) as Hvalid.
  { intros j s Hin%ranked_index_bound. apply lookup_lt_is_Some_2.
    rewrite Hidx in Hin. lia. }
  assert (∃ y, outcome (select g replacement st closer) = Ok y ∧
               is_Some (closer !! y)) as (y & Hy & [[j s] Hcy]).
  { destruct Hmode as [->|[Hnd Hfew]].
    - exists 0%nat. split; [done|].
      destruct (ranked_index_occurs (idx c) 0) as [s Hs]; [rewrite Hidx; lia|].
      apply lookup_lt_is_Some_2. fold closer in Hs.
      apply list_elem_of_lookup in Hs as [r Hr]. apply lookup_lt_Some in Hr. lia.
    - destruct (decide (replacement = true)) as [->|Hrep%not_true_is_false].
      + exists 0%nat. split; [done|].
        destruct (ranked_index_occurs (idx c) 0) as [s Hs]; [rewrite Hidx; lia|].
        apply lookup_lt_is_Some_2. fold closer in Hs.
        apply list_elem_of_lookup in Hs as [r Hr]. apply lookup_lt_Some in Hr. lia.
      + subst replacement. simpl.
        destruct (unclaimed_exists _ _ _ Hnd Hcb Hfew) as (j0 & t0 & Hj0 & Hfree).
        destruct (ranked_index_occurs (idx c) j0) as [s0 Hs0].
        { rewrite Hidx, <- Hlt. by eapply lookup_lt_Some. }
        destruct (skip_matched_total (treatmentToPost g) (matched st) closer 0 Hvalid)
          as [y Hy]; [by exists j0, s0, t0|].
        exists y. split; [done|].
        apply skip_matched_Ok in Hy as (k & j & s & t & -> & Hk & _).
        by exists (j, s). }
  destruct (Hvalid j s) as [tid Htid]; [by eapply list_elem_of_lookup_2|].
  destruct Hcb as [Hcl Hn].
  unfold match_step.
  rewrite outcome_bind, (candidates_run _ _ _ _ _ _ Hi Hc). simpl.
  fold closer. rewrite outcome_bind, Hy, outcome_bind, Hcy. simpl.
  destruct (Qle_bool (promote threshold) s).
  - rewrite outcome_bind, Hi. simpl. rewrite outcome_bind, Hcid. simpl.
    rewrite outcome_bind, Htid. simpl. eexists. split; [done|].
    split; simpl.
    + intros t. destruct (decide (tid = t)) as [->|Hne'].
      * intros _. apply elem_of_app. right. by left.
      * rewrite lookup_insert_ne by done. intros Ht%Hcl.
        apply elem_of_app. by left.
    + rewrite !length_app. simpl. lia.
  - eexists. split; [done|]. split; simpl; [done|].
    rewrite length_app. simpl. lia.
Qed.

Lemma matching_total promote SparseMatrixSimilarity sample g threshold replacement :
  length (controlToPost g) = length (control g) →
  length (treatmentToPost g) = length (treatment g) →
  sample (range (length (control g))) (length (control g))
    ≡ₚ range (length (control g)) →
  (∀ nf c, c ∈ control g →
     length (SparseMatrixSimilarity (treatment g) nf c) = length (treatment g)) →
  (0 < length (treatment g))%nat →
  replacement = true ∨
    (NoDup (treatmentToPost g) ∧
     (length (control g) ≤ length (treatmentToPost g))%nat) →
  ∃ st,
    outcome (matching promote SparseMatrixSimilarity sample g threshold replacement
               (Some "cosine")) = Ok st.
Proof.
  intros Hlc Hlt Hord Hidx Hne Hmode. unfold matching.
  rewrite (decide_True (P := Some "cosine" = Some "cosine")) by done.
  destruct (treatment g !! 0%nat) as [t0|] eqn:Ht0;
    [|apply lookup_ge_None in Ht0; unfold vec in *; lia].
  set (idx := SparseMatrixSimilarity (treatment g) (length t0)).
  set (luc := sample _ _) in *.
  destruct (for_each_prefix_total claims_bounded
              (match_step promote g (Some idx) luc threshold replacement (Some
                  "cosine"))
              (range (length (control g)))) with (st := init_state)
    as (st & Hst & _).
  - intros pre x post st Hsplit Hcb.
    apply range_split in Hsplit as [-> Hx].
    apply (match_step_total promote g idx luc); try done.
    + split; try done. intros c Hc. by apply Hidx.
    + destruct Hmode as [?|[Hnd Hle]]; [by left|right]. split; [done|lia].
  - split; simpl; [|lia]. intros t. rewrite lookup_empty. by intros [].
  - exists st. rewrite outcome_bind, outcome_bind. simpl.
    fold idx. by rewrite outcome_bind, Hst.
Qed.

Lemma distance_matching_total promote SparseMatrixSimilarity sample docs docToPost
    upvotes
    threshold replacement units :
  mapM (unit_at docs docToPost upvotes) (range (length docs)) = Some units →
  (∀ n, sample (range n) n ≡ₚ range n) →
  (∀ nf c, c ∈ control (groups_of units) →
     length (SparseMatrixSimilarity (treatment (groups_of units)) nf c)
     = length (treatment (groups_of units))) →
  (0 < length (treatment (groups_of units)))%nat →
  replacement = true ∨
    (NoDup (treatmentToPost (groups_of units)) ∧
     (length (control (groups_of units))
      ≤ length (treatmentToPost (groups_of units)))%nat) →
  ∃ st,
    outcome (distance_matching_locals promote SparseMatrixSimilarity sample docs
        docToPost
               upvotes threshold replacement (Some "cosine"))
      = Ok (groups_of units, st) ∧
    outcome (distance_matching promote SparseMatrixSimilarity sample docs docToPost
               upvotes threshold replacement (Some "cosine"))
      = Ok (matchedTreament st, matchedControl st).
Proof.
  intros Hunits Hsample Hidx Hne Hmode.
  destruct (groups_of_lengths units) as (Hlc & Hlt & _).
  destruct (matching_total promote SparseMatrixSimilarity sample (groups_of units)
              threshold replacement Hlc Hlt (Hsample _) Hidx Hne Hmode) as [st Hst].
  exists st.
  assert (outcome (distance_matching_locals promote SparseMatrixSimilarity sample docs
                     docToPost upvotes threshold replacement (Some "cosine"))
          = Ok (groups_of units, st)) as Hloc.
  { unfold distance_matching_locals.
    rewrite outcome_bind, (split_groups_run _ _ _ _ Hunits). simpl.
    by rewrite outcome_bind, Hst. }
  split; [done|]. by rewrite distance_matching_locals_result, Hloc.
Qed.

(** X4.  Matching with replacement cannot raise on sound data.  For a
    population all of whose units have a post id and a feedback, with at
    least one treatment unit, a sampler that draws a permutation of the
    control indices and an index that answers each control vector with one
    score per treatment vector, the call returns. *)
Theorem with_replacement_returns promote SparseMatrixSimilarity sample docs
    docToPost upvotes
    threshold units :
  mapM (unit_at docs docToPost upvotes) (range (length docs)) = Some units →
  (∀ n, sample (range n) n ≡ₚ range n) →
  (∀ nf c, c ∈ control (groups_of units) →
     length (SparseMatrixSimilarity (treatment (groups_of units)) nf c)
     = length (treatment (groups_of units))) →
  (∃ u, u ∈ units ∧ ¬ is_control u) →
  ∃ matchedTreament matchedControl,
    outcome (distance_matching promote SparseMatrixSimilarity sample docs docToPost
               upvotes threshold true (Some "cosine"))
      = Ok (matchedTreament, matchedControl).
Proof.
  intros Hunits Hsample Hidx (u & Hu & Hnc).
  destruct (distance_matching_total promote SparseMatrixSimilarity sample docs docToPost
              upvotes threshold true units Hunits Hsample Hidx)
    as (st & _ & Hst); [|by left|by eauto].
  simpl. rewrite length_fmap.
  assert (u ∈ filter (λ u, ¬ is_control u) units) as Hin
    by (by apply list_elem_of_filter).
  destruct (filter _ units); [by apply elem_of_nil in Hin|simpl; lia].
Qed.

(** X5.  Matching without replacement cannot raise on sound data when
    the treatment units have distinct post ids and are at least as many
    as the control units: the scan always finds an unclaimed candidate. *)
Theorem without_replacement_returns promote SparseMatrixSimilarity sample docs docToPost
    upvotes threshold units :
  mapM (unit_at docs docToPost upvotes) (range (length docs)) = Some units →
  (∀ n, sample (range n) n ≡ₚ range n) →
  (∀ nf c, c ∈ control (groups_of units) →
     length (SparseMatrixSimilarity (treatment (groups_of units)) nf c)
     = length (treatment (groups_of units))) →
  NoDup (treatmentToPost (groups_of units)) →
  (0 < length (treatment (groups_of units)))%nat →
  (length (control (groups_of units)) ≤ length (treatment (groups_of units)))%nat →
  ∃ matchedTreament matchedControl,
    outcome (distance_matching promote SparseMatrixSimilarity sample docs docToPost
               upvotes threshold false (Some "cosine"))
      = Ok (matchedTreament, matchedControl).
Proof.
  intros Hunits Hsample Hidx Hnd Hne Hle.
  destruct (distance_matching_total promote SparseMatrixSimilarity sample docs docToPost
              upvotes threshold false units Hunits Hsample Hidx Hne)
    as (st & _ & Hst); [|by eauto].
  right. split; [done|].
  destruct (groups_of_lengths units) as (_ & -> & _). done.
Qed.

(** ** What the returned lists hold *)

Lemma within_groups_step promote g index lookUpControl threshold replacement distance
    st x st' :
  within_groups g st →
  outcome (match_step promote g index lookUpControl threshold replacement distance st x)
    = Ok st' →
  within_groups g st'.
Proof.
  intros [Hc Ht] H. apply match_step_Ok in H as (closer & y & _ & _ & Hres).
  destruct Hres as [j s i cid tid Hcy Hthr Hi Hcid Htid ->|j s Hcy Hthr ->];
    [|done].
  split; simpl; intros p [Hp| ->%list_elem_of_singleton]%elem_of_app; auto;
    by eapply list_elem_of_lookup_2.
Qed.

Lemma matching_within_groups promote SparseMatrixSimilarity sample g threshold
    replacement
    distance st :
  outcome (matching promote SparseMatrixSimilarity sample g threshold replacement
      distance)
    = Ok st →
  within_groups g st.
Proof.
  intros H. apply matching_Ok in H as (index & H).
  eapply for_each_invariant; [| |exact H].
  - intros st1 x st2 _. apply within_groups_step.
  - split; simpl; intros p []%elem_of_nil.
Qed.

Lemma groups_of_control_feedback docs docToPost upvotes xs units p :
  mapM (unit_at docs docToPost upvotes) xs = Some units →
  p ∈ controlToPost (groups_of units) →
  ∃ f, upvotes !! p = Some f ∧ (f == 0)%Q.
Proof.
  simpl. intros Hunits (u & -> & [Hu Hin]%list_elem_of_filter)%list_elem_of_fmap.
  exists (feedback u). split; [by eapply units_feedback|by apply Qeq_bool_iff].
Qed.

Lemma groups_of_treatment_feedback docs docToPost upvotes xs units p :
  mapM (unit_at docs docToPost upvotes) xs = Some units →
  p ∈ treatmentToPost (groups_of units) →
  ∃ f, upvotes !! p = Some f ∧ ¬ (f == 0)%Q.
Proof.
  simpl. intros Hunits (u & -> & [Hu Hin]%list_elem_of_filter)%list_elem_of_fmap.
  exists (feedback u). split; [by eapply units_feedback|].
  intros E%Qeq_bool_iff. by apply Hu.
Qed.

(** X6.  In matching mode every id in the returned control list is the
    post id of a unit with feedback 0, every id in the returned treatment
    list is the post id of a unit with a feedback other than 0, and no id
    is in both lists. *)
Theorem matched_lists_within_groups promote SparseMatrixSimilarity sample docs docToPost
    upvotes threshold replacement d matchedT matchedC :
  outcome (distance_matching promote SparseMatrixSimilarity sample docs docToPost
      upvotes
             threshold replacement (Some d)) = Ok (matchedT, matchedC) →
  (∀ p, p ∈ matchedC → ∃ f, upvotes !! p = Some f ∧ (f == 0)%Q) ∧
  (∀ p, p ∈ matchedT → ∃ f, upvotes !! p = Some f ∧ ¬ (f == 0)%Q) ∧
  (∀ p, ¬ (p ∈ matchedT ∧ p ∈ matchedC)).
Proof.
  rewrite distance_matching_locals_result.
  destruct (outcome (distance_matching_locals promote _ _ _ _ _ _ _ _)) as [[g
      st]|e] eqn:H;
    [|done].
  intros [= <- <-]. apply locals_Ok in H as [Hg H].
  apply split_groups_Ok in Hg as (units & Hunits & ->).
  apply matching_within_groups in H as [Hc Ht].
  assert (∀ p, p ∈ matchedControl st → ∃ f, upvotes !! p = Some f ∧ (f == 0)%Q) as HC.
  { intros p Hp%Hc. by eapply groups_of_control_feedback. }
  assert (∀ p, p ∈ matchedTreament st → ∃ f, upvotes !! p = Some f ∧ ¬ (f == 0)%Q)
      as HT.
  { intros p Hp%Ht. by eapply groups_of_treatment_feedback. }
  split; [done|]. split; [done|].
  intros p [(f & Hf & Hne)%HT (f' & Hf' & Hz)%HC]. congruence.
Qed.

(** X7.  When the control units have distinct post ids and the sampler
    draws a permutation of the control indices, no control id occurs twice
    in the matched control list, with or without replacement. *)
Theorem matched_control_once promote SparseMatrixSimilarity sample docs docToPost
    upvotes
    threshold replacement distance g st :
  (∀ n, sample (range n) n ≡ₚ range n) →
  outcome (distance_matching_locals promote SparseMatrixSimilarity sample docs docToPost
             upvotes threshold replacement distance) = Ok (g, st) →
  NoDup (controlToPost g) →
  NoDup (matchedControl st).
Proof.
  intros Hsample [Hg H]%locals_Ok Hnd.
  apply split_groups_Ok in Hg as (units & _ & ->).
  apply matching_Ok in H as (index & H).
  set (g := groups_of units) in *. set (size := length (control g)) in *.
  set (luc := sample (range size) size) in *.
  apply (for_each_prefix_invariant (accounted g luc)) with (pre := []) in H.
  - destruct H as [_ _ _ _ Hsub]. simpl in Hsub.
    refine (sublist_NoDup _ _ _ Hsub).
    assert (length luc = size) as Hluc.
    { unfold luc. rewrite (Hsample size). apply length_seq. }
    unfold processed. rewrite <- Hluc at 1. rewrite omap_via_order.
    unfold luc. rewrite (Hsample size).
    assert (length (controlToPost g) = size) as <- by apply groups_of_lengths.
    by rewrite omap_lookup_range.
  - intros pre st0 x st1. apply accounted_step.
  - split; simpl; try done; apply sublist_nil_l.
Qed.

(** ** Populations the engine cannot take *)

Lemma split_step_missing docs docToPost upvotes g x :
  (x < length docs)%nat →
  unit_at docs docToPost upvotes x = None →
  split_step docs docToPost upvotes g x = ([], Err KeyError).
Proof.
  unfold split_step, unit_at. intros Hx H.
  destruct (docToPost !! x) as [post|]; [|done]. simpl in *.
  destruct (upvotes !! post) as [f|]; [|done]. simpl in *.
  destruct (lookup_lt_is_Some_2 docs x Hx) as [d Hd]. by rewrite Hd in H.
Qed.

Lemma split_loop_missing docs docToPost upvotes xs pre :
  (∀ x, x ∈ xs → (x < length docs)%nat) →
  mapM (unit_at docs docToPost upvotes) xs = None →
  for_each (split_step docs docToPost upvotes) xs (groups_of pre)
  = ([], Err KeyError).
Proof.
  revert pre. induction xs as [|x xs IH]; intros pre Hlt H; [done|].
  cbn [for_each].
  destruct (unit_at docs docToPost upvotes x) as [u|] eqn:Hu.
  - rewrite (split_step_run _ _ _ _ _ _ Hu). unfold mbind, M_bind.
    rewrite IH; [done| |].
    + intros. apply Hlt. by right.
    + simpl in H. rewrite Hu in H. simpl in H.
      by destruct (mapM (unit_at docs docToPost upvotes) xs).
  - rewrite split_step_missing; [done| |done]. apply Hlt. by left.
Qed.

(** X8.  When some unit of the population has no post id or its post id
    has no feedback, the call raises [KeyError] before it prints anything,
    whatever the distance, threshold and replacement are. *)
Theorem missing_feedback_raises promote SparseMatrixSimilarity sample docs
    docToPost upvotes
    threshold replacement distance :
  mapM (unit_at docs docToPost upvotes) (range (length docs)) = None →
  distance_matching promote SparseMatrixSimilarity sample docs docToPost upvotes
    threshold replacement distance = ([], Err KeyError).
Proof.
  intros H. unfold distance_matching, split_groups.
  change no_groups with (groups_of []).
  rewrite split_loop_missing; [done| |done].
  intros x Hx%elem_of_seq. lia.
Qed.

Lemma filter_all_control units :
  Forall is_control units →
  filter is_control units = units ∧ filter (λ u, ¬ is_control u) units = [].
Proof.
  induction 1 as [|u units Hu _ [IH1 IH2]]; [done|].
  rewrite filter_cons_True, filter_cons_False by naive_solver.
  by rewrite IH1, IH2.
Qed.

(** X9.  When no unit of the population has a feedback other than 0 (an
    empty population included), a run with [distance = "cosine"] prints
    the two group sizes and raises [IndexError]: building the index reads
    the first treatment vector. *)
Theorem no_treatment_unit_raises promote SparseMatrixSimilarity sample docs
    docToPost upvotes
    threshold replacement units :
  mapM (unit_at docs docToPost upvotes) (range (length docs)) = Some units →
  Forall is_control units →
  distance_matching promote SparseMatrixSimilarity sample docs docToPost upvotes
    threshold replacement (Some "cosine")
  = ([PrintTreatmentGroup 0; PrintControlGroup (length docs)], Err IndexError).
Proof.
  intros Hunits Hall. unfold distance_matching.
  rewrite (split_groups_run _ _ _ _ Hunits).
  destruct (filter_all_control units Hall) as [Hsame Hnone].
  assert (length units = length docs) as Hlen.
  { apply length_mapM in Hunits. unfold range in Hunits.
    by rewrite length_seq in Hunits. }
  unfold mbind at 1, M_bind. unfold matching.
  rewrite (decide_True (P := Some "cosine" = Some "cosine")) by done.
  simpl. rewrite Hnone, Hsame, Hlen. done.
Qed.

(** ** Without replacement against with replacement *)

(** A control unit matched without replacement has a best candidate
    that reaches the threshold, so it is matched with replacement too. *)
Lemma without_replacement_step_dominated promote g idx lookUpControl threshold st x
    st' :
  outcome (match_step promote g (Some idx) lookUpControl threshold false (Some
      "cosine") st x)
    = Ok st' →
  ∃ i, lookUpControl !! x = Some i ∧
    (matchedControl st' = matchedControl st ∨
     ∃ p, pair_with_replacement promote g idx threshold i = Some p ∧
          matchedControl st' = matchedControl st ++ [fst p]).
Proof.
  intros H. apply match_step_Ok in H as (closer & y & Hc & Hy & Hres).
  apply candidates_Ok in Hc as (idx' & i & c & _ & [= <-] & Hi & Hc & ->).
  exists i. split; [done|].
  destruct Hres as [j s i' cid tid Hcy Hthr Hi' Hcid Htid ->|j s Hcy Hthr ->];
    [right|by left].
  assert (i' = i) as -> by congruence.
  simpl in Hy.
  apply skip_matched_Ok in Hy as (k & j1 & s1 & t1 & -> & Hk & Ht1 & _ & Hbefore).
  simpl in Hcy.
  assert (∃ j0 s0 tid0,
            sorted_desc (enumerate (idx c)) !! 0%nat = Some (j0, s0) ∧
            treatmentToPost g !! j0 = Some tid0 ∧ (s <= s0)%Q)
    as (j0 & s0 & tid0 & Htop & Htid0 & Hle).
  { destruct k as [|k].
    - exists j, s, tid. split; [done|]. split; [done|apply Qle_refl].
    - destruct (Hbefore 0%nat) as (j0 & s0 & t0 & H0 & Ht0 & _); [lia|].
      exists j0, s0, t0. split; [done|]. split; [done|].
      apply (ranks_before_score (j0, s0) (j, s)).
      eapply (StronglySorted_lookup _ _ 0 (S k));
        [apply (sorted_desc_enumerate_from 0)|lia|done..]. }
  exists (cid, tid0). split; [|done].
  unfold pair_with_replacement, top_candidate.
  rewrite Hc. simpl. rewrite head_lookup, Htop. simpl.
  assert (Qle_bool (promote threshold) s0 = true) as ->.
  { apply Qle_bool_iff. apply Qle_bool_iff in Hthr. by eapply Qle_trans. }
  rewrite Hcid. simpl. by rewrite Htid0.
Qed.

Lemma accounted_loop promote SparseMatrixSimilarity sample g threshold replacement
    distance st :
  outcome (matching promote SparseMatrixSimilarity sample g threshold replacement
      distance)
    = Ok st →
  accounted g (sample (range (length (control g))) (length (control g)))
    (range (length (control g))) st.
Proof.
  intros H. apply matching_Ok in H as (index & H).
  apply (for_each_prefix_invariant
           (accounted g (sample (range (length (control g))) (length (control g)))))
    with (pre := []) in H; [done| |].
  - intros pre st0 x st1. apply accounted_step.
  - split; simpl; try done; apply sublist_nil_l.
Qed.

(** X10.  For the same data, sampler and threshold, every control unit
    matched without replacement is also matched with replacement: the
    matched control list of the run without replacement is a sublist of
    that of the run with replacement, and its unmatched count is at least
    as large. *)
Theorem without_replacement_matches_fewer promote SparseMatrixSimilarity sample docs
    docToPost upvotes threshold g1 st_without g2 st_with :
  outcome (distance_matching_locals promote SparseMatrixSimilarity sample docs docToPost
             upvotes threshold false (Some "cosine")) = Ok (g1, st_without) →
  outcome (distance_matching_locals promote SparseMatrixSimilarity sample docs docToPost
             upvotes threshold true (Some "cosine")) = Ok (g2, st_with) →
  matchedControl st_without `sublist_of` matchedControl st_with ∧
  (countUnmatched st_with ≤ countUnmatched st_without)%nat.
Proof.
  intros [Hg1 H1]%locals_Ok [Hg2 H2]%locals_Ok.
  assert (g2 = g1) as -> by congruence.
  pose proof (accounted_loop _ _ _ _ _ _ _ _ H1) as [Htot1 _ _ _ _].
  pose proof (accounted_loop _ _ _ _ _ _ _ _ H2) as [Htot2 _ _ _ _].
  apply with_replacement_loop in H2 as (t0 & Ht0 & [Hp2 Hc2 _ _]).
  apply matching_cosine_Ok in H1 as (t0' & Ht0' & H1).
  assert (t0' = t0) as -> by congruence.
  apply (for_each_prefix_invariant
           (dominated promote g1 (SparseMatrixSimilarity (treatment g1) (length t0))
              (sample (range (length (control g1))) (length (control g1)))
              threshold)) with (pre := []) in H1.
  - unfold dominated in H1. rewrite app_nil_l in H1. rewrite <- Hp2, <- Hc2 in H1.
    split; [done|]. apply sublist_length in H1. lia.
  - intros pre st0 x st1 Hdom Hstep. unfold dominated in *.
    apply without_replacement_step_dominated in Hstep as (i & Hi & Hstep).
    rewrite omap_app, fmap_app. simpl. rewrite Hi. simpl.
    destruct Hstep as [->|(p & Hp & ->)].
    + by apply sublist_inserts_r.
    + rewrite Hp. simpl. by apply sublist_app.
  - apply sublist_nil_l.
Qed.

(** ** The aggregator on groups it can divide by *)

Lemma count_loop_run returns group n :
  (∀ u, u ∈ group → is_Some (returns !! u)) →
  for_each (count_step returns) group n = ([], Ok (n + count_true returns group)%nat).
Proof.
  intros Hall. destruct (count_loop_cases returns group n)
    as [?|[_ (u & Hu & Hnone)]]; [done|].
  apply Hall in Hu. rewrite Hnone in Hu. by destruct Hu.
Qed.

Lemma count_loop_missing returns group n u :
  u ∈ group → returns !! u = None →
  for_each (count_step returns) group n = ([], Err KeyError).
Proof.
  revert n. induction group as [|v group IH]; intros n Hu Hnone;
    [by apply elem_of_nil in Hu|].
  cbn [for_each]. destruct (returns !! v) as [r|] eqn:Hr.
  - rewrite (count_step_run _ _ _ _ Hr). unfold mbind, M_bind.
    apply elem_of_cons in Hu as [->|Hu]; [congruence|].
    by rewrite IH.
  - unfold count_step. by rewrite Hr.
Qed.

Lemma Qnat_pos n : (0 < n)%nat → (0 < Qnat n)%Q.
Proof. intros Hn. unfold Qnat, Qlt. simpl. lia. Qed.

Lemma Qnat_le a b : (a ≤ b)%nat → (Qnat a <= Qnat b)%Q.
Proof. intros Hab. unfold Qnat, Qle. simpl. lia. Qed.

Lemma rate_bounds c n :
  (0 < n)%nat → (c ≤ n)%nat → (0 <= Qnat c / Qnat n)%Q ∧ (Qnat c / Qnat n <= 1)%Q.
Proof.
  intros Hn Hc. split.
  - apply Qle_shift_div_l; [by apply Qnat_pos|].
    rewrite Qmult_0_l. apply (Qnat_le 0). lia.
  - apply Qle_shift_div_r; [by apply Qnat_pos|].
    rewrite Qmult_1_l. by apply Qnat_le.
Qed.

Lemma rate_pos c n : (0 < c)%nat → (0 < n)%nat → (0 < Qnat c / Qnat n)%Q.
Proof.
  intros Hc Hn. apply Qlt_shift_div_l; [by apply Qnat_pos|].
  rewrite Qmult_0_l. by apply Qnat_pos.
Qed.

Lemma Qpos_nonzero q : (0 < q)%Q → Qeq_bool q 0 = false.
Proof.
  intros Hq. destruct (Qeq_bool q 0) eqn:E; [|done].
  apply Qeq_bool_iff in E. rewrite E in Hq. by apply Qlt_irrefl in Hq.
Qed.

Lemma count_true_le returns group : (count_true returns group ≤ length group)%nat.
Proof. apply length_filter. Qed.

(** X11.  When every listed user has an outcome, the treatment group is
    not empty and at least one control user returned, the aggregator
    returns after printing three lines: the share of treatment users who
    returned, the share of control users who returned, and their relative
    difference (P_t - P_c) / P_c.  Both shares lie between 0 and 1, and
    the control share is positive. *)
Theorem return_rate_returns treatment control returns :
  (∀ u, u ∈ control ++ treatment → is_Some (returns !! u)) →
  treatment ≠ [] →
  (0 < count_true returns control)%nat →
  ∃ pT pC,
    pT = (Qnat (count_true returns treatment) / Qnat (length treatment))%Q ∧
    pC = (Qnat (count_true returns control) / Qnat (length control))%Q ∧
    return_rate treatment control returns
    = ([PrintProbTreatment pT; PrintProbControl pC;
        PrintRelativeIncrease ((pT - pC) / pC)], Ok tt) ∧
    (0 <= pT)%Q ∧ (pT <= 1)%Q ∧ (0 < pC)%Q ∧ (pC <= 1)%Q.
Proof.
  intros Hall Hne Hret. eexists _, _. split; [done|]. split; [done|].
  pose proof (count_true_le returns control) as Hcl.
  pose proof (count_true_le returns treatment) as Htl.
  assert (0 < length treatment)%nat as Hlt by (destruct treatment; simpl; [done|lia]).
  assert (0 < length control)%nat as Hlc by lia.
  destruct (rate_bounds _ _ Hlt Htl) as [HT0 HT1].
  destruct (rate_bounds _ _ Hlc Hcl) as [_ HC1].
  pose proof (rate_pos _ _ Hret Hlc) as HC0.
  split; [|done].
  unfold return_rate.
  rewrite (bind_Ok _ _ _ _ (count_loop_run returns control 0
    (λ u Hu, Hall u (proj2 (elem_of_app _ _ _) (or_introl Hu))))).
  rewrite (bind_Ok _ _ _ _ (count_loop_run returns treatment 0
    (λ u Hu, Hall u (proj2 (elem_of_app _ _ _) (or_intror Hu))))).
  rewrite (bind_Ok _ _ _ _ (fdiv_nonzero _ _ (Qpos_nonzero _ (Qnat_pos _ Hlt)))).
  rewrite (bind_Ok _ _ _ _ (fdiv_nonzero _ _ (Qpos_nonzero _ (Qnat_pos _ Hlc)))).
  rewrite (bind_Ok _ _ _ _ (fdiv_nonzero _ _
    (Qpos_nonzero _ (Qnat_pos (length treatment + length control) ltac:(lia))))).
  rewrite (bind_Ok (print _) _ _ _ eq_refl), (bind_Ok (print _) _ _ _ eq_refl).
  rewrite (bind_Ok _ _ _ _ (fdiv_nonzero _ _ (Qpos_nonzero _ HC0))).
  done.
Qed.

(** X12.  When a listed user has no outcome in the store, the
    aggregator raises [KeyError] while counting, before it prints
    anything. *)
Theorem return_rate_missing_outcome treatment control returns u :
  u ∈ control ++ treatment → returns !! u = None →
  return_rate treatment control returns = ([], Err KeyError).
Proof.
  intros Hu Hnone. unfold return_rate.
  destruct (count_loop_cases returns control 0) as [Hc|[Hc _]].
  - rewrite (bind_Ok _ _ _ _ Hc).
    apply elem_of_app in Hu as [Hu|Hu].
    + rewrite (count_loop_missing _ _ _ _ Hu Hnone) in Hc. discriminate.
    + by rewrite (bind_Err _ _ _ _ (count_loop_missing _ _ 0 _ Hu Hnone)).
  - by rewrite (bind_Err _ _ _ _ Hc).
Qed.

Lemma outcome_fdiv_bind {B} a b (f : Q → M B) :
  outcome (fdiv a b ≫= f) =
  if Qeq_bool b 0 then Err ZeroDivisionError else outcome (f (a / b)%Q).
Proof. rewrite outcome_bind. unfold fdiv. by destruct (Qeq_bool b 0). Qed.

Lemma outcome_print_bind {B} ev (f : unit → M B) :
  outcome (print ev ≫= f) = outcome (f tt).
Proof. by rewrite outcome_bind. Qed.

(** With an outcome for every listed user the aggregator ends in one of
    two ways. *)
Lemma return_rate_covered treatment control returns :
  (∀ u, u ∈ control ++ treatment → is_Some (returns !! u)) →
  outcome (return_rate treatment control returns) = Ok tt ∨
  outcome (return_rate treatment control returns) = Err ZeroDivisionError.
Proof.
  intros Hall. unfold return_rate.
  rewrite (bind_Ok _ _ _ _ (count_loop_run returns control 0
    (λ u Hu, Hall u (proj2 (elem_of_app _ _ _) (or_introl Hu))))).
  rewrite (bind_Ok _ _ _ _ (count_loop_run returns treatment 0
    (λ u Hu, Hall u (proj2 (elem_of_app _ _ _) (or_intror Hu))))).
  cbn [outcome snd].
  rewrite outcome_fdiv_bind. destruct (Qeq_bool _ 0); [by right|].
  rewrite outcome_fdiv_bind. destruct (Qeq_bool _ 0); [by right|].
  rewrite outcome_fdiv_bind. destruct (Qeq_bool _ 0); [by right|].
  rewrite !outcome_print_bind.
  rewrite outcome_fdiv_bind. destruct (Qeq_bool _ 0); [by right|].
  by left.
Qed.

(** ** The readers *)

Lemma reader_bind_Loaded {A B} (m : Reader.result A) (f : A → Reader.result B) b :
  m ≫= f = Reader.Loaded b → ∃ a, m = Reader.Loaded a ∧ f a = Reader.Loaded b.
Proof. destruct m as [a|e]; [by exists a|done]. Qed.

Lemma reader_get_Loaded {A} e (o : option A) a :
  Reader.get e o = Reader.Loaded a → o = Some a.
Proof. destruct o; simpl; congruence. Qed.

Lemma reader_for_each_invariant {S X} (P : list X → S → Prop)
    (body : S → X → Reader.result S) :
  (∀ pre st x st', P pre st → body st x = Reader.Loaded st' → P (pre ++ [x]) st') →
  ∀ xs pre st st',
    P pre st → Reader.for_each body xs st = Reader.Loaded st' → P (pre ++ xs) st'.
Proof.
  intros Hstep. induction xs as [|x xs IH]; intros pre st st' HP H; simpl in H.
  - injection H as <-. by rewrite app_nil_r.
  - apply reader_bind_Loaded in H as (st1 & H1 & H).
    rewrite cons_middle, app_assoc. eapply IH; [|exact H]. by eapply Hstep.
Qed.

Lemma posts_step_Loaded float st line st' :
  Reader.posts_step float st line = Reader.Loaded st' →
  ∃ post field1 votes field2,
    Reader.split Reader.comma line !! 0%nat = Some post ∧
    Reader.split Reader.comma line !! 1%nat = Some field1 ∧
    float field1 = Some votes ∧
    Reader.split Reader.comma line !! 2%nat = Some field2 ∧
    st' = (<[post := votes]> (fst st), <[post := field2]> (snd st)).
Proof.
  unfold Reader.posts_step. intros H.
  apply reader_bind_Loaded in H as (field1 & H1 & H).
  apply reader_bind_Loaded in H as (votes & Hv & H).
  apply reader_bind_Loaded in H as (post & H0 & H).
  apply reader_bind_Loaded in H as (field2 & H2 & H).
  apply reader_get_Loaded in H1, Hv, H0, H2. injection H as <-.
  by exists post, field1, votes, field2.
Qed.

Lemma get_posts_information_Loaded float file upvotes returns :
  Reader.get_posts_information float file = Reader.Loaded (upvotes, returns) →
  ∃ lines,
    Reader.for_each (Reader.posts_step float) lines (∅, ∅)
    = Reader.Loaded (upvotes, returns).
Proof.
  unfold Reader.get_posts_information. intros H.
  apply reader_bind_Loaded in H as (text & _ & H).
  apply reader_bind_Loaded in H as (data1 & _ & H).
  apply reader_bind_Loaded in H as (data2 & _ & H).
  by exists data2.
Qed.

(** The two dictionaries of [get_posts_information] have the same
    keys. *)
Lemma posts_same_keys float file upvotes returns :
  Reader.get_posts_information float file = Reader.Loaded (upvotes, returns) →
  ∀ post, is_Some (upvotes !! post) ↔ is_Some (returns !! post).
Proof.
  intros (lines & H)%get_posts_information_Loaded.
  refine (reader_for_each_invariant
            (λ _ st, ∀ post, is_Some (fst st !! post) ↔ is_Some (snd st !! post))
            (Reader.posts_step float) _ lines [] (∅, ∅) (upvotes, returns) _ H).
  - intros _ [up ret] line st' Hinv
      (post & f1 & v & f2 & _ & _ & _ & _ & ->)%posts_step_Loaded.
    simpl in *. intros p. destruct (decide (post = p)) as [->|Hne].
    + by rewrite !lookup_insert_eq.
    + rewrite !lookup_insert_ne by done. apply Hinv.
  - intros post. simpl. rewrite !lookup_empty. split; by intros [].
Qed.

(** X13.  Every post id to which [get_posts_information] gives a
    feedback it also gives an outcome, and conversely: the two
    dictionaries it returns have the same keys. *)
Theorem posts_information_same_keys float file upvotes returns :
  Reader.get_posts_information float file = Reader.Loaded (upvotes, returns) →
  dom upvotes = dom returns.
Proof.
  intros H. apply set_eq. intros post. rewrite !elem_of_dom.
  by apply (posts_same_keys float file).
Qed.

(** The ids [distance_matching] returns, in either mode, have a
    feedback. *)
Lemma distance_matching_ids_known promote SparseMatrixSimilarity sample docs docToPost
    upvotes threshold replacement distance matchedT matchedC :
  outcome (distance_matching promote SparseMatrixSimilarity sample docs docToPost
      upvotes
             threshold replacement distance) = Ok (matchedT, matchedC) →
  ∀ u, u ∈ matchedC ++ matchedT → is_Some (upvotes !! u).
Proof.
  unfold distance_matching. rewrite outcome_bind.
  destruct (outcome (split_groups docs docToPost upvotes)) as [g|e] eqn:Hg; [|done].
  apply split_groups_Ok in Hg as (units & Hunits & ->).
  assert (∀ u, u ∈ controlToPost (groups_of units) ++ treatmentToPost (groups_of units)
               → is_Some (upvotes !! u)) as Hgroups.
  { intros u [Hu|Hu]%elem_of_app.
    - by destruct (groups_of_control_feedback _ _ _ _ _ _ Hunits Hu) as (f & -> & _).
    - by destruct (groups_of_treatment_feedback _ _ _ _ _ _ Hunits Hu) as (f & -> &
        _). }
  destruct distance as [d|].
  - rewrite outcome_bind.
    destruct (outcome (matching promote _ _ _ _ _ _)) as [st|e] eqn:Hst; [|done].
    intros [= <- <-] u Hu. apply matching_within_groups in Hst as [Hc Ht].
    apply Hgroups. apply elem_of_app in Hu as [Hu%Hc|Hu%Ht]; apply elem_of_app; auto.
  - intros [= <- <-] u Hu. apply Hgroups.
    apply elem_of_app in Hu as [Hu|Hu]; apply elem_of_app; auto.
Qed.

(** X14.  The three functions chained as the notebook chains them: with
    the feedback and the outcomes read by one call of
    [get_posts_information], the lists [distance_matching] returns (in
    baseline or in matching mode) never make [return_rate] raise
    [KeyError]: it returns, or it raises [ZeroDivisionError]. *)
Theorem pipeline_outcomes_known float file upvotes returns promote
    SparseMatrixSimilarity
    sample docs docToPost threshold replacement distance matchedT matchedC :
  Reader.get_posts_information float file = Reader.Loaded (upvotes, returns) →
  outcome (distance_matching promote SparseMatrixSimilarity sample docs docToPost
      upvotes
             threshold replacement distance) = Ok (matchedT, matchedC) →
  (∀ u, u ∈ matchedC ++ matchedT → is_Some (returns !! u)) ∧
  (outcome (return_rate matchedT matchedC returns) = Ok tt ∨
   outcome (return_rate matchedT matchedC returns) = Err ZeroDivisionError).
Proof.
  intros Hread Hrun.
  assert (∀ u, u ∈ matchedC ++ matchedT → is_Some (returns !! u)) as Hall.
  { intros u Hu. apply (posts_same_keys float file upvotes returns Hread).
    by eapply distance_matching_ids_known. }
  split; [done|]. by apply return_rate_covered.
Qed.

(** ** Reading a well-formed posts file *)

Lemma split_free sep s : free_of sep s → Reader.split sep s = [s].
Proof.
  induction s as [|a s IH]; simpl; [done|]. intros [Hne Hfree].
  rewrite (proj2 (Ascii.eqb_neq a sep) Hne). by rewrite IH.
Qed.

Lemma split_at sep a b :
  free_of sep a →
  Reader.split sep (a +:+ String sep b) = a :: Reader.split sep b.
Proof.
  induction a as [|c a IH]; simpl.
  - intros _. by rewrite Ascii.eqb_refl.
  - intros [Hne Hfree]. rewrite (proj2 (Ascii.eqb_neq c sep) Hne). by rewrite IH.
Qed.

Lemma free_of_app c a b : free_of c a → free_of c b → free_of c (a +:+ b).
Proof. induction a as [|x a IH]; simpl; [done|]. intros [? ?] ?. auto. Qed.

Lemma pop_last_snoc {A} (l : list A) a : Reader.pop_last (l ++ [a]) = Reader.Loaded l.
Proof.
  unfold Reader.pop_last. rewrite removelast_last.
  by destruct l.
Qed.

Lemma record_line_fields float r :
  well_formed_record float r →
  Reader.split Reader.comma (record_line r) = [fst (fst r); snd (fst r); snd r] ∧
  free_of Reader.newline (record_line r).
Proof.
  destruct r as [[k f] o]. intros (Hk & Hk' & Hf & Hf' & Ho & Ho' & _).
  simpl in *. unfold record_line. simpl. split.
  - by rewrite split_at, split_at, split_free.
  - apply free_of_app; [done|]. split; [done|].
    apply free_of_app; [done|]. by split.
Qed.

Lemma posts_text_lines float header rows rest :
  free_of Reader.newline header → free_of Reader.newline rest →
  Forall (well_formed_record float) rows →
  Reader.split Reader.newline (posts_text header rows rest)
  = header :: (record_line <$> rows) ++ [rest].
Proof.
  intros Hh Hr Hrows. unfold posts_text. rewrite split_at by done. f_equal.
  induction Hrows as [|r rows Hwf _ IH]; simpl.
  - by apply split_free.
  - rewrite split_at; [by rewrite IH|].
    by destruct (record_line_fields float r Hwf).
Qed.

Lemma posts_step_run float st r :
  well_formed_record float r →
  Reader.posts_step float st (record_line r)
  = Reader.Loaded
      (match float (snd (fst r)) with
       | Some votes => <[fst (fst r) := votes]> (fst st)
       | None => fst st
       end,
       <[fst (fst r) := snd r]> (snd st)).
Proof.
  intros Hwf. destruct (record_line_fields float r Hwf) as [Hfields _].
  destruct Hwf as (_ & _ & _ & _ & _ & _ & [v Hv]).
  unfold Reader.posts_step. rewrite Hfields. simpl. by rewrite Hv.
Qed.

Lemma posts_loop_run float rows st :
  Forall (well_formed_record float) rows →
  Reader.for_each (Reader.posts_step float) (record_line <$> rows) st
  = Reader.Loaded
      (foldl (λ st r,
                (match float (snd (fst r)) with
                 | Some votes => <[fst (fst r) := votes]> (fst st)
                 | None => fst st
                 end,
                 <[fst (fst r) := snd r]> (snd st)))
             st rows).
Proof.
  intros Hrows. revert st. induction Hrows as [|r rows Hwf _ IH]; intros st; [done|].
  rewrite fmap_cons. cbn [Reader.for_each foldl].
  rewrite (posts_step_run float st r Hwf). apply IH.
Qed.

(** X15.  What [get_posts_information] takes from a file: the first line
    is skipped as a header, every record that ends with a newline is read
    (a later record of a post id replaces an earlier one), and the text
    after the last newline is dropped, so a last record without a final
    newline is lost. *)
Theorem get_posts_information_reads float header rows rest :
  free_of Reader.newline header → free_of Reader.newline rest →
  Forall (well_formed_record float) rows →
  Reader.get_posts_information float (Some (posts_text header rows rest))
  = Reader.Loaded (posts_of float rows).
Proof.
  intros Hh Hr Hrows. unfold Reader.get_posts_information. simpl.
  rewrite (posts_text_lines float) by done. simpl.
  rewrite pop_last_snoc. simpl. by apply posts_loop_run.
Qed.

(** ** Reading the covariates *)

Lemma reader_for_range_invariant {S} (P : nat → S → Prop)
    (body : S → nat → Reader.result S) n :
  (∀ k st st', (k < n)%nat → P k st → body st k = Reader.Loaded st' → P
      (Datatypes.S k) st') →
  ∀ st st', P 0%nat st → Reader.for_each body (range n) st = Reader.Loaded st' →
    P n st'.
Proof.
  intros Hstep.
  assert (∀ m a st st', (a + m = n)%nat → P a st →
            Reader.for_each body (seq a m) st = Reader.Loaded st' → P n st') as Hgen.
  { induction m as [|m IH]; intros a st st' Ham HP H; simpl in H.
    - injection H as <-. by replace n with a by lia.
    - apply reader_bind_Loaded in H as (st1 & H1 & H).
      apply (IH (Datatypes.S a) st1 st'); [lia| |done].
      apply (Hstep a st); [lia|done..]. }
  intros st st' HP H. by apply (Hgen n 0%nat st st').
Qed.

Lemma covariates_step_Loaded float st line st' :
  Reader.covariates_step float st line = Reader.Loaded st' →
  ∃ post vals,
    line_post line = Some post ∧ line_values float line = Some vals ∧
    st' = Reader.mkCovariates (Reader.cov_docs st ++ [Reader.Raw <$> vals])
            (<[Reader.cov_count st := post]> (Reader.cov_docToPost st))
            (<[post := Reader.cov_count st]> (Reader.cov_postToDoc st))
            (S (Reader.cov_count st)).
Proof.
  unfold Reader.covariates_step. intros H.
  apply reader_bind_Loaded in H as (post & Hp & H).
  apply reader_bind_Loaded in H as (vals & Hv & H).
  apply reader_get_Loaded in Hp, Hv. injection H as <-.
  by exists post, vals.
Qed.

Lemma covariates_read_step float pre st line st' :
  covariates_read float pre st →
  Reader.covariates_step float st line = Reader.Loaded st' →
  covariates_read float (pre ++ [line]) st'.
Proof.
  intros [Hcount (raws & Hdocs & Hraws) Hd2p Hp2d Hlatest]
    (post & vals & Hpost & Hvals & ->)%covariates_step_Loaded.
  assert (∀ i p, Reader.cov_docToPost st !! i = Some p → (i < length pre)%nat) as Hdom.
  { intros i p Hi. rewrite Hd2p in Hi.
    destruct (pre !! i) as [l|] eqn:Hl; [|done]. by eapply lookup_lt_Some. }
  split; simpl.
  - rewrite length_app. simpl. lia.
  - exists (raws ++ [vals]). split.
    + by rewrite fmap_app, Hdocs.
    + apply Forall2_app; [done|]. by constructor.
  - intros i. rewrite Hcount. destruct (decide (length pre = i)) as [<-|Hne].
    + rewrite lookup_insert_eq, list_lookup_middle by done. by simpl.
    + rewrite lookup_insert_ne by done. rewrite Hd2p.
      destruct (decide (i < length pre)%nat).
      * by rewrite lookup_app_l.
      * rewrite (lookup_ge_None_2 pre) by lia.
        rewrite lookup_ge_None_2; [done|]. rewrite length_app. simpl. lia.
  - intros p i. rewrite Hcount. destruct (decide (post = p)) as [->|Hne].
    + rewrite lookup_insert_eq. intros [= <-]. by rewrite lookup_insert_eq.
    + rewrite lookup_insert_ne by done. intros Hi%Hp2d.
      rewrite lookup_insert_ne; [done|]. apply Hdom in Hi. lia.
  - intros i p. rewrite Hcount. destruct (decide (length pre = i)) as [<-|Hne].
    + rewrite lookup_insert_eq. intros [= <-]. exists (length pre).
      by rewrite lookup_insert_eq.
    + rewrite lookup_insert_ne by done. intros Hi.
      destruct (decide (post = p)) as [->|Hne'].
      * exists (length pre). rewrite lookup_insert_eq. split; [done|].
        apply Hdom in Hi. lia.
      * rewrite lookup_insert_ne by done. by apply Hlatest.
Qed.

Lemma tag_row_Loaded num_features vals row :
  Reader.tag_row num_features (Reader.Raw <$> vals) = Reader.Loaded row →
  tagged_row num_features vals row.
Proof.
  unfold Reader.tag_row. intros H.
  apply (reader_for_range_invariant
           (λ k row, length row = length vals ∧ (k ≤ length vals)%nat ∧
              ∀ i v, vals !! i = Some v →
                row !! i = Some (if decide (i < k)%nat
                                 then Reader.Tagged i (Reader.Raw v)
                                 else Reader.Raw v))) in H.
  - by destruct H as (? & ? & ?).
  - intros k row0 row1 _ (Hlen & Hk & Hcells) Hstep.
    unfold Reader.tag_step in Hstep.
    apply reader_bind_Loaded in Hstep as (c & Hc%reader_get_Loaded & [= <-]).
    assert (k < length vals)%nat as Hlt.
    { rewrite <- Hlen. by eapply lookup_lt_Some. }
    destruct (lookup_lt_is_Some_2 vals k Hlt) as [vk Hvk].
    pose proof (Hcells k vk Hvk) as Hck.
    rewrite decide_False in Hck by lia. assert (c = Reader.Raw vk) as -> by congruence.
    split; [by rewrite length_insert|]. split; [lia|].
    intros i v Hv. destruct (decide (k = i)) as [<-|Hne].
    + rewrite list_lookup_insert_eq by lia. rewrite decide_True by lia. congruence.
    + rewrite list_lookup_insert_ne by done. rewrite (Hcells i v Hv).
      destruct (decide (i < k)%nat), (decide (i < S k)%nat); try done; lia.
  - split; [by rewrite length_fmap|]. split; [lia|].
    intros i v Hv. rewrite list_lookup_fmap, Hv. simpl.
    destruct (decide (i < 0)%nat); [lia|done].
Qed.

Lemma tag_rows_Loaded num_features (raws : list (list Q)) docs :
  Reader.for_each
    (λ docs j,
       row ← Reader.get Reader.IndexError (docs !! j);
       row' ← Reader.tag_row num_features row;
       mret (<[j := row']> docs))
    (range (length (fmap (M := list) Reader.Raw <$> raws)))
    (fmap (M := list) Reader.Raw <$> raws)
  = Reader.Loaded docs →
  length docs = length raws ∧
  ∀ r vals, raws !! r = Some vals →
    ∃ row, docs !! r = Some row ∧ tagged_row num_features vals row.
Proof.
  intros H.
  apply (reader_for_range_invariant
           (λ j (docs' : list (list Reader.cell)),
              length docs' = length raws ∧
              ∀ r vals, raws !! r = Some vals →
                ∃ row, docs' !! r = Some row ∧
                  if decide (r < j)%nat then tagged_row num_features vals row
                  else row = Reader.Raw <$> vals)) in H.
  - destruct H as [Hlen Hrows]. split; [done|].
    intros r vals Hr. destruct (Hrows r vals Hr) as (row & Hrow & Htag).
    exists row. split; [done|].
    rewrite decide_True in Htag; [done|].
    rewrite length_fmap. by eapply lookup_lt_Some.
  - intros j docs0 docs1 _ [Hlen Hrows] Hstep.
    apply reader_bind_Loaded in Hstep as (row & Hrow%reader_get_Loaded & Hstep).
    apply reader_bind_Loaded in Hstep as (row' & Htag & [= <-]).
    assert (j < length raws)%nat as Hj.
    { rewrite <- Hlen. by eapply lookup_lt_Some. }
    destruct (lookup_lt_is_Some_2 raws j Hj) as [vj Hvj].
    destruct (Hrows j vj Hvj) as (row0 & Hrow0 & Hraw).
    rewrite decide_False in Hraw by lia.
    assert (row = Reader.Raw <$> vj) as -> by congruence.
    apply tag_row_Loaded in Htag.
    split; [by rewrite length_insert|].
    intros r vals Hr. destruct (decide (j = r)) as [<-|Hne].
    + exists row'. rewrite list_lookup_insert_eq by lia. split; [done|].
      rewrite decide_True by lia. congruence.
    + destruct (Hrows r vals Hr) as (row1 & Hrow1 & Hcase).
      exists row1. rewrite list_lookup_insert_ne by done. split; [done|].
      destruct (decide (r < j)%nat), (decide (r < S j)%nat); try done; lia.
  - split; [by rewrite length_fmap|].
    intros r vals Hr. exists (Reader.Raw <$> vals).
    rewrite list_lookup_fmap, Hr. split; [done|].
    destruct (decide (r < 0)%nat); [lia|done].
Qed.

(** What a returning [get_covariates] has read and built. *)
Lemma get_covariates_Loaded float file docs docToPost num_features postToDoc :
  Reader.get_covariates float file
  = Reader.Loaded (docs, docToPost, num_features, postToDoc) →
  ∃ text lines st (raws : list (list Q)),
    file = Some text ∧
    Reader.pop_last (Reader.split Reader.newline text) = Reader.Loaded lines ∧
    covariates_read float lines st ∧
    docToPost = Reader.cov_docToPost st ∧ postToDoc = Reader.cov_postToDoc st ∧
    Forall2 (λ line vals, line_values float line = Some vals) lines raws ∧
    (∃ first, raws !! 0%nat = Some first ∧ num_features = length first) ∧
    length docs = length raws ∧
    ∀ r vals, raws !! r = Some vals →
      ∃ row, docs !! r = Some row ∧ tagged_row num_features vals row.
Proof.
  unfold Reader.get_covariates. intros H.
  apply reader_bind_Loaded in H as (text & ->%reader_get_Loaded & H).
  apply reader_bind_Loaded in H as (lines & Hlines & H).
  apply reader_bind_Loaded in H as (st & Hloop & H).
  apply reader_bind_Loaded in H as (first & Hfirst%reader_get_Loaded & H).
  apply reader_bind_Loaded in H as (docs' & Htag & [= <- <- <- <-]).
  assert (covariates_read float lines st) as Hread.
  { refine (reader_for_each_invariant (covariates_read float) _
              (covariates_read_step float) lines [] _ st _ Hloop).
    split; simpl; try done.
    exists []. split; [done|constructor]. }
  pose proof Hread as [_ (raws & Hdocs & Hraws) _ _ _].
  rewrite Hdocs in Htag, Hfirst.
  apply tag_rows_Loaded in Htag as [Hlen Hrows].
  exists text, lines, st, raws. repeat (split; [done|]).
  split; [|done].
  rewrite list_lookup_fmap in Hfirst.
  destruct (raws !! 0%nat) as [first'|]; [|done].
  injection Hfirst as <-. exists first'. by rewrite length_fmap.
Qed.

Lemma enumerate_from_lookup {A} k (l : list A) i a :
  l !! i = Some a → enumerate_from k l !! i = Some ((k + i)%nat, a).
Proof.
  revert k i. induction l as [|b l IH]; intros k [|i] H; simpl in *; try done.
  - injection H as <-. by rewrite Nat.add_0_r.
  - rewrite (IH (S k) i H). f_equal. f_equal. lia.
Qed.

Lemma enumerate_from_length {A} k (l : list A) :
  length (enumerate_from k l) = length l.
Proof. revert k. induction l as [|a l IH]; intros k; simpl; [done|]. by rewrite IH. Qed.

(** A row all of whose cells were paired is a covariate vector. *)
Lemma tagged_row_vec num_features vals row :
  tagged_row num_features vals row → length vals = num_features →
  Reader.row_vec row = Some (enumerate vals).
Proof.
  intros [Hlen _ Hcells] Hnf. unfold Reader.row_vec. apply mapM_Some.
  apply Forall2_same_length_lookup. split.
  - unfold enumerate. by rewrite Hlen, enumerate_from_length.
  - intros i c [j v] Hc Hjv.
    assert (i < length vals)%nat as Hi by (rewrite <- Hlen; by eapply lookup_lt_Some).
    destruct (lookup_lt_is_Some_2 vals i Hi) as [vi Hvi].
    rewrite (Hcells i vi Hvi), decide_True in Hc by lia. injection Hc as <-.
    unfold enumerate in Hjv. rewrite (enumerate_from_lookup 0 _ _ _ Hvi) in Hjv.
    by injection Hjv as <- <-.
Qed.

Lemma split_nonempty sep s : Reader.split sep s ≠ [].
Proof.
  destruct s as [|c s]; simpl; [done|].
  destruct (Ascii.eqb c sep); [done|]. by destruct (Reader.split sep s).
Qed.

Lemma covariates_docToPost_dom float lines st (docs : list (list Reader.cell)) :
  covariates_read float lines st → length docs = length lines →
  ∀ i, is_Some (Reader.cov_docToPost st !! i) ↔ (i < length docs)%nat.
Proof.
  intros [_ _ Hd2p _ _] Hlen i. rewrite Hd2p. split.
  - intros [p Hp]. destruct (lines !! i) as [l|] eqn:Hl; [|done].
    apply lookup_lt_Some in Hl. lia.
  - intros Hi. destruct (lookup_lt_is_Some_2 lines i) as [l Hl]; [lia|].
    rewrite Hl. simpl. unfold line_post.
    apply last_is_Some, split_nonempty.
Qed.

(** X16.  The two index dictionaries of [get_covariates].  [docToPost]
    is defined exactly on the positions of [docs] and gives each position
    the last field of its line.  [postToDoc] sends a post id back to a
    position that holds it, the last one when the id occurs on several
    lines; so the two are inverse to each other when the post ids are
    distinct. *)
Theorem get_covariates_index_maps float file docs docToPost num_features postToDoc :
  Reader.get_covariates float file
  = Reader.Loaded (docs, docToPost, num_features, postToDoc) →
  (∀ i, is_Some (docToPost !! i) ↔ (i < length docs)%nat) ∧
  (∀ p i, postToDoc !! p = Some i → docToPost !! i = Some p) ∧
  (∀ i p, docToPost !! i = Some p →
     ∃ i', postToDoc !! p = Some i' ∧ (i ≤ i')%nat ∧ docToPost !! i' = Some p) ∧
  ∃ text lines,
    file = Some text ∧
    Reader.pop_last (Reader.split Reader.newline text) = Reader.Loaded lines ∧
    length docs = length lines ∧
    ∀ i line, lines !! i = Some line → docToPost !! i = line_post line.
Proof.
  intros (text & lines & st & raws & -> & Hlines & Hread & -> & -> & Hraws & _ &
          Hlen & _)%get_covariates_Loaded.
  pose proof Hread as [Hcount _ Hd2p Hp2d Hlatest].
  apply Forall2_length in Hraws.
  split; [|split; [exact Hp2d|split]].
  - apply (covariates_docToPost_dom float lines st); [done|lia].
  - intros i p Hi. destruct (Hlatest i p Hi) as (i' & Hi' & Hle).
    exists i'. split; [done|]. split; [done|]. by apply Hp2d.
  - exists text, lines. split; [done|]. split; [done|]. split; [lia|].
    intros i line Hl. by rewrite Hd2p, Hl.
Qed.

(** X17.  The rows of [get_covariates].  [num_features] is the number
    of values of the first line.  The call returns only if no line has
    fewer values; each row then holds its line's values in order, the
    first [num_features] of them paired with their index and any further
    ones left as bare floats.  A row with exactly [num_features] values is
    a covariate vector of (index, value) pairs. *)
Theorem get_covariates_rows float file docs docToPost num_features postToDoc :
  Reader.get_covariates float file
  = Reader.Loaded (docs, docToPost, num_features, postToDoc) →
  ∃ text lines (raws : list (list Q)),
    file = Some text ∧
    Reader.pop_last (Reader.split Reader.newline text) = Reader.Loaded lines ∧
    Forall2 (λ line vals, line_values float line = Some vals) lines raws ∧
    length docs = length raws ∧
    (∃ first, raws !! 0%nat = Some first ∧ num_features = length first) ∧
    ∀ r vals, raws !! r = Some vals →
      ∃ row, docs !! r = Some row ∧
        (num_features ≤ length vals)%nat ∧
        length row = length vals ∧
        (∀ i v, vals !! i = Some v →
           row !! i = Some (if decide (i < num_features)%nat
                            then Reader.Tagged i (Reader.Raw v)
                            else Reader.Raw v)) ∧
        (length vals = num_features → Reader.row_vec row = Some (enumerate vals)).
Proof.
  intros (text & lines & st & raws & -> & Hlines & _ & _ & _ & Hraws & Hfirst &
          Hlen & Hrows)%get_covariates_Loaded.
  exists text, lines, raws. repeat (split; [done|]).
  intros r vals Hr. destruct (Hrows r vals Hr) as (row & Hrow & Htag).
  exists row. split; [done|]. pose proof Htag as [Hl Hn Hc].
  repeat (split; [done|]). by apply tagged_row_vec.
Qed.

(** X18.  The output of [get_covariates] is a population the engine can
    split: when every row is a covariate vector and every post id read
    has a feedback, the split of [distance_matching] finds a post id and
    a feedback for every unit and returns the two groups. *)
Theorem loaded_population_splits float file cells docToPost num_features postToDoc
    docs upvotes :
  Reader.get_covariates float file
  = Reader.Loaded (cells, docToPost, num_features, postToDoc) →
  mapM Reader.row_vec cells = Some docs →
  (∀ i p, docToPost !! i = Some p → is_Some (upvotes !! p)) →
  ∃ units,
    mapM (unit_at docs docToPost upvotes) (range (length docs)) = Some units ∧
    split_groups docs docToPost upvotes
    = ([PrintTreatmentGroup (countTreatment (groups_of units));
        PrintControlGroup (countControl (groups_of units))],
       Ok (groups_of units)).
Proof.
  intros (text & lines & st & raws & -> & Hlines & Hread & -> & -> & Hraws & _ &
          Hlen & _)%get_covariates_Loaded Hdocs Hup.
  apply Forall2_length in Hraws. apply length_mapM in Hdocs.
  assert (is_Some (mapM (unit_at docs (Reader.cov_docToPost st) upvotes)
                     (range (length docs)))) as [units Hunits].
  { apply mapM_is_Some, Forall_forall. intros x Hx%elem_of_seq. simpl.
    destruct (proj2 (covariates_docToPost_dom float lines st cells Hread
                       ltac:(lia) x) ltac:(lia)) as [p Hp].
    destruct (Hup x p Hp) as [f Hf].
    destruct (lookup_lt_is_Some_2 docs x ltac:(lia)) as [d Hd].
    unfold unit_at. rewrite Hp. simpl. rewrite Hf. simpl. by rewrite Hd. }
  exists units. split; [done|]. by apply split_groups_run.
Qed.

(** X19.  A file without a newline gives neither reader a record: both
    raise [IndexError], [get_covariates] when it reads the first row of
    an empty [docs], [get_posts_information] when it pops the last line of
    a list the header has already been popped from. *)
Theorem file_without_newline_raises float text :
  free_of Reader.newline text →
  Reader.get_covariates float (Some text) = Reader.Raised Reader.IndexError ∧
  Reader.get_posts_information float (Some text) = Reader.Raised Reader.IndexError.
Proof.
  intros Hfree. unfold Reader.get_covariates, Reader.get_posts_information.
  simpl. by rewrite (split_free _ _ Hfree).
Qed.

(** ** The dictionaries behind the report *)

Lemma report_ready_step promote g index lookUpControl threshold replacement distance
    st x st' :
  report_ready st →
  outcome (match_step promote g index lookUpControl threshold replacement distance st x)
    = Ok st' →
  report_ready st'.
Proof.
  intros [Hs Hk Ht] H. apply match_step_Ok in H as (closer & y & _ & _ & Hres).
  destruct Hres as [j s i cid tid Hcy Hthr Hi Hcid Htid ->|j s Hcy Hthr ->];
    [|done].
  split; simpl.
  - intros c s'. destruct (decide (cid = c)) as [->|Hne].
    + rewrite !lookup_insert_eq. split.
      * intros [= <-]. by exists tid.
      * by intros (t & [= <- <-]).
    + rewrite !lookup_insert_ne by done. apply Hs.
  - intros c. rewrite elem_of_app, list_elem_of_singleton.
    destruct (decide (cid = c)) as [->|Hne].
    + rewrite lookup_insert_eq. split; [by right|by eexists].
    + rewrite lookup_insert_ne by done. rewrite Hk. split; [by left|].
      by intros [?|?].
  - intros c t s'. rewrite elem_of_app, list_elem_of_singleton.
    destruct (decide (cid = c)) as [->|Hne].
    + rewrite lookup_insert_eq. intros [= <- <-]. by right.
    + rewrite lookup_insert_ne by done. intros Hc%Ht. by left.
Qed.

(** X20.  When the matching loop has returned, the top-5 report that
    follows can look up every id it ranks: [ranking] and [similarity] have
    exactly the matched control ids as keys, they hold the same score for
    each, and every treatment id recorded in [similarity] is in the
    matched treatment list. *)
Theorem report_lookups_defined promote SparseMatrixSimilarity sample docs docToPost
    upvotes
    threshold replacement distance g st :
  outcome (distance_matching_locals promote SparseMatrixSimilarity sample docs docToPost
             upvotes threshold replacement distance) = Ok (g, st) →
  (∀ c, is_Some (ranking st !! c) ↔ c ∈ matchedControl st) ∧
  (∀ c, is_Some (ranking st !! c) ↔ is_Some (similarity st !! c)) ∧
  (∀ c s, ranking st !! c = Some s ↔ ∃ t, similarity st !! c = Some (t, s)) ∧
  (∀ c t s, similarity st !! c = Some (t, s) → t ∈ matchedTreament st).
Proof.
  intros [_ H]%locals_Ok. apply matching_Ok in H as (index & H).
  assert (report_ready st) as [Hs Hk Ht].
  { eapply for_each_invariant; [| |exact H].
    - intros st1 x st2 _. apply report_ready_step.
    - split; simpl.
      + intros c s. rewrite !lookup_empty. split; [done|]. by intros (t & ?).
      + intros c. rewrite lookup_empty. split; [by intros []|by intros ?%elem_of_nil].
      + intros c t s. by rewrite lookup_empty. }
  split; [done|]. split; [|done].
  intros c. split.
  - intros [s (t & Hc)%Hs]. by eexists.
  - intros [[t s] Hc]. exists s. apply Hs. by exists t.
Qed.

(** ** More control units than treatment units *)

Lemma all_matched_step promote g idx lookUpControl threshold replacement st x st' :
  (∀ c s, c ∈ control g → s ∈ idx c → (promote threshold <= s)%Q) →
  all_matched st →
  outcome (match_step promote g (Some idx) lookUpControl threshold replacement
             (Some "cosine") st x) = Ok st' →
  all_matched st'.
Proof.
  intros Hscores Hall H.
  apply match_step_Ok in H as (closer & y & Hc & _ & Hres).
  apply candidates_Ok in Hc as (idx' & i & c & _ & [= <-] & _ & Hc & ->).
  destruct Hres as [j s i' cid tid Hcy Hthr Hi Hcid Htid ->|j s Hcy Hthr ->];
    [done|].
  assert (s ∈ idx c) as Hs.
  { assert (s ∈ (sorted_desc (enumerate (idx c))).*2) as Hin.
    { apply list_elem_of_fmap. exists (j, s). split; [done|].
      by eapply list_elem_of_lookup_2. }
    rewrite sorted_desc_perm in Hin. unfold enumerate in Hin.
    by rewrite (proj2 (enumerate_from_fst 0 (idx c))) in Hin. }
  apply (Hscores c s (list_elem_of_lookup_2 _ _ _ Hc)) in Hs.
  apply Qle_bool_iff in Hs. congruence.
Qed.

(** X21.  Matching without replacement cannot complete when the control
    units outnumber the treatment units and every score the index gives
    reaches the threshold as the comparison takes it: every control unit
    would claim a treatment unit of its own.  The call does not return. *)
Theorem without_replacement_overfull_fails promote SparseMatrixSimilarity sample docs
    docToPost upvotes threshold units :
  mapM (unit_at docs docToPost upvotes) (range (length docs)) = Some units →
  (length (treatment (groups_of units)) < length (control (groups_of units)))%nat →
  (∀ nf c s, c ∈ control (groups_of units) →
     s ∈ SparseMatrixSimilarity (treatment (groups_of units)) nf c →
     (promote threshold <= s)%Q) →
  ∀ r, outcome (distance_matching promote SparseMatrixSimilarity sample docs docToPost
                  upvotes threshold false (Some "cosine")) ≠ Ok r.
Proof.
  intros Hunits Hmore Hscores r Hr.
  rewrite distance_matching_locals_result in Hr.
  destruct (outcome (distance_matching_locals promote _ _ _ _ _ _ _ _)) as [[g
      st]|e] eqn:H;
    [|done].
  clear Hr r. apply locals_Ok in H as [Hg H].
  rewrite (split_groups_run _ _ _ _ Hunits) in Hg. injection Hg as <-.
  pose proof (accounted_loop _ _ _ _ _ _ _ _ H) as [Htot _ Hlen _ _].
  pose proof (matching_within_groups _ _ _ _ _ _ _ _ H) as [_ Hsub].
  assert (claimed_once st ∧ all_matched st) as [[Hnd _ _ _ _] Hzero].
  { apply matching_cosine_Ok in H as (t0 & Ht0 & H). split.
    - eapply for_each_invariant; [|apply claimed_once_init|exact H].
      intros st1 x st2 _. apply claimed_once_step.
    - eapply for_each_invariant; [| |exact H]; [|done].
      intros st1 x st2 _. apply all_matched_step.
      intros c s Hc. by apply Hscores. }
  unfold all_matched in Hzero.
  assert (length (matchedTreament st) ≤ length (treatmentToPost (groups_of units)))%nat
    as Hbound.
  { apply submseteq_length, NoDup_submseteq; [done|]. intros t Ht. by apply Hsub. }
  destruct (groups_of_lengths units) as (_ & Hlt & _).
  unfold range in Htot. rewrite length_seq in Htot. lia.
Qed.

(** ** The rule of matching with replacement *)

Lemma enumerate_elem (sims : list Q) j s :
  (j, s) ∈ enumerate sims ↔ sims !! j = Some s.
Proof.
  split.
  - intros [i Hi]%list_elem_of_lookup.
    assert (i < length sims)%nat as Hlt.
    { apply lookup_lt_Some in Hi. unfold enumerate in Hi.
      by rewrite enumerate_from_length in Hi. }
    destruct (lookup_lt_is_Some_2 sims i Hlt) as [a Ha].
    unfold enumerate in Hi. rewrite (enumerate_from_lookup 0 _ _ _ Ha) in Hi.
    by injection Hi as <- <-.
  - intros Hj. apply list_elem_of_lookup. exists j.
    unfold enumerate. by rewrite (enumerate_from_lookup 0 _ _ _ Hj).
Qed.

(** The best candidate holds a highest score, at the lowest index that
    has it. *)
Lemma top_candidate_best sims j s :
  top_candidate sims = Some (j, s) →
  sims !! j = Some s ∧
  ∀ j' s', sims !! j' = Some s' → (s' <= s)%Q ∧ ((s' == s)%Q → (j ≤ j')%nat).
Proof.
  unfold top_candidate. rewrite head_lookup. intros Htop.
  assert ((j, s) ∈ enumerate sims) as Hin.
  { rewrite <- sorted_desc_perm. by eapply list_elem_of_lookup_2. }
  split; [by apply enumerate_elem|].
  intros j' s' Hj'%enumerate_elem. rewrite <- sorted_desc_perm in Hj'.
  apply list_elem_of_lookup in Hj' as [[|r] Hr].
  - assert (j' = j ∧ s' = s) as [-> ->] by (split; congruence).
    split; [apply Qle_refl|lia].
  - assert (ranks_before (j, s) (j', s')) as Hrank.
    { eapply (StronglySorted_lookup _ _ 0 (S r));
        [apply (sorted_desc_enumerate_from 0)|lia|done..]. }
    split; [by apply (ranks_before_score _ _ Hrank)|].
    intros Heq. apply (ranks_before_tie _ _ Hrank) in Heq. simpl in Heq. lia.
Qed.

(** X22.  The rule of matching with replacement, in closed form.  When
    the sampler draws a permutation of the control indices, the pairs a
    returning run emits are, in processing order, those of the control
    units whose best score reaches the threshold as the comparison takes
    it, [promote threshold], each paired with the treatment unit that has
    this best score (the one of lowest index when several have it); the
    other control units are the unmatched ones. *)
Theorem with_replacement_rule promote SparseMatrixSimilarity sample docs docToPost
    upvotes
    threshold g st :
  (∀ n, sample (range n) n ≡ₚ range n) →
  outcome (distance_matching_locals promote SparseMatrixSimilarity sample docs docToPost
             upvotes threshold true (Some "cosine")) = Ok (g, st) →
  ∃ t0,
    treatment g !! 0%nat = Some t0 ∧
    let idx := SparseMatrixSimilarity (treatment g) (length t0) in
    let order := sample (range (length (control g))) (length (control g)) in
    similarity_return st = omap (pair_with_replacement promote g idx threshold) order ∧
    (countUnmatched st + length (similarity_return st) = length (control g))%nat ∧
    ∀ i cid tid, pair_with_replacement promote g idx threshold i = Some (cid, tid) →
      ∃ c j s,
        control g !! i = Some c ∧ controlToPost g !! i = Some cid ∧
        treatmentToPost g !! j = Some tid ∧ idx c !! j = Some s ∧
        (promote threshold <= s)%Q ∧
        ∀ j' s', idx c !! j' = Some s' →
          (s' <= s)%Q ∧ ((s' == s)%Q → (j ≤ j')%nat).
Proof.
  intros Hsample [_ H]%locals_Ok.
  apply with_replacement_loop in H as (t0 & Ht0 & [Hp _ _ Hn]).
  exists t0. split; [done|]. simpl.
  set (size := length (control g)) in *.
  assert (length (sample (range size) size) = size) as Hlen.
  { rewrite (Hsample size). apply length_seq. }
  split; [|split].
  - rewrite Hp.
    pose proof (omap_via_order (sample (range size) size)
                  (pair_with_replacement promote g
                     (SparseMatrixSimilarity (treatment g) (length t0)) threshold))
      as E.
    by rewrite Hlen in E.
  - unfold range in Hn. by rewrite length_seq in Hn.
  - intros i cid tid Hpair. unfold pair_with_replacement in Hpair.
    destruct (control g !! i) as [c|] eqn:Hc; [|done]. simpl in Hpair.
    destruct (top_candidate _) as [[j s]|] eqn:Htop; [|done]. simpl in Hpair.
    destruct (Qle_bool (promote threshold) s) eqn:Hthr; [|done].
    destruct (controlToPost g !! i) as [cid'|] eqn:Hcid; [|done]. simpl in Hpair.
    destruct (treatmentToPost g !! j) as [tid'|] eqn:Htid; [|done].
    injection Hpair as <- <-.
    destruct (top_candidate_best _ _ _ Htop) as [Hj Hbest].
    exists c, j, s. repeat (split; [done|]).
    split; [by apply Qle_bool_iff|done].
Qed.

(** ** The further properties at work on concrete runs *)

Lemma scenario_groups_of : groups_of scenario_units = ScenarioRun.the_groups.
Proof. vm_compute. reflexivity. Defined.

Lemma in_order_perm n : Scenario.in_order (range n) n ≡ₚ range n.
Proof. reflexivity. Defined.

Lemma in_reverse_perm n : in_reverse (range n) n ≡ₚ range n.
Proof. unfold in_reverse. apply reverse_Permutation. Defined.

Lemma scenario_index_sound nf c :
  c ∈ control (groups_of scenario_units) →
  length (Scenario.index (treatment (groups_of scenario_units)) nf c)
  = length (treatment (groups_of scenario_units)).
Proof.
  rewrite scenario_groups_of. simpl.
  intros [->|[->|[]%elem_of_nil]%elem_of_cons]%elem_of_cons; reflexivity.
Defined.

Lemma scenario_locals_with :
  outcome (distance_matching_locals float32 Scenario.index Scenario.in_order
      Scenario.docs
             Scenario.docToPost Scenario.upvotes (9 # 10) true (Some "cosine"))
  = Ok (ScenarioRun.the_groups,
        run_state (distance_matching_locals float32 Scenario.index Scenario.in_order
                     Scenario.docs Scenario.docToPost Scenario.upvotes (9 # 10)
                     true (Some "cosine"))).
Proof. vm_compute. reflexivity. Defined.

Lemma scenario_locals_reverse :
  outcome (distance_matching_locals float32 Scenario.index in_reverse Scenario.docs
             Scenario.docToPost Scenario.upvotes (9 # 10) true (Some "cosine"))
  = Ok (ScenarioRun.the_groups,
        run_state (distance_matching_locals float32 Scenario.index in_reverse
                     Scenario.docs Scenario.docToPost Scenario.upvotes (9 # 10)
                     true (Some "cosine"))).
Proof. vm_compute. reflexivity. Defined.

Lemma scenario_locals_strict :
  outcome (distance_matching_locals float32 Scenario.index Scenario.in_order
      Scenario.docs
             Scenario.docToPost Scenario.upvotes (93 # 100) true (Some "cosine"))
  = Ok (ScenarioRun.the_groups,
        run_state (distance_matching_locals float32 Scenario.index Scenario.in_order
                     Scenario.docs Scenario.docToPost Scenario.upvotes (93 # 100)
                     true (Some "cosine"))).
Proof. vm_compute. reflexivity. Defined.

Lemma scenario_result :
  outcome (distance_matching float32 Scenario.index Scenario.in_order Scenario.docs
             Scenario.docToPost Scenario.upvotes (9 # 10) false (Some "cosine"))
  = Ok (["T1"], ["C1"]).
Proof. vm_compute. reflexivity. Defined.

Lemma scenario_posts_read :
  Reader.get_posts_information digits_float (Some scenario_posts_text)
  = Reader.Loaded (Scenario.upvotes, scenario_returns).
Proof. vm_compute. reflexivity. Defined.

Lemma scenario_covariates_read :
  Reader.get_covariates digits_float (Some scenario_covariates_text)
  = Reader.Loaded (scenario_cells, Scenario.docToPost, 2%nat, scenario_postToDoc).
Proof. vm_compute. reflexivity. Defined.

Lemma selected_is_best_available_witness :
  outcome (candidates ScenarioRun.the_groups
             (Some (Scenario.index [Scenario.vT1; Scenario.vT2] 1))
             [0; 1]%nat (Some "cosine") 1)
  = Ok [(0%nat, (90 # 100)%Q); (1%nat, (5 # 100)%Q)] ∧
  outcome (select ScenarioRun.the_groups false ScenarioRun.after_C1
             [(0%nat, (90 # 100)%Q); (1%nat, (5 # 100)%Q)]) = Ok 1%nat ∧
  ∀ j' s', (j', s') ∈ [(0%nat, (90 # 100)%Q); (1%nat, (5 # 100)%Q)] →
    (false = true ∨
     ∃ t, treatmentToPost ScenarioRun.the_groups !! j' = Some t ∧
          matched ScenarioRun.after_C1 !! t = None) →
    (s' <= 5 # 100)%Q ∧ ((s' == 5 # 100)%Q → (1 ≤ j')%nat).
Proof.
  assert (outcome (candidates ScenarioRun.the_groups
             (Some (Scenario.index [Scenario.vT1; Scenario.vT2] 1))
             [0; 1]%nat (Some "cosine") 1)
          = Ok [(0%nat, (90 # 100)%Q); (1%nat, (5 # 100)%Q)]) as Hc
    by (vm_compute; reflexivity).
  assert (outcome (select ScenarioRun.the_groups false ScenarioRun.after_C1
             [(0%nat, (90 # 100)%Q); (1%nat, (5 # 100)%Q)]) = Ok 1%nat) as Hy
    by (vm_compute; reflexivity).
  split; [exact Hc|]. split; [exact Hy|].
  exact (selected_is_best_available _ _ _ _ _ _ _ _ _ _ _ Hc Hy eq_refl).
Defined.

Lemma with_replacement_order_independent_witness :
  matchedControl
    (run_state (distance_matching_locals float32 Scenario.index Scenario.in_order
                  Scenario.docs Scenario.docToPost Scenario.upvotes (9 # 10)
                  true (Some "cosine")))
  ≡ₚ matchedControl
    (run_state (distance_matching_locals float32 Scenario.index in_reverse
                  Scenario.docs Scenario.docToPost Scenario.upvotes (9 # 10)
                  true (Some "cosine"))).
Proof.
  exact (proj1 (proj2 (proj2
    (with_replacement_order_independent float32 Scenario.index Scenario.in_order
        in_reverse
       Scenario.docs Scenario.docToPost Scenario.upvotes (9 # 10) _ _ _ _
       in_order_perm in_reverse_perm scenario_locals_with scenario_locals_reverse)))).
Defined.

Lemma with_replacement_threshold_monotone_witness :
  (∀ a b, (a <= b)%Q → (float32 a <= float32 b)%Q) ∧
  (9 # 10 <= 93 # 100)%Q ∧
  (countUnmatched
     (run_state (distance_matching_locals float32 Scenario.index Scenario.in_order
                   Scenario.docs Scenario.docToPost Scenario.upvotes (9 # 10)
                   true (Some "cosine")))
   ≤ countUnmatched
     (run_state (distance_matching_locals float32 Scenario.index Scenario.in_order
                   Scenario.docs Scenario.docToPost Scenario.upvotes (93 # 100)
                   true (Some "cosine"))))%nat.
Proof.
  assert (9 # 10 <= 93 # 100)%Q as Hle by (unfold Qle; simpl; lia).
  split; [exact float32_monotone|]. split; [exact Hle|].
  exact (proj2 (proj2 (proj2
    (with_replacement_threshold_monotone float32 Scenario.index Scenario.in_order
       Scenario.docs Scenario.docToPost Scenario.upvotes (9 # 10) (93 # 100)
       _ _ _ _ float32_monotone Hle scenario_locals_with scenario_locals_strict)))).
Defined.

Lemma with_replacement_returns_witness :
  ∃ matchedT matchedC,
    outcome (distance_matching float32 Scenario.index Scenario.in_order Scenario.docs
               Scenario.docToPost Scenario.upvotes (9 # 10) true (Some "cosine"))
    = Ok (matchedT, matchedC).
Proof.
  apply (with_replacement_returns float32 Scenario.index Scenario.in_order Scenario.docs
           Scenario.docToPost Scenario.upvotes (9 # 10) scenario_units
           scenario_population in_order_perm scenario_index_sound).
  exists (Scenario.vT1, "T1", 1%Q). split.
  - apply elem_of_cons. right. apply elem_of_cons. right. by left.
  - unfold is_control. simpl. discriminate.
Defined.

Lemma without_replacement_returns_witness :
  ∃ matchedT matchedC,
    outcome (distance_matching float32 Scenario.index Scenario.in_order Scenario.docs
               Scenario.docToPost Scenario.upvotes (9 # 10) false (Some "cosine"))
    = Ok (matchedT, matchedC).
Proof.
  apply (without_replacement_returns float32 Scenario.index Scenario.in_order
      Scenario.docs
           Scenario.docToPost Scenario.upvotes (9 # 10) scenario_units
           scenario_population in_order_perm scenario_index_sound).
  - rewrite scenario_groups_of. simpl.
    apply NoDup_cons. split; [|apply NoDup_singleton].
    intros ?%list_elem_of_singleton. discriminate.
  - rewrite scenario_groups_of. simpl. lia.
  - rewrite scenario_groups_of. simpl. lia.
Defined.

Lemma matched_lists_within_groups_witness :
  outcome (distance_matching float32 Scenario.index Scenario.in_order Scenario.docs
             Scenario.docToPost Scenario.upvotes (9 # 10) false (Some "cosine"))
  = Ok (["T1"], ["C1"]) ∧
  ∀ p, ¬ (p ∈ ["T1"] ∧ p ∈ ["C1"]).
Proof.
  split; [exact scenario_result|].
  exact (proj2 (proj2
    (matched_lists_within_groups float32 Scenario.index Scenario.in_order Scenario.docs
       Scenario.docToPost Scenario.upvotes (9 # 10) false "cosine" ["T1"] ["C1"]
       scenario_result))).
Defined.

Lemma matched_control_once_witness :
  NoDup (controlToPost ScenarioRun.the_groups) ∧
  NoDup (matchedControl ScenarioRun.final).
Proof.
  assert (NoDup (controlToPost ScenarioRun.the_groups)) as Hnd.
  { simpl. apply NoDup_cons. split; [|apply NoDup_singleton].
    intros ?%list_elem_of_singleton. discriminate. }
  split; [exact Hnd|].
  exact (matched_control_once float32 Scenario.index Scenario.in_order Scenario.docs
           Scenario.docToPost Scenario.upvotes (9 # 10) false (Some "cosine")
           ScenarioRun.the_groups ScenarioRun.final in_order_perm scenario_locals Hnd).
Defined.

Lemma missing_feedback_raises_witness :
  distance_matching float32 Scenario.index Scenario.in_order Scenario.docs
    Scenario.docToPost (delete "T2" Scenario.upvotes) (9 # 10) false (Some "cosine")
  = ([], Err KeyError).
Proof.
  apply missing_feedback_raises. vm_compute. reflexivity.
Defined.

Lemma no_treatment_unit_raises_witness :
  distance_matching float32 Scenario.index Scenario.in_order [Scenario.vC1]
    (<[0%nat := "C1"]> ∅) (<["C1" := 0%Q]> ∅) (9 # 10) false (Some "cosine")
  = ([PrintTreatmentGroup 0; PrintControlGroup 1], Err IndexError).
Proof.
  apply (no_treatment_unit_raises float32 Scenario.index Scenario.in_order
      [Scenario.vC1]
           (<[0%nat := "C1"]> ∅) (<["C1" := 0%Q]> ∅) (9 # 10) false
           [(Scenario.vC1, "C1", 0%Q)]).
  - vm_compute. reflexivity.
  - apply Forall_cons. split; [reflexivity|apply Forall_nil_2].
Defined.

Lemma without_replacement_matches_fewer_witness :
  matchedControl ScenarioRun.final
    `sublist_of`
  matchedControl
    (run_state (distance_matching_locals float32 Scenario.index Scenario.in_order
                  Scenario.docs Scenario.docToPost Scenario.upvotes (9 # 10)
                  true (Some "cosine"))).
Proof.
  exact (proj1 (without_replacement_matches_fewer float32 Scenario.index
      Scenario.in_order
                  Scenario.docs Scenario.docToPost Scenario.upvotes (9 # 10)
                  _ _ _ _ scenario_locals scenario_locals_with)).
Defined.

Lemma scenario_returns_cover :
  ∀ u, u ∈ ["C1"; "C2"] ++ ["T1"; "T2"] → is_Some (scenario_returns !! u).
Proof.
  intros u Hu. simpl in Hu.
  repeat (apply elem_of_cons in Hu as [->|Hu]; [by eexists|]).
  by apply elem_of_nil in Hu.
Defined.

Lemma return_rate_returns_witness :
  ∃ pT pC,
    pT = (Qnat (count_true scenario_returns ["T1"; "T2"]) / Qnat 2)%Q ∧
    pC = (Qnat (count_true scenario_returns ["C1"; "C2"]) / Qnat 2)%Q ∧
    return_rate ["T1"; "T2"] ["C1"; "C2"] scenario_returns
    = ([PrintProbTreatment pT; PrintProbControl pC;
        PrintRelativeIncrease ((pT - pC) / pC)], Ok tt) ∧
    (0 <= pT)%Q ∧ (pT <= 1)%Q ∧ (0 < pC)%Q ∧ (pC <= 1)%Q.
Proof.
  apply (return_rate_returns ["T1"; "T2"] ["C1"; "C2"] scenario_returns
           scenario_returns_cover).
  - discriminate.
  - vm_compute. lia.
Defined.

Lemma return_rate_missing_outcome_witness :
  return_rate ["T1"; "T9"] ["C1"; "C2"] scenario_returns = ([], Err KeyError).
Proof.
  apply (return_rate_missing_outcome ["T1"; "T9"] ["C1"; "C2"] scenario_returns "T9").
  - apply elem_of_app. right. apply elem_of_cons. right. by left.
  - vm_compute. reflexivity.
Defined.

Lemma posts_information_same_keys_witness :
  dom Scenario.upvotes = dom scenario_returns.
Proof.
  exact (posts_information_same_keys digits_float (Some scenario_posts_text)
           Scenario.upvotes scenario_returns scenario_posts_read).
Defined.

Lemma pipeline_outcomes_known_witness :
  (∀ u, u ∈ ["C1"] ++ ["T1"] → is_Some (scenario_returns !! u)) ∧
  (outcome (return_rate ["T1"] ["C1"] scenario_returns) = Ok tt ∨
   outcome (return_rate ["T1"] ["C1"] scenario_returns) = Err ZeroDivisionError).
Proof.
  exact (pipeline_outcomes_known digits_float (Some scenario_posts_text)
           Scenario.upvotes scenario_returns float32 Scenario.index Scenario.in_order
           Scenario.docs Scenario.docToPost (9 # 10) false (Some "cosine")
           ["T1"] ["C1"] scenario_posts_read scenario_result).
Defined.

Lemma scenario_rows_well_formed :
  Forall (well_formed_record digits_float) scenario_rows.
Proof.
  repeat (apply Forall_cons; split;
          [unfold well_formed_record; simpl;
           repeat split; try discriminate; by eexists|]).
  apply Forall_nil_2.
Defined.

Lemma get_posts_information_reads_witness :
  Reader.get_posts_information digits_float
    (Some (posts_text "post,upvotes,returned" scenario_rows "T3,1,true"))
  = Reader.Loaded (posts_of digits_float scenario_rows).
Proof.
  apply get_posts_information_reads.
  - simpl. repeat split; discriminate.
  - simpl. repeat split; discriminate.
  - exact scenario_rows_well_formed.
Defined.

Lemma get_covariates_index_maps_witness :
  Reader.get_covariates digits_float (Some scenario_covariates_text)
  = Reader.Loaded (scenario_cells, Scenario.docToPost, 2%nat, scenario_postToDoc) ∧
  ∀ i, is_Some (Scenario.docToPost !! i) ↔ (i < length scenario_cells)%nat.
Proof.
  split; [exact scenario_covariates_read|].
  exact (proj1 (get_covariates_index_maps digits_float
                  (Some scenario_covariates_text) scenario_cells
                  Scenario.docToPost 2 scenario_postToDoc
                  scenario_covariates_read)).
Defined.

Lemma get_covariates_rows_witness :
  ∃ text lines (raws : list (list Q)),
    Some scenario_covariates_text = Some text ∧
    Reader.pop_last (Reader.split Reader.newline text) = Reader.Loaded lines ∧
    Forall2 (λ line vals, line_values digits_float line = Some vals) lines raws ∧
    length scenario_cells = length raws ∧
    (∃ first, raws !! 0%nat = Some first ∧ 2%nat = length first) ∧
    ∀ r vals, raws !! r = Some vals →
      ∃ row, scenario_cells !! r = Some row ∧
        (2 ≤ length vals)%nat ∧
        length row = length vals ∧
        (∀ i v, vals !! i = Some v →
           row !! i = Some (if decide (i < 2)%nat
                            then Reader.Tagged i (Reader.Raw v)
                            else Reader.Raw v)) ∧
        (length vals = 2%nat → Reader.row_vec row = Some (enumerate vals)).
Proof.
  exact (get_covariates_rows digits_float (Some scenario_covariates_text)
           scenario_cells Scenario.docToPost 2 scenario_postToDoc
           scenario_covariates_read).
Defined.

Lemma loaded_population_splits_witness :
  ∃ units,
    mapM (unit_at scenario_vectors Scenario.docToPost Scenario.upvotes)
      (range (length scenario_vectors)) = Some units ∧
    split_groups scenario_vectors Scenario.docToPost Scenario.upvotes
    = ([PrintTreatmentGroup (countTreatment (groups_of units));
        PrintControlGroup (countControl (groups_of units))],
       Ok (groups_of units)).
Proof.
  apply (loaded_population_splits digits_float (Some scenario_covariates_text)
           scenario_cells Scenario.docToPost 2 scenario_postToDoc scenario_vectors
           Scenario.upvotes scenario_covariates_read).
  - vm_compute. reflexivity.
  - intros i p Hi. apply elem_of_map_to_list in Hi.
    set (l := map_to_list Scenario.docToPost) in Hi. vm_compute in l. subst l.
    repeat (apply elem_of_cons in Hi as [[= -> ->]|Hi]; [by eexists|]).
    by apply elem_of_nil in Hi.
Defined.

Lemma file_without_newline_raises_witness :
  Reader.get_covariates digits_float (Some "1,2,C1")
    = Reader.Raised Reader.IndexError ∧
  Reader.get_posts_information digits_float (Some "1,2,C1")
    = Reader.Raised Reader.IndexError.
Proof.
  apply file_without_newline_raises. simpl. repeat split; discriminate.
Defined.

Lemma report_lookups_defined_witness :
  outcome (distance_matching_locals float32 Scenario.index Scenario.in_order
      Scenario.docs
             Scenario.docToPost Scenario.upvotes (9 # 10) false (Some "cosine"))
  = Ok (ScenarioRun.the_groups, ScenarioRun.final) ∧
  ∀ c, is_Some (ranking ScenarioRun.final !! c) ↔ c ∈ matchedControl ScenarioRun.final.
Proof.
  split; [exact scenario_locals|].
  exact (proj1 (report_lookups_defined float32 Scenario.index Scenario.in_order
                  Scenario.docs Scenario.docToPost Scenario.upvotes (9 # 10)
                  false (Some "cosine") ScenarioRun.the_groups ScenarioRun.final
                  scenario_locals)).
Defined.

Lemma exhausted_population :
  mapM (unit_at Exhausted.docs Exhausted.docToPost Exhausted.upvotes)
    (range (length Exhausted.docs)) = Some exhausted_units.
Proof. vm_compute. reflexivity. Defined.

Lemma without_replacement_overfull_fails_witness :
  mapM (unit_at Exhausted.docs Exhausted.docToPost Exhausted.upvotes)
    (range (length Exhausted.docs)) = Some exhausted_units ∧
  ∀ r, outcome (distance_matching float32 Exhausted.index Scenario.in_order
      Exhausted.docs
                  Exhausted.docToPost Exhausted.upvotes (9 # 10) false
                  (Some "cosine")) ≠ Ok r.
Proof.
  split; [exact exhausted_population|].
  apply (without_replacement_overfull_fails float32 Exhausted.index Scenario.in_order
           Exhausted.docs Exhausted.docToPost Exhausted.upvotes (9 # 10)
           exhausted_units exhausted_population).
  - vm_compute. lia.
  - intros nf c s _ Hs. unfold Exhausted.index in Hs.
    apply list_elem_of_fmap in Hs as (t & -> & _).
    unfold Qle. simpl. lia.
Defined.

Lemma with_replacement_rule_witness :
  (∀ n, Scenario.in_order (range n) n ≡ₚ range n) ∧
  outcome (distance_matching_locals float32 Rounded.index Scenario.in_order
             Rounded.docs Rounded.docToPost Rounded.upvotes (9 # 10) true
             (Some "cosine"))
  = Ok (Rounded.the_groups, Rounded.final) ∧
  ∃ t0,
    treatment Rounded.the_groups !! 0%nat = Some t0 ∧
    similarity_return Rounded.final
    = omap (pair_with_replacement float32 Rounded.the_groups
              (Rounded.index (treatment Rounded.the_groups) (length t0))
              (9 # 10))
        (Scenario.in_order (range 1) 1) ∧
    pair_with_replacement float32 Rounded.the_groups
      (Rounded.index (treatment Rounded.the_groups) (length t0)) (9 # 10) 0
    = Some ("C1", "T1").
Proof.
  split; [exact in_order_perm|]. split; [exact rounded_locals|].
  destruct (with_replacement_rule float32 Rounded.index Scenario.in_order Rounded.docs
              Rounded.docToPost Rounded.upvotes (9 # 10) Rounded.the_groups
              Rounded.final in_order_perm rounded_locals)
    as (t0 & Ht0 & Hpairs & _).
  exists t0. split; [exact Ht0|]. split; [exact Hpairs|].
  injection Ht0 as <-. vm_compute. reflexivity.
Defined.

(** ** Reading a well-formed covariates file *)

Lemma reader_for_range_total {S} (P : S → Prop) (body : S → nat → Reader.result S) n :
  (∀ k st, (k < n)%nat → P st → ∃ st', body st k = Reader.Loaded st' ∧ P st') →
  ∀ st, P st → ∃ st', Reader.for_each body (range n) st = Reader.Loaded st' ∧ P st'.
Proof.
  intros Hstep.
  assert (∀ m a st, (a + m ≤ n)%nat → P st →
            ∃ st', Reader.for_each body (seq a m) st = Reader.Loaded st' ∧ P st')
    as Hgen.
  { induction m as [|m IH]; intros a st Ham HP; simpl.
    - by exists st.
    - destruct (Hstep a st) as (st1 & -> & HP1); [lia|done|]. simpl.
      apply IH; [lia|done]. }
  intros st HP. by apply (Hgen n 0%nat st).
Qed.

Lemma tag_row_total num_features row :
  (num_features ≤ length row)%nat →
  ∃ row', Reader.tag_row num_features row = Reader.Loaded row' ∧
          length row' = length row.
Proof.
  intros Hlen. unfold Reader.tag_row.
  apply (reader_for_range_total (λ row', length row' = length row)); [|done].
  intros k row0 Hk Hlen0.
  destruct (lookup_lt_is_Some_2 row0 k) as [c Hc]; [lia|].
  unfold Reader.tag_step. rewrite Hc. simpl. eexists. split; [done|].
  by rewrite length_insert.
Qed.

Lemma tag_rows_total num_features (docs : list (list Reader.cell)) :
  Forall (λ row, (num_features ≤ length row)%nat) docs →
  ∃ docs',
    Reader.for_each
      (λ docs j,
         row ← Reader.get Reader.IndexError (docs !! j);
         row' ← Reader.tag_row num_features row;
         mret (<[j := row']> docs))
      (range (length docs)) docs
    = Reader.Loaded docs'.
Proof.
  intros Hall.
  destruct (reader_for_range_total
              (λ docs' : list (list Reader.cell),
                 length docs' = length docs ∧
                 Forall (λ row, (num_features ≤ length row)%nat) docs')
              (λ docs j,
                 row ← Reader.get Reader.IndexError (docs !! j);
                 row' ← Reader.tag_row num_features row;
                 mret (<[j := row']> docs))
              (length docs)) with (st := docs) as (docs' & H & _); [|done|by exists
                  docs'].
  intros j docs0 Hj [Hlen Hrows].
  destruct (lookup_lt_is_Some_2 docs0 j) as [row Hrow]; [lia|].
  rewrite Hrow. simpl.
  assert (num_features ≤ length row)%nat as Hn.
  { rewrite Forall_forall in Hrows. by eapply Hrows, list_elem_of_lookup_2. }
  destruct (tag_row_total num_features row Hn) as (row' & -> & Hlen').
  simpl. eexists. split; [done|]. split; [by rewrite length_insert|].
  apply Forall_insert; [done|lia].
Qed.

Lemma covariates_line_fields float num_features r :
  well_formed_row float num_features r →
  Reader.split Reader.comma (covariates_line r) = fst r ++ [snd r] ∧
  free_of Reader.newline (covariates_line r).
Proof.
  destruct r as [vals post]. intros (_ & Hvals & Hp & Hp'). simpl in *.
  unfold covariates_line. simpl.
  induction Hvals as [|v vals (Hv & Hv' & _) _ [IH1 IH2]]; simpl.
  - split; [by apply split_free|done].
  - split.
    + by rewrite split_at, IH1.
    + apply free_of_app; [done|]. by split.
Qed.

Lemma covariates_text_lines float num_features rows rest :
  free_of Reader.newline rest →
  Forall (well_formed_row float num_features) rows →
  Reader.split Reader.newline (covariates_text rows rest)
  = (covariates_line <$> rows) ++ [rest].
Proof.
  intros Hr Hrows. unfold covariates_text.
  induction Hrows as [|r rows Hwf _ IH]; simpl.
  - by apply split_free.
  - rewrite split_at; [by rewrite IH|].
    by destruct (covariates_line_fields float num_features r Hwf).
Qed.

Lemma well_formed_row_values float num_features r :
  well_formed_row float num_features r →
  line_post (covariates_line r) = Some (snd r) ∧
  line_values float (covariates_line r) = Some (omap float (fst r)) ∧
  length (omap float (fst r)) = num_features.
Proof.
  intros Hwf. destruct (covariates_line_fields float num_features r Hwf) as [Hf _].
  destruct Hwf as (Hlen & Hvals & _).
  unfold line_post, line_values. rewrite Hf, last_snoc, removelast_last.
  assert (mapM float (fst r) = Some (omap float (fst r))) as Hm.
  { clear Hlen Hf. induction Hvals as [|v vals (_ & _ & [q Hq]) _ IH]; [done|].
    simpl. rewrite Hq. simpl. fold (omap float vals).
    change (mapM float vals ≫= λ k, mret (q :: k)) with
      (mapM float vals ≫= λ k, Some (q :: k)).
    by rewrite IH. }
  split; [done|]. split; [done|].
  apply length_mapM in Hm. lia.
Qed.

Lemma covariates_step_total float num_features r st :
  well_formed_row float num_features r →
  ∃ st', Reader.covariates_step float st (covariates_line r) = Reader.Loaded st'.
Proof.
  intros Hwf.
  destruct (well_formed_row_values float num_features r Hwf) as (Hp & Hv & _).
  unfold Reader.covariates_step. unfold line_post in Hp. unfold line_values in Hv.
  rewrite Hp. simpl. rewrite Hv. simpl. by eexists.
Qed.

Lemma covariates_loop_total float num_features rows st :
  Forall (well_formed_row float num_features) rows →
  ∃ st', Reader.for_each (Reader.covariates_step float) (covariates_line <$> rows) st
         = Reader.Loaded st'.
Proof.
  intros Hrows. revert st. induction Hrows as [|r rows Hwf _ IH]; intros st.
  - by exists st.
  - rewrite fmap_cons. cbn [Reader.for_each].
    destruct (covariates_step_total float num_features r st Hwf) as [st1 ->].
    simpl. apply IH.
Qed.

(** X23.  What [get_covariates] takes from a file of records that all
    have [num_features] values and a post id, each ended by a newline: it
    returns, with that [num_features]; the rows are the covariate vectors
    of the records, each value paired with its index; [docToPost] gives
    every position the post id of its record; and the text after the last
    newline is dropped. *)
Theorem get_covariates_reads float num_features rows rest :
  rows ≠ [] →
  free_of Reader.newline rest →
  Forall (well_formed_row float num_features) rows →
  ∃ docs docToPost postToDoc,
    Reader.get_covariates float (Some (covariates_text rows rest))
    = Reader.Loaded (docs, docToPost, num_features, postToDoc) ∧
    mapM Reader.row_vec docs = Some (row_vector float <$> rows) ∧
    ∀ i r, rows !! i = Some r → docToPost !! i = Some (snd r).
Proof.
  intros Hne Hrest Hrows.
  assert (∃ docs docToPost nf postToDoc,
            Reader.get_covariates float (Some (covariates_text rows rest))
            = Reader.Loaded (docs, docToPost, nf, postToDoc))
    as (docs & d2p & nf & p2d & Hrun).
  { unfold Reader.get_covariates. simpl.
    rewrite (covariates_text_lines float num_features) by done.
    rewrite pop_last_snoc. simpl.
    destruct (covariates_loop_total float num_features rows
                (Reader.mkCovariates [] ∅ ∅ 0) Hrows) as [st Hst].
    rewrite Hst. simpl.
    assert (covariates_read float (covariates_line <$> rows) st)
      as [Hcount (raws & Hdocs & Hraws) _ _ _].
    { refine (reader_for_each_invariant (covariates_read float) _
                (covariates_read_step float) _ [] _ st _ Hst).
      split; simpl; try done. exists []. split; [done|constructor]. }
    simpl in Hraws. apply Forall2_length in Hraws as Hlen.
    rewrite length_fmap in Hlen.
    destruct raws as [|first raws]; [by destruct rows|].
    rewrite Hdocs. simpl.
    assert (Forall (λ row : list Reader.cell, (length first ≤ length row)%nat)
              (fmap (M := list) Reader.Raw <$> (first :: raws))) as Hlong.
    { apply Forall_fmap, Forall_forall. intros vals [k Hk]%list_elem_of_lookup.
      simpl. rewrite !length_fmap.
      destruct (Forall2_lookup_r _ _ _ _ _ Hraws Hk) as (line & Hline & Hvals).
      apply list_lookup_fmap_Some in Hline as (r & -> & Hr).
      destruct (Forall2_lookup_r _ _ _ 0%nat first Hraws eq_refl)
        as (line0 & Hline0 & Hvals0).
      apply list_lookup_fmap_Some in Hline0 as (r0 & -> & Hr0).
      rewrite Forall_forall in Hrows.
      destruct (well_formed_row_values float num_features r
                  (Hrows r (list_elem_of_lookup_2 _ _ _ Hr))) as (_ & Hv & Hl).
      destruct (well_formed_row_values float num_features r0
                  (Hrows r0 (list_elem_of_lookup_2 _ _ _ Hr0))) as (_ & Hv0 & Hl0).
      assert (vals = omap float (fst r)) as -> by congruence.
      assert (first = omap float (fst r0)) as -> by congruence.
      lia. }
    rewrite length_fmap.
    destruct (tag_rows_total (length first) _ Hlong) as [docs' Hdocs'].
    simpl in Hdocs'. rewrite Hdocs'. simpl. by eexists _, _, _, _. }
  pose proof Hrun as (text & lines & st & raws & [= <-] & Hlines & Hread & -> & -> &
                      Hraws & (first & Hfirst & ->) & Hlen &
                          Htagged)%get_covariates_Loaded.
  rewrite (covariates_text_lines float num_features) in Hlines by done.
  rewrite pop_last_snoc in Hlines. injection Hlines as <-.
  assert (∀ i r, rows !! i = Some r → raws !! i = Some (omap float (fst r))) as Hvalues.
  { intros i r Hr.
    assert ((covariates_line <$> rows) !! i = Some (covariates_line r)) as Hline
      by (by rewrite list_lookup_fmap, Hr).
    destruct (Forall2_lookup_l _ _ _ _ _ Hraws Hline) as (vals & Hvals & Hv).
    rewrite Forall_forall in Hrows.
    destruct (well_formed_row_values float num_features r
                (Hrows r (list_elem_of_lookup_2 _ _ _ Hr))) as (_ & Hv' & _).
    congruence. }
  assert (length first = num_features) as Hnf.
  { destruct rows as [|r0 rows']; [done|].
    rewrite (Hvalues 0%nat r0 eq_refl) in Hfirst. injection Hfirst as <-.
    apply Forall_cons in Hrows as [Hwf _].
    by destruct (well_formed_row_values float num_features r0 Hwf) as (_ & _ & ?). }
  rewrite Hnf in Hrun, Htagged.
  exists docs, (Reader.cov_docToPost st), (Reader.cov_postToDoc st).
  split; [done|]. apply Forall2_length in Hraws as Hlen'.
  rewrite length_fmap in Hlen'. split.
  - apply mapM_Some, Forall2_same_length_lookup. split.
    + rewrite length_fmap. lia.
    + intros i row v Hrow Hv.
      apply list_lookup_fmap_Some in Hv as (r & -> & Hr).
      destruct (Htagged i _ (Hvalues i r Hr)) as (row' & Hrow' & Htag).
      assert (row' = row) as -> by congruence.
      apply (tagged_row_vec _ _ _ Htag).
      rewrite Forall_forall in Hrows.
      by destruct (well_formed_row_values float num_features r
                     (Hrows r (list_elem_of_lookup_2 _ _ _ Hr))) as (_ & _ & ?).
  - intros i r Hr. destruct Hread as [_ _ Hd2p _ _].
    rewrite Hd2p, list_lookup_fmap, Hr. simpl.
    rewrite Forall_forall in Hrows.
    by destruct (well_formed_row_values float num_features r
                   (Hrows r (list_elem_of_lookup_2 _ _ _ Hr))) as (? & _ & _).
Qed.

Lemma scenario_covariate_rows_well_formed :
  Forall (well_formed_row digits_float 2) scenario_covariate_rows.
Proof.
  apply Forall_forall. intros r Hr. unfold scenario_covariate_rows in Hr.
  repeat (apply elem_of_cons in Hr as [->|Hr]);
    [..|by apply elem_of_nil in Hr];
    (split; [reflexivity|split; [|split; simpl; repeat split; discriminate]]);
    repeat (apply Forall_cons; split;
            [simpl; repeat split; try discriminate; by eexists|]);
    apply Forall_nil_2.
Defined.

Lemma get_covariates_reads_witness :
  ∃ docs docToPost postToDoc,
    Reader.get_covariates digits_float
      (Some (covariates_text scenario_covariate_rows "9,9,T9"))
    = Reader.Loaded (docs, docToPost, 2%nat, postToDoc) ∧
    mapM Reader.row_vec docs
    = Some (row_vector digits_float <$> scenario_covariate_rows) ∧
    ∀ i r, scenario_covariate_rows !! i = Some r → docToPost !! i = Some (snd r).
Proof.
  apply get_covariates_reads.
  - discriminate.
  - simpl. repeat split; discriminate.
  - exact scenario_covariate_rows_well_formed.
Defined.
